(** * Inspiration Station: the fetch / compose / display pipeline of [app.py]

    A shallow embedding of [DesktopApp] ([src/pyhtonProj/app.py]) and of the
    library routines its behaviour depends on ([textwrap.TextWrapper.wrap],
    Python's [round] and [int], Pillow's [Image.resize] and [Image.crop]).

    - Python values that come out of JSON are [pyval]; dictionaries are
      [gmap string pyval].
    - A method that may raise, log, issue HTTP requests or repaint the canvas
      is a computation in the monad [M]: it takes the [world] and returns
      either the exception raised or a value, with the new world.
    - Everything the process does not control (the network, the random
      generator, the image decoder, the memory there is for an image, the
      font files, the glyph metrics and the rounding of binary64 arithmetic)
      is a field of [environment];
      [binary64] is the rounding of Python's floats, and the sample
      environments use it. *)

From Stdlib Require Import ZArith QArith Qround Qpower List String Ascii Lia Lqa DecimalString.
From Stdlib.Strings Require Import Byte.
From stdpp Require Import base gmap strings list.

Set Warnings "-register-all".
Open Scope Z_scope.

(** ** Python values and exceptions *)

Inductive pyval :=
| PyNone
| PyBool (b : bool)
| PyInt (z : Z)
| PyFloat (q : Q)
| PyStr (s : string)
| PyList (l : list pyval)
| PyDict (d : gmap string pyval).

(** The subclasses of [Exception] that the modelled code can raise. *)
Inductive exn :=
| RequestException        (* requests: connection error, timeout *)
| JSONDecodeError         (* response.json() on an unparseable body *)
| IndexError
| AttributeError
| TypeError
| ZeroDivisionError
| UnidentifiedImageError  (* Image.open on bytes that are no image *)
| ValueError
| OSError
| OverflowError           (* an int that does not fit a C int *)
| MemoryError
| OutOfFuel.              (* model only: a bounded loop ran out of steps *)

Definition exn_name (e : exn) : string :=
  match e with
  | RequestException => "RequestException"
  | JSONDecodeError => "JSONDecodeError"
  | IndexError => "IndexError"
  | AttributeError => "AttributeError"
  | TypeError => "TypeError"
  | ZeroDivisionError => "ZeroDivisionError"
  | UnidentifiedImageError => "UnidentifiedImageError"
  | ValueError => "ValueError"
  | OSError => "OSError"
  | OverflowError => "OverflowError"
  | MemoryError => "MemoryError"
  | OutOfFuel => "OutOfFuel"
  end.

(** [str(n)] for a Python int. *)
Definition str_of_int (n : Z) : string := NilZero.string_of_int (Z.to_int n).

(** ** Configuration (module-level constants) *)

Definition QUOTE_API_URL : string := "https://dummyjson.com/quotes/random".
Definition WINDOW_WIDTH : Z := 900.
Definition WINDOW_HEIGHT : Z := 600.
Definition UPDATE_INTERVAL_MS : Z := 10000.
Definition SEARCH_KEYWORD : string := "nature".

(** ** Images, fonts and drawing *)

Inductive font :=
| TrueTypeFont (path : string) (size : Z)   (* ImageFont.truetype(path, size) *)
| DefaultFont.                              (* ImageFont.load_default() *)

Definition rgba : Type := Z * Z * Z * Z.

(** One call [draw.text(xy, text, font=font, fill=fill)].  A [font] of [None]
    makes Pillow draw with its default font. *)
Record draw_op := DrawText {
  op_xy : Q * Q;
  op_text : string;
  op_font : option font;
  op_fill : rgba }.

(** A Pillow image: its size and the text drawn on it so far (the pixels are
    not modelled). *)
Record image := Image {
  width : Z;
  height : Z;
  drawn : list draw_op }.

(** What [ImageTk.PhotoImage(img)] hands to the canvas. *)
Record frame := PhotoImage {
  frame_width : Z;
  frame_height : Z;
  frame_ops : list draw_op }.

(** ** The world and the environment *)

Inductive log_level := INFO | WARNING | ERROR.

Record world := World {
  w_log : list (log_level * string);       (* records emitted by [logging] *)
  w_requests : list (string * Z);          (* (url, timeout) of every requests.get, oldest first *)
  w_current_image : option frame;          (* self.current_image *)
  w_canvas : list frame }.                 (* images created on self.canvas, oldest first *)

Record response := Response {
  status_code : Z;
  content : list byte;
  json_body : option pyval }.              (* [None]: response.json() raises *)

Record environment := Environment {
  (* requests.get(url, timeout=t); [None]: the call raises *)
  env_get : string -> Z -> option response;
  (* random.randint(a, b) *)
  env_randint : Z -> Z -> Z;
  (* Image.open(io.BytesIO(data)): the size of the decoded image; [None]: it raises *)
  env_image_open : list byte -> option (Z * Z);
  (* img.load() on the image opened from [data]: whether its pixel data decodes *)
  env_image_load : list byte -> bool;
  (* whether the memory is there for an image of this width and height *)
  env_image_fits : Z -> Z -> bool;
  (* whether ImageFont.truetype(path, size) finds and loads the font file *)
  env_font_loads : string -> Z -> bool;
  (* hasattr(draw, 'textbbox') *)
  env_has_textbbox : bool;
  (* draw.textbbox((0, 0), txt, font=font) *)
  env_textbbox : option font -> string -> Z * Z * Z * Z;
  (* draw.textsize(txt, font=font) *)
  env_textsize : option font -> string -> Z * Z;
  (* rounding of a real result to a binary64 float *)
  env_fl : Q -> Q }.

(** ** The monad of methods *)

Definition M (A : Type) : Type := world -> (exn + A) * world.

#[global] Instance M_ret : MRet M := fun A (a : A) w => (inr a, w).

#[global] Instance M_bind : MBind M := fun A B (k : A -> M B) (m : M A) w =>
  match m w with
  | (inl e, w') => (inl e, w')
  | (inr a, w') => k a w'
  end.

Definition raise {A} (e : exn) : M A := fun w => (inl e, w).

(** A value or exception computed without touching the world. *)
Definition lift {A} (r : exn + A) : M A := fun w => (r, w).

(** [try: body  except Exception as e: handler e] *)
Definition try_except {A} (body : M A) (handler : exn -> M A) : M A := fun w =>
  match body w with
  | (inl e, w') => handler e w'
  | (inr a, w') => (inr a, w')
  end.

Definition logging (lvl : log_level) (msg : string) : M unit := fun w =>
  (inr tt, World (w_log w ++ [(lvl, msg)]) (w_requests w) (w_current_image w) (w_canvas w)).

Definition requests_get (env : environment) (url : string) (timeout : Z) : M response := fun w =>
  let w' := World (w_log w) (w_requests w ++ [(url, timeout)]) (w_current_image w) (w_canvas w) in
  match env_get env url timeout with
  | Some r => (inr r, w')
  | None => (inl RequestException, w')
  end.

(** ** Content fetcher *)

(** [response.json()] *)
Definition response_json (r : response) : M pyval :=
  match json_body r with
  | Some v => mret v
  | None => raise JSONDecodeError
  end.

(** [data[0]] on a list *)
Definition list_first (l : list pyval) : M pyval :=
  match l with
  | x :: _ => mret x
  | [] => raise IndexError
  end.

(** Looking up the method [get] on [data]: only a dict has it. *)
Definition getattr_get (data : pyval) : M (gmap string pyval) :=
  match data with
  | PyDict d => mret d
  | _ => raise AttributeError
  end.

(** [d.get(key, default)] *)
Definition dict_get (d : gmap string pyval) (key : string) (default : pyval) : pyval :=
  match d !! key with
  | Some v => v
  | None => default
  end.

Definition API_ERROR_QUOTE : pyval * pyval :=
  (PyStr "The beauty of the world lies in the details.", PyStr "Default").

Definition OFFLINE_QUOTE : pyval * pyval :=
  (PyStr "Stay focused and never give up.", PyStr "Offline Mode").

(** The body of the [try] block of [fetch_quote]. *)
Definition fetch_quote_try (env : environment) : M (pyval * pyval) :=
  response ← requests_get env QUOTE_API_URL 5;
  if status_code response =? 200 then
    data ← response_json response;
    data ← match data with
           | PyList l => list_first l
           | _ => mret data
           end;
    d ← getattr_get data;
    let content := dict_get d "quote"
                     (dict_get d "content" (PyStr "Inspiration allows us to do great things.")) in
    let author := dict_get d "author" (PyStr "Unknown") in
    mret (content, author)
  else
    logging WARNING ("Quote API Error: " +:+ str_of_int (status_code response));;
    mret API_ERROR_QUOTE.

Definition fetch_quote (env : environment) : M (pyval * pyval) :=
  try_except (fetch_quote_try env)
    (fun e =>
       logging ERROR ("Quote Fetch Exception: " +:+ exn_name e);;
       mret OFFLINE_QUOTE).

Definition loremflickr_url (keyword : string) (rand_id : Z) : string :=
  "https://loremflickr.com/" +:+ str_of_int WINDOW_WIDTH +:+ "/" +:+ str_of_int WINDOW_HEIGHT
    +:+ "/" +:+ keyword +:+ "?lock=" +:+ str_of_int rand_id.

Definition picsum_url (rand_id : Z) : string :=
  "https://picsum.photos/" +:+ str_of_int WINDOW_WIDTH +:+ "/" +:+ str_of_int WINDOW_HEIGHT
    +:+ "?blur=1&random=" +:+ str_of_int rand_id.

(** The body of the [try] block of [fetch_image]; [None] stands for falling
    out of the block, after which the method returns [None]. *)
Definition fetch_image_try (env : environment) (keyword : string) : M (option (list byte)) :=
  let rand_id := env_randint env 1 10000 in
  let img_url := loremflickr_url keyword rand_id in
  logging INFO ("Fetching image from: " +:+ img_url);;
  response ← requests_get env img_url 10;
  if status_code response =? 200 then mret (Some (content response))
  else
    logging INFO "LoremFlickr failed, falling back to Picsum.";;
    response ← requests_get env (picsum_url rand_id) 10;
    if status_code response =? 200 then mret (Some (content response))
    else mret None.

Definition fetch_image (env : environment) (keyword : string) : M (option (list byte)) :=
  try_except (fetch_image_try env keyword)
    (fun e =>
       logging ERROR ("Image Fetch Exception: " +:+ exn_name e);;
       mret None).

(** ** [textwrap.TextWrapper(width).wrap] (CPython 3.11 [Lib/textwrap.py])

    Characters are code points below 256; a Python [str] is a [string] at the
    interfaces and a [list ascii] inside the wrapper.  All options other than
    [width] have their defaults: [expand_tabs], [replace_whitespace],
    [break_long_words], [drop_whitespace] and [break_on_hyphens] are on,
    [tabsize] is 8, the indents are empty, [fix_sentence_endings] is off and
    [max_lines] is [None]. *)

Definition code (c : ascii) : Z := Z.of_N (N_of_ascii c).

Definition between (lo hi n : Z) : bool := (lo <=? n) && (n <=? hi).

(** [textwrap._whitespace = '\t\n\x0b\x0c\r '] *)
Definition is_whitespace (c : ascii) : bool :=
  between 9 13 (code c) || (code c =? 32).

(** [str.isspace], by which [str.strip()] trims. *)
Definition isspace (c : ascii) : bool :=
  let n := code c in
  between 9 13 n || between 28 32 n || (n =? 133) || (n =? 160).

(** The regular-expression class [\d]. *)
Definition is_digit (c : ascii) : bool := between 48 57 (code c).

(** The regular-expression class [\w]. *)
Definition is_word_char (c : ascii) : bool :=
  let n := code c in
  between 48 57 n || between 65 90 n || (n =? 95) || between 97 122 n
  || (n =? 170) || between 178 179 n || (n =? 181) || between 185 186 n
  || between 188 190 n || between 192 214 n || between 216 246 n || between 248 255 n.

(** [letter = r'[^\d\W]'] *)
Definition is_letter (c : ascii) : bool := is_word_char c && negb (is_digit c).

(** [word_punct]: a [\w] character or one of the seven marks
    ! (33), double quote (34), ' (39), & (38), . (46), comma (44), ? (63). *)
Definition is_word_punct (c : ascii) : bool :=
  let n := code c in
  is_word_char c || (n =? 33) || (n =? 34) || (n =? 39) || (n =? 38)
  || (n =? 46) || (n =? 44) || (n =? 63).

Definition is_hyphen (c : ascii) : bool := code c =? 45.

Definition space : ascii := " "%char.

(** [text.expandtabs(tabsize)], [column] being the position in the current line. *)
Fixpoint expandtabs (tabsize column : nat) (text : list ascii) : list ascii :=
  match text with
  | [] => []
  | c :: rest =>
    if code c =? 9 then
      if (0 <? tabsize)%nat then
        let incr := (tabsize - column mod tabsize)%nat in
        repeat space incr ++ expandtabs tabsize (column + incr) rest
      else expandtabs tabsize column rest
    else
      c :: expandtabs tabsize
             (if (code c =? 10) || (code c =? 13) then O else S column) rest
  end.

(** [text.translate(unicode_whitespace_trans)] *)
Definition translate_whitespace (text : list ascii) : list ascii :=
  map (fun c => if is_whitespace c then space else c) text.

Definition _munge_whitespace (text : list ascii) : list ascii :=
  translate_whitespace (expandtabs 8 0 text).

(** [wordsep_re.split(text)] reads the text left to right as a sequence of
    matches of [wordsep_re]; what follows decides, one character at a time,
    where the current match ends. *)

Fixpoint drop_hyphens (s : list ascii) : nat * list ascii :=
  match s with
  | c :: rest =>
    if is_hyphen c then let '(n, s') := drop_hyphens rest in (S n, s') else (O, s)
  | [] => (O, [])
  end.

(** [s] starts with a match of [-{2,}\w]. *)
Definition dashes_then_word (s : list ascii) : bool :=
  let '(n, s') := drop_hyphens s in
  (2 <=? n)%nat && match s' with c :: _ => is_word_char c | [] => false end.

(** The look-behinds [(?<=lt{2}-)] and [(?<=lt-lt-)] just after a hyphen;
    [before] holds the characters in front of that hyphen, nearest first. *)
Definition hyphen_lookbehind (before : list ascii) : bool :=
  match before with
  | b1 :: b2 :: more =>
    is_letter b1 &&
    (is_letter b2 || (is_hyphen b2 && match more with b3 :: _ => is_letter b3 | [] => false end))
  | _ => false
  end.

(** The look-ahead [(?= lt -? lt)]. *)
Definition hyphen_lookahead (after : list ascii) : bool :=
  match after with
  | r0 :: r1 :: more =>
    is_letter r0 &&
    (is_letter r1 || (is_hyphen r1 && match more with r2 :: _ => is_letter r2 | [] => false end))
  | _ => false
  end.

Definition preceded_by_word_punct (before : list ascii) : bool :=
  match before with b :: _ => is_word_punct b | [] => false end.

(** Which alternative of [wordsep_re] matches at the head of [rest]:
    whitespace, an em-dash between words, or a word. *)
Inductive chunk_kind := InSpace | InDash | InWord.

Definition chunk_start (before rest : list ascii) : chunk_kind :=
  match rest with
  | c :: _ =>
    if is_whitespace c then InSpace
    else if preceded_by_word_punct before && dashes_then_word rest then InDash
    else InWord
  | [] => InWord
  end.

Definition emit (cur : list ascii) : list (list ascii) :=
  match cur with [] => [] | _ => [rev cur] end.

(** Where the chunk being read ends, relative to the next character. *)
Inductive boundary := Continue | EndBefore | EndAfter.

(** [kind]: the alternative matching the chunk being read, [None] when a new
    chunk starts here; [before]: the text already read, nearest character
    first; [c :: after]: the text still to read. *)
Definition chunk_end (kind : option chunk_kind) (before : list ascii) (c : ascii)
    (after : list ascii) : boundary :=
  match kind with
  | None => EndBefore
  | Some InSpace => if is_whitespace c then Continue else EndBefore
  | Some InDash => if is_hyphen c then Continue else EndBefore
  | Some InWord =>
    if is_hyphen c && hyphen_lookbehind before && hyphen_lookahead after
    then EndAfter                                       (* hyphenated word *)
    else if is_whitespace c then EndBefore              (* end of word *)
    else if preceded_by_word_punct before && dashes_then_word (c :: after)
    then EndBefore                                      (* em-dash *)
    else Continue
  end.

(** [cur] is the chunk being read, reversed. *)
Fixpoint split_from (before cur : list ascii) (kind : option chunk_kind)
    (rest : list ascii) : list (list ascii) :=
  match rest with
  | [] => emit cur
  | c :: after =>
    match chunk_end kind before c after with
    | Continue => split_from (c :: before) (c :: cur) kind after
    | EndBefore =>
      emit cur ++ split_from (c :: before) [c] (Some (chunk_start before rest)) after
    | EndAfter =>
      emit (c :: cur) ++ split_from (c :: before) [] None after
    end
  end.

(** [_split], with [break_on_hyphens] on. *)
Definition _split (text : list ascii) : list (list ascii) :=
  split_from [] [] None text.

Definition _split_chunks (text : list ascii) : list (list ascii) :=
  _split (_munge_whitespace text).

Definition len (s : list ascii) : Z := Z.of_nat (length s).

(** A slice bound as Python normalises it: negative bounds count from the end. *)
Definition slice_bound (s : list ascii) (i : Z) : nat :=
  Z.to_nat (if i <? 0 then Z.max 0 (len s + i) else Z.min i (len s)).

(** [s[:stop]] and [s[stop:]] *)
Definition slice_to (s : list ascii) (stop : Z) : list ascii := take (slice_bound s stop) s.
Definition slice_from (s : list ascii) (start : Z) : list ascii := drop (slice_bound s start) s.

(** Highest index of a hyphen in [s], counted from [i]; [-1] if there is none. *)
Fixpoint last_hyphen (s : list ascii) (i : Z) : Z :=
  match s with
  | [] => -1
  | c :: rest =>
    let r := last_hyphen rest (i + 1) in
    if 0 <=? r then r else if is_hyphen c then i else -1
  end.

(** [s.rfind('-', 0, stop)] *)
Definition rfind_hyphen (s : list ascii) (stop : Z) : Z := last_hyphen (slice_to s stop) 0.

(** [s.strip() == ''] *)
Definition strip_is_empty (s : list ascii) : bool := forallb isspace s.

(** [_handle_long_word]: [chunk] is [reversed_chunks[-1]]; returns what is
    appended to [cur_line] and what replaces [reversed_chunks[-1]]. *)
Definition _handle_long_word (chunk : list ascii) (cur_len width : Z)
    : list ascii * list ascii :=
  let space_left := if width <? 1 then 1 else width - cur_len in
  let stop :=
    if space_left <? len chunk then
      let hyphen := rfind_hyphen chunk space_left in
      if (0 <? hyphen) && existsb (fun c => negb (is_hyphen c)) (slice_to chunk hyphen)
      then hyphen + 1 else space_left
    else space_left in
  (slice_to chunk stop, slice_from chunk stop).

(** The inner [while chunks:] loop: chunks that fit move to the current line. *)
Fixpoint fill_line (width : Z) (chunks cur_line : list (list ascii)) (cur_len : Z)
    : list (list ascii) * list (list ascii) * Z :=
  match chunks with
  | [] => ([], cur_line, cur_len)
  | c :: rest =>
    if cur_len + len c <=? width then fill_line width rest (cur_line ++ [c]) (cur_len + len c)
    else (chunks, cur_line, cur_len)
  end.

(** [if self.drop_whitespace and cur_line and cur_line[-1].strip() == '': del cur_line[-1]] *)
Definition drop_trailing_whitespace (cur_line : list (list ascii)) : list (list ascii) :=
  match last cur_line with
  | Some c => if strip_is_empty c then removelast cur_line else cur_line
  | None => cur_line
  end.

(** One pass through the body of the outer [while chunks:] loop of
    [_wrap_chunks]; [chunks] is the stack with its top first and [lines] the
    lines built so far.  Returns the stack left and the chunks of [cur_line]. *)
Definition next_line (width : Z) (chunks lines : list (list ascii))
    : list (list ascii) * list (list ascii) :=
  let chunks :=
    match chunks with
    | top :: below =>
      if strip_is_empty top && negb (bool_decide (lines = [])) then below else chunks
    | [] => chunks
    end in
  let '(chunks, cur_line, cur_len) := fill_line width chunks [] 0 in
  let '(chunks, cur_line) :=
    match chunks with
    | c :: rest =>
      if width <? len c then
        let '(piece, remainder) := _handle_long_word c cur_len width in
        (remainder :: rest, cur_line ++ [piece])
      else (chunks, cur_line)
    | [] => (chunks, cur_line)
    end in
  (chunks, drop_trailing_whitespace cur_line).

(** The outer loop; one unit of [fuel] is spent per pass. *)
Fixpoint wrap_loop (fuel : nat) (width : Z) (chunks lines : list (list ascii))
    : option (list (list ascii)) :=
  match chunks with
  | [] => Some lines
  | _ :: _ =>
    match fuel with
    | O => None
    | S fuel' =>
      let '(chunks, cur_line) := next_line width chunks lines in
      wrap_loop fuel' width chunks
        match cur_line with
        | [] => lines
        | _ :: _ => lines ++ [concat cur_line]
        end
    end
  end.

Definition total_len (chunks : list (list ascii)) : nat := length (concat chunks).

Definition _wrap_chunks (width : Z) (chunks : list (list ascii)) : exn + list (list ascii) :=
  if width <=? 0 then inl ValueError
  else match wrap_loop (S (total_len chunks)) width chunks [] with
       | Some lines => inr lines
       | None => inl OutOfFuel
       end.

(** [textwrap.TextWrapper(width=width).wrap(text)] *)
Definition wrap (width : Z) (text : string) : exn + list string :=
  match _wrap_chunks width (_split_chunks (list_ascii_of_string text)) with
  | inr lines => inr (map string_of_list_ascii lines)
  | inl e => inl e
  end.

(** ** Python numbers

    A Python float is a binary64 number, here a rational.  Sums and
    differences of pixel counts, their halves and the ratio 900 / 600 are
    dyadic rationals far below 2^53: binary64 computes them exactly, and
    they are written in [Q] as they stand.  The operations whose exact
    result need not be representable (the quotient of two image sides, a
    product or a quotient by it, 800 / 18) round their result with
    [env_fl]. *)

Definition Qltb (x y : Q) : bool := Qnum x * QDen y <? Qnum y * QDen x.

(** [int(x)] for a float [x]: truncation towards zero. *)
Definition py_int (x : Q) : Z := Z.quot (Qnum x) (QDen x).

(** [round(x)] for a float [x]: the nearest integer, a half going to the even
    neighbour. *)
Definition py_round (x : Q) : Z :=
  let f := Qfloor x in
  let r := (x - inject_Z f)%Q in
  if Qltb r (1 # 2) then f
  else if Qltb (1 # 2) r then f + 1
  else if Z.even f then f else f + 1.

(** [a / b] for two ints *)
Definition int_truediv (env : environment) (a b : Z) : exn + Q :=
  if b =? 0 then inl ZeroDivisionError
  else inr (env_fl env (inject_Z a / inject_Z b)%Q).

(** [a / b] for two floats *)
Definition float_truediv (env : environment) (a b : Q) : exn + Q :=
  if Qeq_bool b 0 then inl ZeroDivisionError
  else inr (env_fl env (a / b)%Q).

(** [a * b] for two floats *)
Definition float_mul (env : environment) (a b : Q) : Q := env_fl env (a * b)%Q.

(** [n / 2] for an int [n] *)
Definition half (n : Z) : Q := (inject_Z n / 2)%Q.

Definition pow2 (k : nat) : Q := inject_Z (2 ^ Z.of_nat k).

(** What the proofs use of round-to-nearest at 53 bits: it is monotone, and it
    leaves alone every [m / 2^k] whose numerator fits 53 bits. *)
Record binary64_rounding (fl : Q -> Q) : Prop := {
  fl_monotone : forall x y : Q, (x <= y)%Q -> (fl x <= fl y)%Q;
  fl_exact : forall (m : Z) (k : nat),
      Z.abs m <= 2 ^ 53 -> (fl (inject_Z m / pow2 k) == inject_Z m / pow2 k)%Q }.

(** ** Round-to-nearest-even at 53 bits

    The rounding of binary64 arithmetic, without its exponent range: no
    overflow and no subnormal numbers.  It agrees with binary64 on every real
    of magnitude between 2^-1022 and 2^1024. *)

(** [floor (log2 x)] for a positive [x]. *)
Definition Qlog2 (x : Q) : Z :=
  let c := Z.log2 (Qnum x) - Z.log2 (QDen x) in
  if Qle_bool (2 ^ c) x then c else c - 1.

(** A positive [x] scaled to a 53-bit significand, rounded to the nearest
    integer (ties to even) and scaled back. *)
Definition round_53 (x : Q) : Q :=
  let e := Qlog2 x - 52 in
  (inject_Z (py_round (x / 2 ^ e)) * 2 ^ e)%Q.

Definition binary64 (x : Q) : Q :=
  match (x ?= 0)%Q with
  | Eq => 0%Q
  | Gt => round_53 x
  | Lt => (- round_53 (- x))%Q
  end.

(** ** Pillow *)

(** [Image.open(io.BytesIO(data))] *)
Definition Image_open (env : environment) (data : list byte) : exn + image :=
  match env_image_open env data with
  | Some (w, h) => inr (Image w h [])
  | None => inl UnidentifiedImageError
  end.

(** [img.resize(size, Image.Resampling.LANCZOS)] on the image opened from
    [image_data].  Pillow first loads the pixel data, which [Image.open] has
    left undecoded; it then hands the size to its C routine, as two C ints
    that must both be positive, and that routine allocates the new image. *)
Definition resize (env : environment) (image_data : list byte) (img : image)
    (size : Z * Z) : exn + image :=
  let '(w, h) := size in
  if negb (env_image_load env image_data) then inl OSError
  else if (2 ^ 31 <=? w) || (2 ^ 31 <=? h) then inl OverflowError
  else if (w <? 1) || (h <? 1) then inl ValueError
  else if negb (env_image_fits env w h) then inl MemoryError
  else inr (Image w h (drawn img)).

(** The box that [img.crop(box)] cuts out, in whole pixels: Pillow rounds
    the four numbers of [box] with [round]. *)
Definition crop_window (box : Q * Q * Q * Q) : Z * Z * Z * Z :=
  let '(left_, top, right_, bottom) := box in
  (py_round left_, py_round top, py_round right_, py_round bottom).

(** [img.crop(box)]: the result has the size of the rounded box. *)
Definition crop (img : image) (box : Q * Q * Q * Q) : exn + image :=
  let '(left_, top, right_, bottom) := box in
  if Qltb right_ left_ || Qltb bottom top then inl ValueError
  else
    let '(x0, y0, x1, y1) := crop_window box in
    inr (Image (x1 - x0) (y1 - y0) (drawn img)).

(** [Image.new(mode, size, color)] *)
Definition Image_new (size : Z * Z) : image := Image (fst size) (snd size) [].

(** [Image.alpha_composite(im1, im2)] *)
Definition alpha_composite (im1 im2 : image) : exn + image :=
  if (width im1 =? width im2) && (height im1 =? height im2) then inr im1
  else inl ValueError.

(** [ImageFont.truetype(path, size)] *)
Definition truetype (env : environment) (path : string) (size : Z) : exn + font :=
  if env_font_loads env path size then inr (TrueTypeFont path size) else inl OSError.

(** [draw.text(xy, txt, font=font, fill=fill)] *)
Definition draw_text (img : image) (xy : Q * Q) (txt : string) (f : option font)
    (fill : rgba) : image :=
  Image (width img) (height img) (drawn img ++ [DrawText xy txt f fill]).

(** ** Compositor: [process_image] *)

(** Lines 147-166: scale to cover the window, then crop around the centre. *)
Definition cover_size (env : environment) (img : image) : exn + (Z * Z) :=
  match int_truediv env (width img) (height img) with
  | inl e => inl e
  | inr img_ratio =>
    let window_ratio := (inject_Z WINDOW_WIDTH / inject_Z WINDOW_HEIGHT)%Q in
    if Qltb window_ratio img_ratio then
      (* Image is wider than window, crop width *)
      let new_height := WINDOW_HEIGHT in
      let new_width := py_int (float_mul env (inject_Z new_height) img_ratio) in
      inr (new_width, new_height)
    else
      (* Image is taller than window, crop height *)
      let new_width := WINDOW_WIDTH in
      match float_truediv env (inject_Z new_width) img_ratio with
      | inl e => inl e
      | inr q => inr (new_width, py_int q)
      end
  end.

Definition crop_box (new_width new_height : Z) : Q * Q * Q * Q :=
  let left_ := half (new_width - WINDOW_WIDTH) in
  let top := half (new_height - WINDOW_HEIGHT) in
  let right_ := half (new_width + WINDOW_WIDTH) in
  let bottom := half (new_height + WINDOW_HEIGHT) in
  (left_, top, right_, bottom).

Definition scale_and_crop (env : environment) (image_data : list byte) (img : image)
    : exn + image :=
  match cover_size env img with
  | inl e => inl e
  | inr (new_width, new_height) =>
    match resize env image_data img (new_width, new_height) with
    | inl e => inl e
    | inr img => crop img (crop_box new_width new_height)
    end
  end.

(** Lines 181-193 *)
Definition font_candidates : list string :=
  [ "/System/Library/Fonts/HelveticaNeue.ttc";
    "/System/Library/Fonts/SFNS.ttf";
    "/Library/Fonts/Arial.ttf";
    "arial.ttf";
    "segoeui.ttf";
    "calibri.ttf";
    "/usr/share/fonts/truetype/dejavu/DejaVuSans-Bold.ttf";
    "/usr/share/fonts/truetype/liberation/LiberationSans-Regular.ttf" ].

(** Lines 195-201: the [for font_path in font_candidates] loop.  An [OSError]
    goes on to the next candidate, any other exception leaves the loop. *)
Fixpoint load_fonts (env : environment) (candidates : list string)
    (font_large font_small : option font) : exn + (option font * option font) :=
  match candidates with
  | [] => inr (font_large, font_small)
  | font_path :: rest =>
    match truetype env font_path 36 with
    | inr large =>
      match truetype env font_path 24 with
      | inr small => inr (Some large, Some small)                       (* break *)
      | inl OSError => load_fonts env rest (Some large) font_small      (* continue *)
      | inl e => inl e
      end
    | inl OSError => load_fonts env rest font_large font_small          (* continue *)
    | inl e => inl e
    end
  end.

(** Lines 177-207 *)
Definition resolve_fonts (env : environment) : M (option font * option font) :=
  '(font_large, font_small) ← lift (load_fonts env font_candidates None None);
  match font_large with
  | None =>
    logging WARNING "No system fonts found, using default PIL font.";;
    mret (Some DefaultFont, Some DefaultFont)
  | Some _ => mret (font_large, font_small)
  end.

(** Lines 214-215 *)
Definition avg_char_width : Z := 18.

Definition max_chars (env : environment) : Z :=
  py_int (env_fl env (inject_Z (WINDOW_WIDTH - 100) / inject_Z avg_char_width)%Q).

(** Lines 226-231 *)
Definition get_text_size (env : environment) (f : option font) (txt : string) : Z * Z :=
  if env_has_textbbox env then
    let '(x0, y0, x1, y1) := env_textbbox env f txt in (x1 - x0, y1 - y0)
  else env_textsize env f txt.

(** Lines 233-236: the first [for line in text_lines] loop. *)
Fixpoint measure_lines (env : environment) (font_large : option font)
    (text_lines : list string) (total_height : Z) (line_heights : list Z) : Z * list Z :=
  match text_lines with
  | [] => (total_height, line_heights)
  | line :: rest =>
    let '(w, h) := get_text_size env font_large line in
    measure_lines env font_large rest (total_height + (h + 10)) (line_heights ++ [h + 10])
  end.

(** Lines 222-240: [total_height] when the quote is drawn from [current_y]. *)
Definition block_height (env : environment) (font_large font_small : option font)
    (text_lines : list string) (author : string) : Z :=
  let '(total_height, _) := measure_lines env font_large text_lines 0 [] in
  let '(aw, ah) := get_text_size env font_small author in
  total_height + (ah + 30).

(** Lines 245-254: the [for i, line in enumerate(text_lines)] loop, from index [i]. *)
Fixpoint draw_quote (env : environment) (font_large : option font) (i : nat)
    (text_lines : list string) (line_heights : list Z) (current_y : Q) (img : image)
    : exn + (Q * image) :=
  match text_lines with
  | [] => inr (current_y, img)
  | line :: rest =>
    let '(w, h) := get_text_size env font_large line in
    let x_pos := half (WINDOW_WIDTH - w) in
    let img := draw_text img (x_pos + 2, current_y + 2)%Q line font_large (0, 0, 0, 160) in
    let img := draw_text img (x_pos, current_y) line font_large (255, 255, 255, 255) in
    match line_heights !! i with
    | Some line_height =>
      draw_quote env font_large (S i) rest line_heights (current_y + inject_Z line_height)%Q img
    | None => inl IndexError
    end
  end.

(** Lines 257-263 *)
Definition draw_author (env : environment) (font_small : option font) (author : string)
    (current_y : Q) (img : image) : image :=
  let current_y := (current_y + 20)%Q in
  let auth_str := "- " +:+ author in
  let '(aw, ah) := get_text_size env font_small auth_str in
  let ax_pos := half (WINDOW_WIDTH - aw) in
  let img := draw_text img (ax_pos + 1, current_y + 1)%Q auth_str font_small (0, 0, 0, 160) in
  draw_text img (ax_pos, current_y) auth_str font_small (220, 220, 220, 255).

(** Lines 220-263 *)
Definition draw_text_block (env : environment) (font_large font_small : option font)
    (text_lines : list string) (author : string) (img : image) : exn + image :=
  let '(total_height, line_heights) := measure_lines env font_large text_lines 0 [] in
  let '(aw, ah) := get_text_size env font_small author in
  let total_height := total_height + (ah + 30) in
  let current_y := half (WINDOW_HEIGHT - total_height) in
  match draw_quote env font_large 0 text_lines line_heights current_y img with
  | inl e => inl e
  | inr (current_y, img) => inr (draw_author env font_small author current_y img)
  end.

(** A value used where Pillow or [textwrap] needs a [str]; anything else
    raises there. *)
Definition as_str (v : pyval) (e : exn) : M string :=
  match v with
  | PyStr s => mret s
  | _ => raise e
  end.

(** The body of the [try] block of [process_image]. *)
Definition process_image_try (env : environment) (image_data : list byte)
    (text author : pyval) : M frame :=
  img ← lift (Image_open env image_data);
  img ← lift (scale_and_crop env image_data img);
  let overlay := Image_new (width img, height img) in
  img ← lift (alpha_composite img overlay);
  '(font_large, font_small) ← resolve_fonts env;
  text ← as_str text AttributeError;
  text_lines ← lift (wrap (max_chars env) text);
  author ← as_str author TypeError;
  img ← lift (draw_text_block env font_large font_small text_lines author img);
  mret (PhotoImage (width img) (height img) (drawn img)).

Definition process_image (env : environment) (image_data : list byte)
    (text author : pyval) : M (option frame) :=
  try_except
    (f ← process_image_try env image_data text author; mret (Some f))
    (fun e =>
       logging ERROR ("Image Processing Exception: " +:+ exn_name e);;
       mret None).

(** ** Display and cycle *)

(** [update_ui]: [if photo_image:] holds for every [PhotoImage] object. *)
Definition update_ui (photo_image : option frame) : M unit := fun w =>
  match photo_image with
  | Some f => (inr tt, World (w_log w) (w_requests w) (Some f) (w_canvas w ++ [f]))
  | None => (inr tt, w)
  end.

(** [load_content]; the call [self.root.after(0, self.update_ui, final_image)]
    is the call of [update_ui] that the main loop makes for it. *)
Definition load_content (env : environment) : M unit :=
  try_except
    ('(quote_text, quote_author) ← fetch_quote env;
     image_data ← fetch_image env SEARCH_KEYWORD;
     match image_data with
     | Some (b :: data) =>
       final_image ← process_image env (b :: data) quote_text quote_author;
       update_ui final_image
     | _ => logging ERROR "Failed to fetch image data."
     end)
    (fun e => logging ERROR ("Error in load_content: " +:+ exn_name e)).


(** ** Auxiliary notions for the statements below *)

(** A text in which no character is white space for [str.strip]. *)
Definition spaceless (s : list ascii) : Prop := Forall (fun a => isspace a = false) s.

Definition nonempty_chunks (chunks : list (list ascii)) : Prop :=
  Forall (fun c : list ascii => c <> []) chunks.

(** [line_heights[i]] as the first loop computes it. *)
Definition line_height (env : environment) (f : option font) (line : string) : Z :=
  snd (get_text_size env f line) + 10.

(** By how much [current_y] has advanced when line [k] is drawn. *)
Fixpoint heights_before (env : environment) (f : option font) (text_lines : list string)
    (k : nat) : Z :=
  match k, text_lines with
  | S k', line :: rest => line_height env f line + heights_before env f rest k'
  | _, _ => 0
  end.

(** The two [draw.text] calls for one quote line at height [y]. *)
Definition line_ops (env : environment) (f : option font) (line : string) (y : Q)
    : list draw_op :=
  let x_pos := half (WINDOW_WIDTH - fst (get_text_size env f line)) in
  [DrawText (x_pos + 2, y + 2)%Q line f (0, 0, 0, 160);
   DrawText (x_pos, y) line f (255, 255, 255, 255)].

Fixpoint quote_ops (env : environment) (f : option font) (text_lines : list string) (y : Q)
    : list draw_op :=
  match text_lines with
  | [] => []
  | line :: rest =>
    line_ops env f line y ++ quote_ops env f rest (y + inject_Z (line_height env f line))%Q
  end.

Definition author_ops (env : environment) (f : option font) (author : string) (y : Q)
    : list draw_op :=
  let auth_str := "- " +:+ author in
  let ax_pos := half (WINDOW_WIDTH - fst (get_text_size env f auth_str)) in
  [DrawText (ax_pos + 1, y + 20 + 1)%Q auth_str f (0, 0, 0, 160);
   DrawText (ax_pos, y + 20)%Q auth_str f (220, 220, 220, 255)].

(** The sum of a list of integers. *)
Definition total (l : list Z) : Z := fold_right Z.add 0 l.

(** What the lines [text_lines], measured in font [f], add to the height of
    the block: the height of each plus a padding of 10. *)
Definition padded_heights (env : environment) (f : option font) (text_lines : list string)
    : list Z :=
  map (fun line => snd (get_text_size env f line) + 10) text_lines.

(** What C8 says of a frame [f] whose quote lines are [text_lines], drawn in
    [font_large] from ordinate [start_y]: line [k] is drawn by the calls
    [2k] (the shadow, offset by 2) and [2k + 1], at the abscissa that
    centres its measured width and at [start_y] plus the padded heights of
    the [k] lines before it. *)
Definition quote_lines_centred (env : environment) (font_large : option font)
    (text_lines : list string) (start_y : Q) (f : frame) : Prop :=
  forall (k : nat) (line : string),
    text_lines !! k = Some line ->
    exists shadow op,
      frame_ops f !! (2 * k)%nat = Some shadow /\
      frame_ops f !! (2 * k + 1)%nat = Some op /\
      op_text op = line /\ op_text shadow = line /\
      (fst (op_xy op) == half (WINDOW_WIDTH - fst (get_text_size env font_large line)))%Q /\
      (snd (op_xy op)
       == start_y + inject_Z (total (padded_heights env font_large (take k text_lines))))%Q /\
      (fst (op_xy shadow) == fst (op_xy op) + 2)%Q /\
      (snd (op_xy shadow) == snd (op_xy op) + 2)%Q.

(** The rows that the ink of a [draw.text] call covers, with a Pillow that
    has [textbbox]: from the top to the bottom of the bounding box of the
    text, which is its box at the origin moved to where the text is drawn. *)
Definition ink_top (env : environment) (op : draw_op) : Q :=
  let '(_, y0, _, _) := env_textbbox env (op_font op) (op_text op) in
  (snd (op_xy op) + inject_Z y0)%Q.

Definition ink_bottom (env : environment) (op : draw_op) : Q :=
  let '(_, _, _, y1) := env_textbbox env (op_font op) (op_text op) in
  (snd (op_xy op) + inject_Z y1)%Q.

(** What holds of the author line of a frame [f] in place of C10.
    [total_height] is the sum that the code computes: the padded heights of
    the quote lines, the measured height [ah] of [author], and 30.  The
    author line is the last thing drawn; it is placed 20 below the quote
    lines, that is 10 above the place that [total_height] leaves for it.
    With a Pillow that has [textbbox], [y0f] being the top of the box of
    the first quote line and [y1d] the bottom of the box of the string
    drawn ([- author]), the ink runs from [start_y + y0f] to
    [start_y + total_height - ah - 10 + y1d]; it spans [total_height - 10]
    rows with its middle 5 above the middle of the window exactly when
    [y0f = 0] and [y1d = ah]. *)
Definition author_line_span (env : environment) (font_large font_small : option font)
    (text_lines : list string) (author : string) (f : frame) : Prop :=
  let quote_height := total (padded_heights env font_large text_lines) in
  let ah := snd (get_text_size env font_small author) in
  let total_height := quote_height + (ah + 30) in
  let start_y := half (WINDOW_HEIGHT - total_height) in
  exists op,
    last (frame_ops f) = Some op /\
    op_text op = "- " +:+ author /\
    block_height env font_large font_small text_lines author = total_height /\
    (snd (op_xy op) == start_y + inject_Z quote_height + 20)%Q /\
    (snd (op_xy op) == start_y + inject_Z (total_height - ah - 10))%Q /\
    forall (line0 : string) (rest : list string),
      text_lines = line0 :: rest -> env_has_textbbox env = true ->
      exists first,
        frame_ops f !! 1%nat = Some first /\
        op_text first = line0 /\
        let '(_, y0f, _, _) := env_textbbox env font_large line0 in
        let '(_, _, _, y1d) := env_textbbox env font_small ("- " +:+ author) in
        let top := ink_top env first in
        let bottom := ink_bottom env op in
        (top == start_y + inject_Z y0f)%Q /\
        (bottom == start_y + inject_Z (total_height - ah - 10 + y1d))%Q /\
        (bottom - top == inject_Z (total_height - 10 + (y1d - ah - y0f)))%Q /\
        ((top + bottom) / 2 == half WINDOW_HEIGHT - 5 + half (y0f + y1d - ah))%Q /\
        ((bottom - top == inject_Z (total_height - 10))%Q /\
         ((top + bottom) / 2 == half WINDOW_HEIGHT - 5)%Q
         <-> y0f = 0 /\ y1d = ah).

(** A frame composed from [text] and [author] is complete: it has the size
    of the window, and every wrapped line of the quote and the author line
    have been drawn on it, each with its shadow. *)
Definition complete_frame (env : environment) (text author : pyval) (f : frame) : Prop :=
  frame_width f = WINDOW_WIDTH /\ frame_height f = WINDOW_HEIGHT /\
  exists (quote name : string) (text_lines : list string),
    text = PyStr quote /\ author = PyStr name /\
    wrap (max_chars env) quote = inr text_lines /\
    length (frame_ops f) = (2 * length text_lines + 2)%nat.

Definition same_display (w w' : world) : Prop :=
  w_current_image w' = w_current_image w /\ w_canvas w' = w_canvas w.

(** What a method did to the world, the display apart: the log records and
    the requests it added. *)
Definition effects (w w' : world) (records : list (log_level * string))
    (requests : list (string * Z)) : Prop :=
  w_log w' = w_log w ++ records /\ w_requests w' = w_requests w ++ requests /\
  w_current_image w' = w_current_image w /\ w_canvas w' = w_canvas w.

(** The strings that the [draw.text] calls of a frame carry, in the order of
    the calls, when [text_lines] are the lines of the quote: each line twice
    (its shadow, then the line), then the author string twice. *)
Definition shown_texts (text_lines : list string) (author : string) : list string :=
  flat_map (fun line => [line; line]) text_lines ++ ["- " +:+ author; "- " +:+ author].

(** The cycle run in [w] shows the quote [text] by [author]: it makes current
    and adds to the canvas one frame, of the size of the window, on which
    the lines that [text] wraps to and the author line are drawn. *)
Definition cycle_shows (env : environment) (w : world) (text author : string) : Prop :=
  exists (f : frame) (text_lines : list string),
    wrap (max_chars env) text = inr text_lines /\
    w_current_image (snd (load_content env w)) = Some f /\
    w_canvas (snd (load_content env w)) = w_canvas w ++ [f] /\
    frame_width f = WINDOW_WIDTH /\ frame_height f = WINDOW_HEIGHT /\
    map op_text (frame_ops f) = shown_texts text_lines author.

(** Pillow can make the scaled image of [size] from [image_data]: the pixel
    data decodes, both sides fit a C int, and the memory is there. *)
Definition can_resize (env : environment) (image_data : list byte) (size : Z * Z) : Prop :=
  env_image_load env image_data = true /\
  fst size < 2 ^ 31 /\ snd size < 2 ^ 31 /\
  env_image_fits env (fst size) (snd size) = true.

(** [image_data] gets through lines 144-166: it opens as an image, which is
    then scaled and cropped. *)
Definition image_is_prepared (env : environment) (image_data : list byte) : Prop :=
  exists img out,
    Image_open env image_data = inr img /\ scale_and_crop env image_data img = inr out.

(** A text made of the characters of [textwrap._whitespace] only. *)
Definition blank (s : list ascii) : Prop := Forall (fun c => is_whitespace c = true) s.

(** The characters of a text that are not white space, in order. *)
Definition visible (s : list ascii) : list ascii := filter (fun a => isspace a = false) s.

(** ** The application object: [__init__] and the scheduler

    [DesktopApp] as the main loop sees it between two callbacks: the
    geometry last requested from the window manager, the flag
    [self.running], the delays of the pending
    [root.after(ms, self.trigger_update)] calls, and the worker threads that
    [trigger_update] has started and that have not run yet.  A worker runs
    [load_content]; it writes to the display only through the [update_ui]
    call that it hands to the main loop, which is taken with it as in
    [load_content], so that a worker is one step. *)

Record DesktopApp := App {
  app_geometry : string;
  app_running : bool;
  app_timers : list Z;
  app_threads : nat;
  app_world : world }.

(** Lines 39-42: [x_c] and [y_c]. *)
Definition window_origin (screen_width screen_height : Z) : Z * Z :=
  (py_int (half screen_width - half WINDOW_WIDTH)%Q,
   py_int (half screen_height - half WINDOW_HEIGHT)%Q).

(** Line 43: the f-string handed to [root.geometry]. *)
Definition geometry_string (x_c y_c : Z) : string :=
  str_of_int WINDOW_WIDTH +:+ "x" +:+ str_of_int WINDOW_HEIGHT
    +:+ "+" +:+ str_of_int x_c +:+ "+" +:+ str_of_int y_c.

(** Lines 58-60 *)
Definition schedule_next_update (a : DesktopApp) : DesktopApp :=
  if app_running a then
    App (app_geometry a) (app_running a) (app_timers a ++ [UPDATE_INTERVAL_MS])
        (app_threads a) (app_world a)
  else a.

(** Lines 62-65 *)
Definition trigger_update (a : DesktopApp) : DesktopApp :=
  schedule_next_update
    (App (app_geometry a) (app_running a) (app_timers a) (S (app_threads a)) (app_world a)).

(** Lines 32-56: [__init__] on a screen of the given size, in a fresh
    process; the first [load_content] runs in the calling thread. *)
Definition DesktopApp_init (env : environment) (screen_width screen_height : Z) : DesktopApp :=
  let '(x_c, y_c) := window_origin screen_width screen_height in
  let w := World [] [] None [] in
  schedule_next_update
    (App (geometry_string x_c y_c) true [] O (snd (load_content env w))).

(** A pending timer fires: the main loop takes it off and calls
    [trigger_update]. *)
Inductive tick : DesktopApp -> DesktopApp -> Prop :=
| tick_timer (a : DesktopApp) (before after : list Z) (ms : Z) :
    app_timers a = before ++ ms :: after ->
    tick a
      (trigger_update
         (App (app_geometry a) (app_running a) (before ++ after)
              (app_threads a) (app_world a))).

(** What happens next: a tick, or a started worker runs its [load_content].
    Each worker meets the environment as it is by then: the answers of the
    services, the random number and the rest may differ from one cycle to
    the next. *)
Inductive step : DesktopApp -> DesktopApp -> Prop :=
| step_tick (a a' : DesktopApp) :
    tick a a' -> step a a'
| step_worker (env : environment) (a : DesktopApp) (n : nat) :
    app_threads a = S n ->
    step a
      (App (app_geometry a) (app_running a) (app_timers a) n
           (snd (load_content env (app_world a)))).

(** The states the application can be in after [__init__] has run in [env]. *)
Definition reachable (env : environment) (screen_width screen_height : Z) (a : DesktopApp) : Prop :=
  rtc step (DesktopApp_init env screen_width screen_height) a.

Definition window_sized (f : frame) : Prop :=
  frame_width f = WINDOW_WIDTH /\ frame_height f = WINDOW_HEIGHT.

(** The image the canvas shows is its newest item, and every item has the
    size of the window. *)
Definition display_consistent (w : world) : Prop :=
  w_current_image w = last (w_canvas w) /\ Forall window_sized (w_canvas w).

Definition has_error (log : list (log_level * string)) : Prop :=
  exists msg, In (ERROR, msg) log.

(** ** Sample environments, used to run the model on concrete inputs *)

(** A box metric: an empty text has an empty bounding box, any other text is
    as high as the font and half as wide per character. *)
Definition font_px (f : option font) : Z :=
  match f with
  | Some (TrueTypeFont _ size) => size
  | _ => 10
  end.

Definition box_textbbox (f : option font) (txt : string) : Z * Z * Z * Z :=
  match txt with
  | EmptyString => (0, 0, 0, 0)
  | _ => (0, 0, font_px f / 2 * Z.of_nat (String.length txt), font_px f)
  end.

(** A metric with the offsets of an outline font: the box of a text starts
    below the origin of the text (at 7 of 42 rows in a font of 36, at 5 of
    23 rows in a font of 24). *)
Definition offset_textbbox (f : option font) (txt : string) : Z * Z * Z * Z :=
  match txt with
  | EmptyString => (0, 0, 0, 0)
  | _ =>
    match f with
    | Some (TrueTypeFont _ 36) => (0, 7, 20 * Z.of_nat (String.length txt), 42)
    | Some (TrueTypeFont _ _) => (0, 5, 13 * Z.of_nat (String.length txt), 23)
    | _ => (0, 2, 6 * Z.of_nat (String.length txt), 11)
    end
  end.

Definition one_pixel_png : list byte := [x89; x50; x4e; x47].

(** The quote service answers [body] with [status]; both image services
    answer 200 with [one_pixel_png]; images decode to 1920x1080; only the
    DejaVu font is installed; floats are binary64. *)
Definition sample_env (status : Z) (body : option pyval) : environment := {|
  env_get := fun url _ =>
    if String.eqb url QUOTE_API_URL then Some (Response status [] body)
    else Some (Response 200 one_pixel_png None);
  env_randint := fun a _ => a;
  env_image_open := fun data => match data with [] => None | _ => Some (1920, 1080) end;
  env_image_load := fun _ => true;
  env_image_fits := fun w h => w * h <=? 2 ^ 28;
  env_font_loads := fun path _ =>
    String.eqb path "/usr/share/fonts/truetype/dejavu/DejaVuSans-Bold.ttf";
  env_has_textbbox := true;
  env_textbbox := box_textbbox;
  env_textsize := fun _ _ => (0, 0);
  env_fl := binary64 |}.

Definition sample_quote : pyval :=
  PyDict (<["quote" := PyStr "Life is what happens when you are busy making other plans."]>
          (<["author" := PyStr "John Lennon"]> (<["id" := PyInt 7]> ∅))).

(** No network at all: every request raises. *)
Definition offline_env : environment := {|
  env_get := fun _ _ => None;
  env_randint := fun a _ => a;
  env_image_open := fun _ => None;
  env_image_load := fun _ => true;
  env_image_fits := fun w h => w * h <=? 2 ^ 28;
  env_font_loads := fun _ _ => false;
  env_has_textbbox := true;
  env_textbbox := box_textbbox;
  env_textsize := fun _ _ => (0, 0);
  env_fl := binary64 |}.

(** The keyworded image service times out, everything else works. *)
Definition primary_down_env : environment := {|
  env_get := fun url _ =>
    if String.prefix "https://loremflickr.com/" url then None
    else Some (Response 200 one_pixel_png None);
  env_randint := fun a _ => a;
  env_image_open := fun data => match data with [] => None | _ => Some (1920, 1080) end;
  env_image_load := fun _ => true;
  env_image_fits := fun w h => w * h <=? 2 ^ 28;
  env_font_loads := fun _ _ => false;
  env_has_textbbox := true;
  env_textbbox := box_textbbox;
  env_textsize := fun _ _ => (0, 0);
  env_fl := binary64 |}.

(** The keyworded image service answers 503, the other one 200. *)
Definition primary_503_env : environment := {|
  env_get := fun url _ =>
    if String.prefix "https://loremflickr.com/" url then Some (Response 503 [] None)
    else Some (Response 200 one_pixel_png None);
  env_randint := fun a _ => a;
  env_image_open := fun data => match data with [] => None | _ => Some (1920, 1080) end;
  env_image_load := fun _ => true;
  env_image_fits := fun w h => w * h <=? 2 ^ 28;
  env_font_loads := fun _ _ => false;
  env_has_textbbox := true;
  env_textbbox := box_textbbox;
  env_textsize := fun _ _ => (0, 0);
  env_fl := binary64 |}.

(** Both services answer, but the bytes received are no image. *)
Definition bad_image_env : environment := {|
  env_get := fun url _ =>
    if String.eqb url QUOTE_API_URL then Some (Response 200 [] (Some sample_quote))
    else Some (Response 200 [x3c; x68; x74; x6d; x6c; x3e] None);
  env_randint := fun a _ => a;
  env_image_open := fun _ => None;
  env_image_load := fun _ => true;
  env_image_fits := fun w h => w * h <=? 2 ^ 28;
  env_font_loads := fun _ _ => false;
  env_has_textbbox := true;
  env_textbbox := box_textbbox;
  env_textsize := fun _ _ => (0, 0);
  env_fl := binary64 |}.

(** As [sample_env], with the metric [offset_textbbox]. *)
Definition offset_env : environment := {|
  env_get := fun url _ =>
    if String.eqb url QUOTE_API_URL then Some (Response 200 [] (Some sample_quote))
    else Some (Response 200 one_pixel_png None);
  env_randint := fun a _ => a;
  env_image_open := fun data => match data with [] => None | _ => Some (1920, 1080) end;
  env_image_load := fun _ => true;
  env_image_fits := fun w h => w * h <=? 2 ^ 28;
  env_font_loads := fun path _ =>
    String.eqb path "/usr/share/fonts/truetype/dejavu/DejaVuSans-Bold.ttf";
  env_has_textbbox := true;
  env_textbbox := offset_textbbox;
  env_textsize := fun _ _ => (0, 0);
  env_fl := binary64 |}.

(** Images decode to a strip of 4000000 x 1 pixels; memory is no limit. *)
Definition panorama_env : environment := {|
  env_get := fun url _ =>
    if String.eqb url QUOTE_API_URL then Some (Response 200 [] (Some sample_quote))
    else Some (Response 200 one_pixel_png None);
  env_randint := fun a _ => a;
  env_image_open := fun data => match data with [] => None | _ => Some (4000000, 1) end;
  env_image_load := fun _ => true;
  env_image_fits := fun _ _ => true;
  env_font_loads := fun _ _ => false;
  env_has_textbbox := true;
  env_textbbox := box_textbbox;
  env_textsize := fun _ _ => (0, 0);
  env_fl := binary64 |}.

(** The image services answer 200 with an empty body. *)
Definition empty_body_env : environment := {|
  env_get := fun url _ =>
    if String.eqb url QUOTE_API_URL then Some (Response 200 [] (Some sample_quote))
    else Some (Response 200 [] None);
  env_randint := fun a _ => a;
  env_image_open := fun data => match data with [] => None | _ => Some (1920, 1080) end;
  env_image_load := fun _ => true;
  env_image_fits := fun w h => w * h <=? 2 ^ 28;
  env_font_loads := fun _ _ => false;
  env_has_textbbox := true;
  env_textbbox := box_textbbox;
  env_textsize := fun _ _ => (0, 0);
  env_fl := binary64 |}.

Definition empty_world : world := World [] [] None [].

(** A word of 45 letters, one more than fits a line. *)
Definition long_word : string := "aaaaaaaaaaaaaaaaaaaaaaaaaaaaaaaaaaaaaaaaaaaaa".

Definition sample_frame (text author : string) : frame :=
  match fst (process_image (sample_env 200 None) one_pixel_png (PyStr text) (PyStr author)
               empty_world) with
  | inr (Some f) => f
  | _ => PhotoImage 0 0 []
  end.

(* ========================================================================= *)
(** * Properties *)

(** ** The model on concrete inputs *)

Example loremflickr_url_sample :
  loremflickr_url SEARCH_KEYWORD 1 = "https://loremflickr.com/900/600/nature?lock=1".
Proof. reflexivity. Qed.

Example picsum_url_sample :
  picsum_url 1 = "https://picsum.photos/900/600?blur=1&random=1".
Proof. reflexivity. Qed.

Example fetch_quote_object :
  fst (fetch_quote (sample_env 200 (Some sample_quote)) empty_world)
  = inr (PyStr "Life is what happens when you are busy making other plans.",
         PyStr "John Lennon").
Proof. vm_compute. reflexivity. Qed.

Example fetch_quote_list :
  fst (fetch_quote (sample_env 200 (Some (PyList [sample_quote; PyNone]))) empty_world)
  = inr (PyStr "Life is what happens when you are busy making other plans.",
         PyStr "John Lennon").
Proof. vm_compute. reflexivity. Qed.

Example fetch_quote_content_key :
  fst (fetch_quote (sample_env 200 (Some (PyDict (<["content" := PyStr "Carpe diem"]> ∅))))
         empty_world)
  = inr (PyStr "Carpe diem", PyStr "Unknown").
Proof. vm_compute. reflexivity. Qed.

Example fetch_quote_no_field :
  fst (fetch_quote (sample_env 200 (Some (PyDict ∅))) empty_world)
  = inr (PyStr "Inspiration allows us to do great things.", PyStr "Unknown").
Proof. vm_compute. reflexivity. Qed.

Example fetch_quote_not_an_object :
  fst (fetch_quote (sample_env 200 (Some (PyStr "Carpe diem"))) empty_world)
  = inr OFFLINE_QUOTE.
Proof. vm_compute. reflexivity. Qed.

Example binary64_third :
  Qred (binary64 (1 # 3)) = (6004799503160661 # 18014398509481984)%Q.
Proof. vm_compute. reflexivity. Qed.

Example py_round_halves :
  map py_round [1 # 2; 3 # 2; 5 # 2; -1 # 2; -3 # 2; 7 # 4]%Q = [0; 2; 2; 0; -2; 2].
Proof. vm_compute. reflexivity. Qed.

Example py_int_truncates : map py_int [7 # 2; -7 # 2; 44 # 1]%Q = [3; -3; 44].
Proof. vm_compute. reflexivity. Qed.

Example cover_size_landscape :
  cover_size (sample_env 200 None) (Image 1920 1080 []) = inr (1066, 600).
Proof. vm_compute. reflexivity. Qed.

Example cover_size_portrait :
  cover_size (sample_env 200 None) (Image 1080 1920 []) = inr (900, 1600).
Proof. vm_compute. reflexivity. Qed.

Example cover_size_no_height :
  cover_size (sample_env 200 None) (Image 1080 0 []) = inl ZeroDivisionError.
Proof. vm_compute. reflexivity. Qed.

Example max_chars_sample : max_chars (sample_env 200 None) = 44.
Proof. vm_compute. reflexivity. Qed.

Example wrap_sample :
  wrap 44 "Life is what happens when you are busy making other plans."
  = inr ["Life is what happens when you are busy"; "making other plans."].
Proof. vm_compute. reflexivity. Qed.

Example _split_chunks_sample :
  map string_of_list_ascii
    (_split_chunks (list_ascii_of_string
       ("A well-known  half-truth -- or so" +:+ String "009" "they say")))
  = ["A"; " "; "well-"; "known"; "  "; "half-"; "truth"; " "; "--"; " "; "or"; " "; "so";
     "       "; "they"; " "; "say"].
Proof. vm_compute. reflexivity. Qed.

Example wrap_hyphenated :
  wrap 12 ("A well-known  half-truth -- or so" +:+ String "009" "they say")
  = inr ["A well-known"; "half-truth"; "-- or so"; "they say"].
Proof. vm_compute. reflexivity. Qed.

Example wrap_blank : wrap 44 "   " = inr [].
Proof. vm_compute. reflexivity. Qed.

Example sample_frame_drawn :
  map (fun op => (Qred (fst (op_xy op)), Qred (snd (op_xy op)), op_text op))
      (frame_ops (sample_frame "Carpe diem" "Horace"))
  = [(362 # 1, 252 # 1, "Carpe diem"); (360 # 1, 250 # 1, "Carpe diem");
     (403 # 1, 317 # 1, "- Horace"); (402 # 1, 316 # 1, "- Horace")]%Q.
Proof. vm_compute. reflexivity. Qed.

Example load_content_shows_frame :
  w_current_image (snd (load_content (sample_env 200 (Some sample_quote)) empty_world))
  = Some (sample_frame "Life is what happens when you are busy making other plans."
            "John Lennon").
Proof. vm_compute. reflexivity. Qed.

(** ** Python numbers *)

Lemma Qltb_lt (x y : Q) : Qltb x y = true <-> (x < y)%Q.
Proof. unfold Qltb, Qlt. apply Z.ltb_lt. Qed.

Lemma Qltb_ge (x y : Q) : Qltb x y = false <-> (y <= x)%Q.
Proof. unfold Qltb, Qle. apply Z.ltb_ge. Qed.

Lemma Qltb_comp (x x' y y' : Q) : (x == x')%Q -> (y == y')%Q -> Qltb x y = Qltb x' y'.
Proof.
  intros Hx Hy. destruct (Qltb x' y') eqn:E.
  - apply Qltb_lt. apply Qltb_lt in E. by rewrite Hx, Hy.
  - apply Qltb_ge. apply Qltb_ge in E. by rewrite Hx, Hy.
Qed.

Lemma py_int_floor (x : Q) : (0 <= x)%Q -> py_int x = Qfloor x.
Proof.
  destruct x as [n d]. unfold py_int, Qfloor, Qle. cbn. intros H.
  apply Z.quot_div_nonneg; lia.
Qed.

Lemma py_int_ge (x : Q) (n : Z) : 0 <= n -> (inject_Z n <= x)%Q -> n <= py_int x.
Proof.
  intros Hn Hx. rewrite py_int_floor.
  - rewrite <- (Qfloor_Z n). by apply Qfloor_resp_le.
  - apply Qle_trans with (inject_Z n); [|done]. unfold Qle. cbn. lia.
Qed.

Lemma Qfloor_add_Z (x : Q) (k : Z) : Qfloor (x + inject_Z k) = Qfloor x + k.
Proof.
  destruct x as [n d]. unfold Qfloor, Qplus, inject_Z. cbn.
  rewrite Z.mul_1_r, Pos.mul_1_r. rewrite Z.div_add; lia.
Qed.

Lemma py_round_comp (x y : Q) : (x == y)%Q -> py_round x = py_round y.
Proof.
  intros H. unfold py_round. rewrite (Qfloor_comp _ _ H).
  rewrite (Qltb_comp (x - inject_Z (Qfloor y)) (y - inject_Z (Qfloor y)) (1#2) (1#2)); [|by rewrite H|done].
  rewrite (Qltb_comp (1#2) (1#2) (x - inject_Z (Qfloor y)) (y - inject_Z (Qfloor y))); [|done|by rewrite H].
  reflexivity.
Qed.

Lemma py_round_add_even (x : Q) (k : Z) :
  Z.even k = true -> py_round (x + inject_Z k) = py_round x + k.
Proof.
  intros Hk. unfold py_round. rewrite Qfloor_add_Z.
  assert (E : (x + inject_Z k - inject_Z (Qfloor x + k) == x - inject_Z (Qfloor x))%Q).
  { rewrite inject_Z_plus. ring. }
  rewrite (Qltb_comp _ (x - inject_Z (Qfloor x)) (1#2) (1#2) E); [|done].
  rewrite (Qltb_comp (1#2) (1#2) _ (x - inject_Z (Qfloor x))); [|done|exact E].
  rewrite Z.even_add, Hk.
  destruct (Qltb _ _); [lia|]. destruct (Qltb _ _); [lia|].
  destruct (Z.even (Qfloor x)); cbn; lia.
Qed.

Lemma half_add (n k : Z) : (half (n + 2 * k) == half n + inject_Z k)%Q.
Proof. unfold half. rewrite inject_Z_plus, inject_Z_mult. field. Qed.

Lemma crop_size (img : image) (nw nh : Z) :
  exists out, crop img (crop_box nw nh) = inr out /\
              width out = WINDOW_WIDTH /\ height out = WINDOW_HEIGHT /\ drawn out = drawn img.
Proof.
  unfold crop, crop_box.
  assert (Hr : (half (nw + WINDOW_WIDTH) == half (nw - WINDOW_WIDTH) + inject_Z 900)%Q).
  { replace (nw + WINDOW_WIDTH) with (nw - WINDOW_WIDTH + 2 * 900) by (unfold WINDOW_WIDTH; lia).
    rewrite half_add. reflexivity. }
  assert (Hb : (half (nh + WINDOW_HEIGHT) == half (nh - WINDOW_HEIGHT) + inject_Z 600)%Q).
  { replace (nh + WINDOW_HEIGHT) with (nh - WINDOW_HEIGHT + 2 * 600) by (unfold WINDOW_HEIGHT; lia).
    rewrite half_add. reflexivity. }
  assert (E1 : Qltb (half (nw + WINDOW_WIDTH)) (half (nw - WINDOW_WIDTH)) = false).
  { apply Qltb_ge. rewrite Hr. change (inject_Z 900) with (900#1)%Q. lra. }
  assert (E2 : Qltb (half (nh + WINDOW_HEIGHT)) (half (nh - WINDOW_HEIGHT)) = false).
  { apply Qltb_ge. rewrite Hb. change (inject_Z 600) with (600#1)%Q. lra. }
  rewrite E1, E2. cbn [orb]. eexists. split; [reflexivity|]. cbn [width height drawn].
  rewrite (py_round_comp _ _ Hr), (py_round_comp _ _ Hb).
  rewrite !py_round_add_even by reflexivity.
  unfold WINDOW_WIDTH, WINDOW_HEIGHT. repeat split; lia.
Qed.

Lemma Zdiv_Qle (a b c d : Z) :
  0 < b -> 0 < d -> a * d <= c * b ->
  (inject_Z a / inject_Z b <= inject_Z c / inject_Z d)%Q.
Proof.
  intros Hb Hd H.
  destruct b as [|b|b]; try lia. destruct d as [|d|d]; try lia.
  unfold Qle, Qdiv, Qmult, Qinv, inject_Z. cbn. lia.
Qed.

Lemma Zdiv_Qlt (a b c d : Z) :
  0 < b -> 0 < d -> a * d < c * b ->
  (inject_Z a / inject_Z b < inject_Z c / inject_Z d)%Q.
Proof.
  intros Hb Hd H.
  destruct b as [|b|b]; try lia. destruct d as [|d|d]; try lia.
  unfold Qlt, Qdiv, Qmult, Qinv, inject_Z. cbn. lia.
Qed.

Lemma Qdiv_1 (a : Z) : (inject_Z a / inject_Z 1 == inject_Z a)%Q.
Proof. unfold Qeq, Qdiv, Qmult, Qinv, inject_Z. cbn. lia. Qed.

Section Rounding.
Variable fl : Q -> Q.
Hypothesis Hfl : binary64_rounding fl.

Lemma fl_comp (x y : Q) : (x == y)%Q -> (fl x == fl y)%Q.
Proof.
  intros H. apply Qle_antisym; apply (fl_monotone fl Hfl); rewrite H; apply Qle_refl.
Qed.

Lemma fl_dyadic (m : Z) (k : nat) :
  Z.abs m <= 2 ^ 53 ->
  (fl (inject_Z m / inject_Z (2 ^ Z.of_nat k)) == inject_Z m / inject_Z (2 ^ Z.of_nat k))%Q.
Proof. apply (fl_exact fl Hfl). Qed.

Lemma fl_integer (n : Z) : Z.abs n <= 2 ^ 53 -> (fl (inject_Z n) == inject_Z n)%Q.
Proof.
  intros H. pose proof (fl_dyadic n 0 H) as E. change (2 ^ Z.of_nat 0) with 1 in E.
  transitivity (fl (inject_Z n / inject_Z 1)).
  - apply fl_comp. symmetry. apply Qdiv_1.
  - etransitivity; [exact E | apply Qdiv_1].
Qed.

Lemma fl_ge_dyadic (x : Q) (m : Z) (k : nat) :
  Z.abs m <= 2 ^ 53 ->
  (inject_Z m / inject_Z (2 ^ Z.of_nat k) <= x)%Q ->
  (inject_Z m / inject_Z (2 ^ Z.of_nat k) <= fl x)%Q.
Proof.
  intros Hm Hx. eapply Qle_trans; [|apply (fl_monotone fl Hfl), Hx].
  apply Qle_lteq. right. symmetry. by apply fl_dyadic.
Qed.

Lemma fl_le_dyadic (x : Q) (m : Z) (k : nat) :
  Z.abs m <= 2 ^ 53 ->
  (x <= inject_Z m / inject_Z (2 ^ Z.of_nat k))%Q ->
  (fl x <= inject_Z m / inject_Z (2 ^ Z.of_nat k))%Q.
Proof.
  intros Hm Hx. eapply Qle_trans; [apply (fl_monotone fl Hfl), Hx|].
  apply Qle_lteq. right. by apply fl_dyadic.
Qed.

Lemma fl_ge_integer (x : Q) (n : Z) :
  Z.abs n <= 2 ^ 53 -> (inject_Z n <= x)%Q -> (inject_Z n <= fl x)%Q.
Proof.
  intros Hn Hx. eapply Qle_trans; [|apply (fl_monotone fl Hfl), Hx].
  apply Qle_lteq. right. symmetry. by apply fl_integer.
Qed.

(** The rounded aspect ratio of a [w] x [h] image, both below 2^31. *)
Lemma ratio_wide (w h : Z) :
  0 < w < 2 ^ 31 -> 0 < h < 2 ^ 31 -> 3 * h < 2 * w ->
  (inject_Z (3 * 2 ^ 31 + 1) / inject_Z (2 ^ 32) <= fl (inject_Z w / inject_Z h))%Q.
Proof.
  intros Hw Hh H.
  apply (fl_ge_dyadic _ (3 * 2 ^ 31 + 1) 32); [lia|].
  apply Zdiv_Qle; lia.
Qed.

Lemma ratio_tall (w h : Z) :
  0 < w < 2 ^ 31 -> 0 < h < 2 ^ 31 -> 2 * w <= 3 * h ->
  (fl (inject_Z w / inject_Z h) <= inject_Z 3 / inject_Z 2)%Q.
Proof.
  intros Hw Hh H.
  apply (fl_le_dyadic _ 3 1); [lia|].
  apply Zdiv_Qle; lia.
Qed.

Lemma ratio_positive (w h : Z) :
  0 < w < 2 ^ 31 -> 0 < h < 2 ^ 31 ->
  (inject_Z 1 / inject_Z (2 ^ 31) <= fl (inject_Z w / inject_Z h))%Q.
Proof.
  intros Hw Hh.
  apply (fl_ge_dyadic _ 1 31); [lia|].
  apply Zdiv_Qle; lia.
Qed.
End Rounding.

Lemma cover_size_covers (env : environment) (img : image) :
  binary64_rounding (env_fl env) ->
  0 < width img < 2 ^ 31 -> 0 < height img < 2 ^ 31 ->
  exists new_width new_height,
    cover_size env img = inr (new_width, new_height) /\
    (if WINDOW_WIDTH * height img <? WINDOW_HEIGHT * width img
     then new_height = WINDOW_HEIGHT else new_width = WINDOW_WIDTH) /\
    WINDOW_WIDTH <= new_width /\ WINDOW_HEIGHT <= new_height.
Proof.
  intros Hfl Hw Hh. unfold cover_size, int_truediv.
  destruct (height img =? 0) eqn:E0; [apply Z.eqb_eq in E0; lia|].
  set (r := env_fl env (inject_Z (width img) / inject_Z (height img))).
  assert (Hpos : (inject_Z 1 / inject_Z (2 ^ 31) <= r)%Q) by (by apply ratio_positive).
  unfold WINDOW_WIDTH, WINDOW_HEIGHT.
  destruct (900 * height img <? 600 * width img) eqn:E.
  - apply Z.ltb_lt in E.
    assert (Hr : (inject_Z (3 * 2 ^ 31 + 1) / inject_Z (2 ^ 32) <= r)%Q)
      by (apply ratio_wide; [done..|lia]).
    assert (Hlt : Qltb (inject_Z 900 / inject_Z 600) r = true).
    { apply Qltb_lt. eapply Qlt_le_trans; [|exact Hr]. apply Zdiv_Qlt; lia. }
    rewrite Hlt. eexists _, _. split; [reflexivity|]. split; [reflexivity|].
    split; [|lia].
    apply py_int_ge; [lia|]. unfold float_mul.
    apply fl_ge_integer; [done|lia|].
    apply Qltb_lt in Hlt.
    assert (H32 : (inject_Z 900 / inject_Z 600 == 3 # 2)%Q) by reflexivity.
    rewrite H32 in Hlt. change (inject_Z 900) with (900 # 1)%Q.
    change (inject_Z 600) with (600 # 1)%Q. lra.
  - apply Z.ltb_ge in E.
    assert (Hr : (r <= inject_Z 3 / inject_Z 2)%Q) by (apply ratio_tall; [done..|lia]).
    assert (Hlt : Qltb (inject_Z 900 / inject_Z 600) r = false).
    { apply Qltb_ge. eapply Qle_trans; [exact Hr|]. apply Zdiv_Qle; lia. }
    rewrite Hlt. unfold float_truediv.
    assert (Hr0 : (0 < r)%Q).
    { eapply Qlt_le_trans; [|exact Hpos]. reflexivity. }
    destruct (Qeq_bool r 0) eqn:Ez.
    { apply Qeq_bool_eq in Ez. rewrite Ez in Hr0. by apply Qlt_irrefl in Hr0. }
    eexists _, _. split; [reflexivity|]. split; [reflexivity|].
    split; [lia|].
    apply py_int_ge; [lia|].
    apply fl_ge_integer; [done|lia|].
    apply Qle_shift_div_l; [done|].
    assert (H32 : (inject_Z 3 / inject_Z 2 == 3 # 2)%Q) by reflexivity.
    rewrite H32 in Hr. change (inject_Z 900) with (900 # 1)%Q.
    change (inject_Z 600) with (600 # 1)%Q. lra.
Qed.

(** ** Rounding to 53 bits *)

Lemma two_power_pos (e : Z) : (0 < 2 ^ e)%Q.
Proof. by apply Qpower_0_lt. Qed.

Lemma two_power_plus (a b : Z) : (2 ^ (a + b) == 2 ^ a * 2 ^ b)%Q.
Proof. by apply Qpower_plus. Qed.

Lemma two_power_inject (n : Z) : 0 <= n -> (inject_Z (2 ^ n) == 2 ^ n)%Q.
Proof. intros H. by rewrite Zpower_Qpower. Qed.

Lemma two_power_le (a b : Z) : a <= b -> (2 ^ a <= 2 ^ b)%Q.
Proof. intros H. by apply Qpower_le_compat_l. Qed.

Lemma two_power_lt (a b : Z) : a < b -> (2 ^ a < 2 ^ b)%Q.
Proof. intros H. by apply Qpower_lt_compat_l. Qed.

Lemma Q_as_quotient (x : Q) : (x == inject_Z (Qnum x) / inject_Z (QDen x))%Q.
Proof. destruct x as [n d]. cbn. by rewrite Qmake_Qdiv. Qed.

(** [Qlog2 x] is the exponent of the binade of [x]. *)
Lemma Qlog2_spec (x : Q) :
  (0 < x)%Q -> (2 ^ Qlog2 x <= x)%Q /\ (x < 2 ^ (Qlog2 x + 1))%Q.
Proof.
  intros Hx. unfold Qlog2.
  set (n := Qnum x). set (d := QDen x).
  assert (Hn : 0 < n) by (destruct x as [xn xd]; unfold Qlt in Hx; cbn in *; lia).
  assert (Hd : 0 < d) by (subst d; lia).
  set (a := Z.log2 n). set (b := Z.log2 d).
  assert (Ha : 2 ^ a <= n < 2 ^ (a + 1)) by apply (Z.log2_spec n Hn).
  assert (Hb : 2 ^ b <= d < 2 ^ (b + 1)) by apply (Z.log2_spec d Hd).
  assert (Ha0 : 0 <= a) by apply Z.log2_nonneg.
  assert (Hb0 : 0 <= b) by apply Z.log2_nonneg.
  assert (Hxq : (x == inject_Z n / inject_Z d)%Q) by apply Q_as_quotient.
  assert (Hdq : (0 < inject_Z d)%Q) by (rewrite <- (Zlt_Qlt 0); lia).
  assert (Hnl : (2 ^ a <= inject_Z n)%Q)
    by (rewrite <- two_power_inject, <- Zle_Qle by lia; lia).
  assert (Hnu : (inject_Z n < 2 ^ (a + 1))%Q)
    by (rewrite <- two_power_inject, <- Zlt_Qlt by lia; lia).
  assert (Hdl : (2 ^ b <= inject_Z d)%Q)
    by (rewrite <- two_power_inject, <- Zle_Qle by lia; lia).
  assert (Hdu : (inject_Z d < 2 ^ (b + 1))%Q)
    by (rewrite <- two_power_inject, <- Zlt_Qlt by lia; lia).
  clearbody a b n d.
  (* 2^(a-b-1) < x < 2^(a-b+1) *)
  assert (Hlo : (2 ^ (a - b - 1) < x)%Q).
  { rewrite Hxq. apply Qlt_shift_div_l; [done|].
    apply Qlt_le_trans with (2 ^ (a - b - 1) * 2 ^ (b + 1))%Q.
    - apply Qmult_lt_l; [apply two_power_pos|done].
    - rewrite <- two_power_plus. by replace (a - b - 1 + (b + 1)) with a by lia. }
  assert (Hhi : (x < 2 ^ (a - b + 1))%Q).
  { rewrite Hxq. apply Qlt_shift_div_r; [done|].
    apply Qlt_le_trans with (2 ^ (a + 1))%Q; [done|].
    replace (a + 1) with ((a - b + 1) + b) by lia. rewrite two_power_plus.
    apply Qmult_le_l; [apply two_power_pos|done]. }
  destruct (Qle_bool (2 ^ (a - b)) x) eqn:E.
  - apply Qle_bool_iff in E. split; [done|done].
  - assert (Hlt : (x < 2 ^ (a - b))%Q).
    { apply Qnot_le_lt. intros H. apply Qle_bool_iff in H. congruence. }
    split; [by apply Qlt_le_weak|]. by replace (a - b - 1 + 1) with (a - b) by lia.
Qed.

Lemma Qlog2_unique (x : Q) (e : Z) :
  (2 ^ e <= x)%Q -> (x < 2 ^ (e + 1))%Q -> Qlog2 x = e.
Proof.
  intros H1 H2.
  assert (Hx : (0 < x)%Q) by (eapply Qlt_le_trans; [apply (two_power_pos e)|done]).
  destruct (Qlog2_spec x Hx) as [H3 H4].
  assert (e < Qlog2 x + 1).
  { apply (Qpower_lt_compat_l_inv 2); [|done]. eapply Qle_lt_trans; done. }
  assert (Qlog2 x < e + 1).
  { apply (Qpower_lt_compat_l_inv 2); [|done]. eapply Qle_lt_trans; done. }
  lia.
Qed.

Lemma Qlog2_monotone (x y : Q) : (0 < x)%Q -> (x <= y)%Q -> Qlog2 x <= Qlog2 y.
Proof.
  intros Hx Hxy.
  assert (Hy : (0 < y)%Q) by (eapply Qlt_le_trans; done).
  destruct (Qlog2_spec x Hx) as [H1 _]. destruct (Qlog2_spec y Hy) as [_ H2].
  assert (Qlog2 x < Qlog2 y + 1); [|lia].
  apply (Qpower_lt_compat_l_inv 2); [|done].
  eapply Qle_lt_trans; [exact H1|]. eapply Qle_lt_trans; done.
Qed.

Lemma Qlog2_comp (x y : Q) : (0 < x)%Q -> (x == y)%Q -> Qlog2 x = Qlog2 y.
Proof.
  intros Hx E. assert (Hy : (0 < y)%Q) by (by rewrite <- E).
  apply Z.le_antisymm; apply Qlog2_monotone; try done; rewrite E; apply Qle_refl.
Qed.

(** [round] on floats is monotone and fixes the integers. *)
Lemma py_round_integer (n : Z) : py_round (inject_Z n) = n.
Proof.
  unfold py_round. rewrite Qfloor_Z.
  assert (E : Qltb (inject_Z n - inject_Z n) (1 # 2) = true).
  { apply Qltb_lt. ring_simplify (inject_Z n - inject_Z n)%Q. done. }
  by rewrite E.
Qed.

Lemma py_round_range (x : Q) : Qfloor x <= py_round x <= Qfloor x + 1.
Proof.
  unfold py_round. destruct (Qltb _ _); [lia|]. destruct (Qltb _ _); [lia|].
  destruct (Z.even _); lia.
Qed.

Lemma py_round_monotone (x y : Q) : (x <= y)%Q -> py_round x <= py_round y.
Proof.
  intros Hxy. pose proof (Qfloor_resp_le x y Hxy) as Hf.
  pose proof (py_round_range x). pose proof (py_round_range y).
  destruct (Z.eq_dec (Qfloor x) (Qfloor y)) as [E|E]; [|lia].
  unfold py_round. rewrite <- E.
  set (f := Qfloor x).
  destruct (Qltb (x - inject_Z f) (1 # 2)) eqn:Ex1.
  { destruct (Qltb (y - inject_Z f) (1 # 2)); [lia|].
    destruct (Qltb (1 # 2) (y - inject_Z f)); [lia|]. destruct (Z.even f); lia. }
  apply Qltb_ge in Ex1.
  assert (Ey1 : Qltb (y - inject_Z f) (1 # 2) = false).
  { apply Qltb_ge. eapply Qle_trans; [exact Ex1|]. lra. }
  rewrite Ey1.
  destruct (Qltb (1 # 2) (x - inject_Z f)) eqn:Ex2.
  { apply Qltb_lt in Ex2.
    assert (Ey2 : Qltb (1 # 2) (y - inject_Z f) = true) by (apply Qltb_lt; lra).
    rewrite Ey2. lia. }
  destruct (Qltb (1 # 2) (y - inject_Z f)); destruct (Z.even f); lia.
Qed.

(** The scaled significand lies in [2^52, 2^53). *)
Lemma significand_range (x : Q) :
  (0 < x)%Q ->
  let e := Qlog2 x - 52 in
  (inject_Z (2 ^ 52) <= x / 2 ^ e)%Q /\ (x / 2 ^ e < inject_Z (2 ^ 53))%Q.
Proof.
  intros Hx e. destruct (Qlog2_spec x Hx) as [H1 H2].
  rewrite !two_power_inject by lia. split.
  - apply Qle_shift_div_l; [apply two_power_pos|].
    rewrite <- two_power_plus. by replace (52 + e) with (Qlog2 x) by (subst e; lia).
  - apply Qlt_shift_div_r; [apply two_power_pos|].
    rewrite <- two_power_plus. by replace (53 + e) with (Qlog2 x + 1) by (subst e; lia).
Qed.

Lemma rounded_significand_range (x : Q) :
  (0 < x)%Q ->
  2 ^ 52 <= py_round (x / 2 ^ (Qlog2 x - 52)) <= 2 ^ 53.
Proof.
  intros Hx. destruct (significand_range x Hx) as [H1 H2]. cbv zeta in *. split.
  - rewrite <- (py_round_integer (2 ^ 52)). by apply py_round_monotone.
  - rewrite <- (py_round_integer (2 ^ 53)). apply py_round_monotone. by apply Qlt_le_weak.
Qed.

Lemma round_53_range (x : Q) :
  (0 < x)%Q ->
  (2 ^ Qlog2 x <= round_53 x)%Q /\ (round_53 x <= 2 ^ (Qlog2 x + 1))%Q.
Proof.
  intros Hx. unfold round_53.
  destruct (rounded_significand_range x Hx) as [H1 H2].
  set (e := Qlog2 x - 52) in *. set (m := py_round (x / 2 ^ e)) in *.
  replace (Qlog2 x) with (52 + e) by (subst e; lia).
  replace (52 + e + 1) with (53 + e) by lia.
  rewrite !two_power_plus.
  split; (apply Qmult_le_compat_r; [|apply Qlt_le_weak, two_power_pos]).
  - rewrite <- (two_power_inject 52), <- Zle_Qle by lia. lia.
  - rewrite <- (two_power_inject 53), <- Zle_Qle by lia. lia.
Qed.

Lemma round_53_pos (x : Q) : (0 < x)%Q -> (0 < round_53 x)%Q.
Proof.
  intros Hx. destruct (round_53_range x Hx) as [H _].
  eapply Qlt_le_trans; [apply (two_power_pos (Qlog2 x))|exact H].
Qed.

Lemma round_53_monotone (x y : Q) :
  (0 < x)%Q -> (x <= y)%Q -> (round_53 x <= round_53 y)%Q.
Proof.
  intros Hx Hxy.
  assert (Hy : (0 < y)%Q) by (eapply Qlt_le_trans; done).
  pose proof (Qlog2_monotone x y Hx Hxy) as He.
  destruct (Z.eq_dec (Qlog2 x) (Qlog2 y)) as [E|E].
  - unfold round_53. rewrite E. set (e := Qlog2 y - 52).
    apply Qmult_le_compat_r; [|apply Qlt_le_weak, two_power_pos].
    rewrite <- Zle_Qle. apply py_round_monotone.
    apply Qmult_le_compat_r; [done|]. apply Qlt_le_weak, Qinv_lt_0_compat, two_power_pos.
  - destruct (round_53_range x Hx) as [_ H1]. destruct (round_53_range y Hy) as [H2 _].
    eapply Qle_trans; [exact H1|]. eapply Qle_trans; [|exact H2].
    apply two_power_le. lia.
Qed.

Lemma round_53_comp (x y : Q) : (0 < x)%Q -> (x == y)%Q -> (round_53 x == round_53 y)%Q.
Proof.
  intros Hx E. assert (Hy : (0 < y)%Q) by (by rewrite <- E).
  apply Qle_antisym; apply round_53_monotone; try done; rewrite E; apply Qle_refl.
Qed.

Lemma Qcompare_0_cases (x : Q) :
  ((x ?= 0)%Q = Eq /\ (x == 0)%Q) \/ ((x ?= 0)%Q = Gt /\ (0 < x)%Q) \/
  ((x ?= 0)%Q = Lt /\ (x < 0)%Q).
Proof.
  destruct (x ?= 0)%Q eqn:E.
  - left. split; [done|]. by apply Qeq_alt.
  - right. right. split; [done|]. by apply Qlt_alt.
  - right. left. split; [done|]. by apply Qgt_alt.
Qed.

Lemma binary64_monotone (x y : Q) : (x <= y)%Q -> (binary64 x <= binary64 y)%Q.
Proof.
  intros Hxy. unfold binary64.
  destruct (Qcompare_0_cases x) as [[-> Hx]|[[-> Hx]|[-> Hx]]];
    destruct (Qcompare_0_cases y) as [[-> Hy]|[[-> Hy]|[-> Hy]]].
  - apply Qle_refl.
  - apply Qlt_le_weak, round_53_pos, Hy.
  - lra.
  - lra.
  - by apply round_53_monotone.
  - lra.
  - assert (0 < round_53 (- x))%Q by (apply round_53_pos; lra). lra.
  - assert (0 < round_53 (- x))%Q by (apply round_53_pos; lra).
    assert (0 < round_53 y)%Q by (by apply round_53_pos). lra.
  - assert (round_53 (- y) <= round_53 (- x))%Q by (apply round_53_monotone; lra). lra.
Qed.

(** A positive [m / 2^k] with [m <= 2^53] is its own rounding. *)
Lemma round_53_exact (m : Z) (k : nat) :
  0 < m <= 2 ^ 53 ->
  (round_53 (inject_Z m / inject_Z (2 ^ Z.of_nat k)) == inject_Z m / inject_Z (2 ^ Z.of_nat k))%Q.
Proof.
  intros Hm. set (x := (inject_Z m / inject_Z (2 ^ Z.of_nat k))%Q).
  assert (Hk : (inject_Z (2 ^ Z.of_nat k) == 2 ^ Z.of_nat k)%Q) by (apply two_power_inject; lia).
  assert (Hx : (0 < x)%Q).
  { subst x. apply Qlt_shift_div_l; [rewrite Hk; apply two_power_pos|].
    rewrite Qmult_0_l, <- (Zlt_Qlt 0). lia. }
  unfold round_53. set (e := Qlog2 x - 52).
  destruct (significand_range x Hx) as [H1 H2]. fold e in H1, H2.
  (* x / 2^e = m * 2^t with t = - k - e *)
  set (t := - Z.of_nat k - e).
  assert (Hs : (x / 2 ^ e == inject_Z m * 2 ^ t)%Q).
  { subst x t. rewrite Hk. unfold Z.sub. rewrite two_power_plus, !Qpower_opp.
    field. split; apply Qpower_not_0; done. }
  assert (Ht : -1 <= t).
  { destruct (Z_lt_le_dec t (-1)) as [Hlt|]; [exfalso|done].
    rewrite Hs in H1.
    assert (inject_Z m * 2 ^ t < inject_Z (2 ^ 52))%Q; [|lra].
    apply Qle_lt_trans with (inject_Z (2 ^ 53) * 2 ^ t)%Q.
    - apply Qmult_le_compat_r; [rewrite <- Zle_Qle; lia|apply Qlt_le_weak, two_power_pos].
    - rewrite !two_power_inject, <- two_power_plus by lia. apply two_power_lt. lia. }
  assert (Hint : exists N : Z, (x / 2 ^ e == inject_Z N)%Q).
  { destruct (Z_lt_le_dec t 0) as [Hneg|Hpos].
    - assert (t = -1) as Et by lia.
      assert (m = 2 ^ 53) as ->.
      { rewrite Hs, Et in H1. apply Z.le_antisymm; [lia|].
        rewrite Zle_Qle. change (2 ^ (-1))%Q with (1 # 2)%Q in H1.
        change (inject_Z (2 ^ 52)) with (4503599627370496 # 1)%Q in H1.
        change (inject_Z (2 ^ 53)) with (9007199254740992 # 1)%Q. lra. }
      exists (2 ^ 52). rewrite Hs, Et. reflexivity.
    - exists (m * 2 ^ t). rewrite Hs, inject_Z_mult. by rewrite two_power_inject. }
  destruct Hint as [N HN].
  rewrite (py_round_comp _ _ HN), py_round_integer, <- HN.
  field. apply Qpower_not_0. done.
Qed.

Lemma quotient_sign (m : Z) (d : Q) :
  (0 < d)%Q ->
  ((0 < inject_Z m / d)%Q -> 0 < m) /\ ((inject_Z m / d < 0)%Q -> m < 0).
Proof.
  intros Hd.
  assert (Hd' : ~ (d == 0)%Q) by (intros E; rewrite E in Hd; by apply Qlt_irrefl in Hd).
  assert (E : (inject_Z m == inject_Z m / d * d)%Q) by (field; done).
  split; intros H.
  - rewrite (Zlt_Qlt 0), E. change (inject_Z 0) with 0%Q.
    by apply Qmult_lt_0_compat.
  - rewrite (Zlt_Qlt m 0), E. change (inject_Z 0) with 0%Q.
    eapply Qlt_le_trans; [apply Qmult_lt_compat_r; [exact Hd|exact H]|].
    rewrite Qmult_0_l. apply Qle_refl.
Qed.

Lemma binary64_is_rounding : binary64_rounding binary64.
Proof.
  split; [apply binary64_monotone|].
  intros m k Hm. unfold pow2.
  assert (Hk : (0 < inject_Z (2 ^ Z.of_nat k))%Q).
  { rewrite <- (Zlt_Qlt 0). apply Z.pow_pos_nonneg; lia. }
  destruct (quotient_sign m _ Hk) as [Hpos Hneg].
  unfold binary64.
  destruct (Qcompare_0_cases (inject_Z m / inject_Z (2 ^ Z.of_nat k)))
    as [[-> Hx]|[[-> Hx]|[-> Hx]]].
  - by rewrite Hx.
  - apply round_53_exact. specialize (Hpos Hx). lia.
  - specialize (Hneg Hx).
    assert (E : (- (inject_Z m / inject_Z (2 ^ Z.of_nat k))
                 == inject_Z (- m) / inject_Z (2 ^ Z.of_nat k))%Q).
    { rewrite inject_Z_opp. field. intros E. rewrite E in Hk. by apply Qlt_irrefl in Hk. }
    assert (Hnx : (0 < - (inject_Z m / inject_Z (2 ^ Z.of_nat k)))%Q)
      by exact (Qopp_lt_compat _ 0 Hx).
    rewrite (round_53_comp _ _ Hnx E).
    rewrite round_53_exact by lia. rewrite <- E. ring.
Qed.

(** ** The wrapper *)

Lemma total_len_cons (c : list ascii) (cs : list (list ascii)) :
  total_len (c :: cs) = (length c + total_len cs)%nat.
Proof. unfold total_len. cbn. by rewrite length_app. Qed.

Lemma total_len_app (a b : list (list ascii)) :
  total_len (a ++ b) = (total_len a + total_len b)%nat.
Proof. unfold total_len. by rewrite concat_app, length_app. Qed.

Lemma fill_line_spec (width : Z) (chunks cur_line : list (list ascii)) (cur_len : Z) :
  exists moved rest,
    fill_line width chunks cur_line cur_len
    = (rest, cur_line ++ moved, cur_len + Z.of_nat (total_len moved)) /\
    chunks = moved ++ rest /\
    (cur_len <= width -> cur_len + Z.of_nat (total_len moved) <= width) /\
    match rest with
    | [] => True
    | c :: _ => width < cur_len + Z.of_nat (total_len moved) + len c
    end.
Proof.
  revert cur_line cur_len. induction chunks as [|c chunks IH]; intros cur_line cur_len.
  - exists [], []. cbn. rewrite app_nil_r, Z.add_0_r. auto.
  - cbn [fill_line]. destruct (cur_len + len c <=? width) eqn:E.
    + apply Z.leb_le in E.
      destruct (IH (cur_line ++ [c]) (cur_len + len c)) as (moved & rest & Hf & Hc & Hle & Hr).
      exists (c :: moved), rest. rewrite Hf, total_len_cons, Nat2Z.inj_add.
      unfold len in *. rewrite <- app_assoc. cbn [app].
      split; [f_equal; lia|]. split; [by rewrite Hc|]. split; [lia|].
      destruct rest; [done|lia].
    + apply Z.leb_gt in E. exists [], (c :: chunks).
      rewrite app_nil_r. cbn. rewrite Z.add_0_r. repeat split; auto; lia.
Qed.

Lemma slice_bound_in_range (s : list ascii) (i : Z) :
  0 <= i <= len s -> slice_bound s i = Z.to_nat i.
Proof.
  intros H. unfold slice_bound. destruct (i <? 0) eqn:E; [apply Z.ltb_lt in E; lia|].
  f_equal. lia.
Qed.

Lemma last_hyphen_bound (s : list ascii) (i : Z) :
  0 <= i -> last_hyphen s i = -1 \/ i <= last_hyphen s i < i + len s.
Proof.
  revert i. induction s as [|c s IH]; intros i Hi; [by left|].
  cbn [last_hyphen]. unfold len in *. cbn [length]. rewrite Nat2Z.inj_succ.
  destruct (IH (i + 1)) as [E|E]; [lia| |].
  - rewrite E. cbn. destruct (is_hyphen c); [right; lia|by left].
  - destruct (0 <=? last_hyphen s (i + 1)) eqn:E0; [right; lia|].
    apply Z.leb_gt in E0. lia.
Qed.

Lemma _handle_long_word_spec (chunk : list ascii) (cur_len width : Z) :
  1 <= width -> 0 <= cur_len <= width -> width < len chunk ->
  exists piece remainder,
    _handle_long_word chunk cur_len width = (piece, remainder) /\
    piece ++ remainder = chunk /\
    len piece <= width - cur_len /\
    remainder <> [] /\
    (cur_len = 0 -> piece <> []).
Proof.
  intros Hw Hc Hl. unfold _handle_long_word.
  destruct (width <? 1) eqn:E1; [apply Z.ltb_lt in E1; lia|].
  set (space_left := width - cur_len).
  set (stop := if space_left <? len chunk then _ else _).
  assert (Hstop : 0 <= stop <= space_left /\ (1 <= space_left -> 1 <= stop)).
  { subst stop. destruct (space_left <? len chunk); [|lia].
    destruct (0 <? rfind_hyphen chunk space_left) eqn:Eh; [|cbn; lia].
    destruct (existsb _ _); [|cbn; lia]. cbn.
    apply Z.ltb_lt in Eh. unfold rfind_hyphen in *.
    destruct (last_hyphen_bound (slice_to chunk space_left) 0) as [E|E]; [lia|lia|].
    assert (len (slice_to chunk space_left) <= space_left); [|lia].
    unfold slice_to, len. rewrite slice_bound_in_range by (unfold len in *; lia).
    rewrite length_take. lia. }
  exists (slice_to chunk stop), (slice_from chunk stop). split; [reflexivity|].
  clearbody stop. subst space_left. destruct Hstop as [Hstop Hstop1].
  unfold slice_to, slice_from.
  rewrite slice_bound_in_range by lia.
  split; [apply take_drop|].
  assert (Hlen : len (take (Z.to_nat stop) chunk) = stop).
  { unfold len in *. rewrite length_take. lia. }
  split; [lia|]. split.
  - intros E. apply (f_equal length) in E. rewrite length_drop in E. cbn in E.
    unfold len in *. lia.
  - intros E0 E. rewrite E in Hlen. unfold len in Hlen. cbn in Hlen. lia.
Qed.

Lemma spaceless_strip (s : list ascii) : spaceless s -> s <> [] -> strip_is_empty s = false.
Proof.
  intros Hs Hn. destruct s as [|a s]; [done|].
  apply Forall_cons in Hs as [Ha _]. cbn. by rewrite Ha.
Qed.

Lemma drop_trailing_whitespace_sub (cur_line : list (list ascii)) :
  (total_len (drop_trailing_whitespace cur_line) <= total_len cur_line)%nat.
Proof.
  unfold drop_trailing_whitespace.
  destruct (last cur_line) as [c|] eqn:E; [|done].
  destruct (strip_is_empty c); [|done].
  apply last_Some in E as [l' ->]. rewrite removelast_last, total_len_app. lia.
Qed.

Lemma drop_trailing_whitespace_spaceless (cur_line : list (list ascii)) :
  spaceless (concat cur_line) ->
  concat (drop_trailing_whitespace cur_line) = concat cur_line.
Proof.
  intros Hs. unfold drop_trailing_whitespace.
  destruct (last cur_line) as [c|] eqn:E; [|done].
  destruct (strip_is_empty c) eqn:Ec; [|done].
  apply last_Some in E as [l' ->]. rewrite removelast_last, concat_app. cbn.
  rewrite concat_app in Hs. cbn in Hs. rewrite app_nil_r in Hs.
  apply Forall_app in Hs as [_ Hc].
  destruct c as [|a c]; [by rewrite !app_nil_r|].
  rewrite spaceless_strip in Ec; done.
Qed.

Lemma nonempty_total_len (c : list ascii) : c <> [] -> (0 < length c)%nat.
Proof. destruct c; [done|cbn; lia]. Qed.

Lemma nonempty_chunks_total_len (chunks : list (list ascii)) :
  nonempty_chunks chunks -> chunks <> [] -> (0 < total_len chunks)%nat.
Proof.
  intros H Hn. destruct chunks as [|c cs]; [done|].
  apply Forall_cons in H as [Hc _]. rewrite total_len_cons.
  apply nonempty_total_len in Hc. lia.
Qed.

Lemma next_line_spec (width : Z) (top : list ascii) (below lines : list (list ascii)) :
  1 <= width -> nonempty_chunks (top :: below) ->
  exists chunks' cur_line,
    next_line width (top :: below) lines = (chunks', cur_line) /\
    nonempty_chunks chunks' /\
    (total_len chunks' < total_len (top :: below))%nat /\
    Z.of_nat (total_len cur_line) <= width /\
    (spaceless (concat (top :: below)) ->
     concat cur_line ++ concat chunks' = concat (top :: below)).
Proof.
  intros Hw Hne. unfold next_line.
  set (chunks1 := if strip_is_empty top && _ then below else top :: below).
  assert (H1 : nonempty_chunks chunks1 /\
               (total_len chunks1 <= total_len (top :: below))%nat /\
               (chunks1 = top :: below \/
                (total_len chunks1 < total_len (top :: below))%nat) /\
               (spaceless (concat (top :: below)) -> chunks1 = top :: below)).
  { pose proof Hne as Hne'. apply Forall_cons in Hne' as [Ht Hb].
    subst chunks1. destruct (strip_is_empty top && _) eqn:E.
    - split; [done|]. rewrite total_len_cons. apply nonempty_total_len in Ht.
      split; [lia|]. split; [right; lia|].
      intros Hs. cbn in Hs. apply Forall_app in Hs as [Hs _].
      apply andb_true_iff in E as [E _]. rewrite spaceless_strip in E; [done..|].
      intros ->. cbn in Ht. lia.
    - split; [done|]. split; [lia|]. split; [by left|done]. }
  clearbody chunks1. destruct H1 as (Hne1 & Hle1 & Hprog1 & Hsame1).
  destruct (fill_line_spec width chunks1 [] 0) as (moved & rest & Hf & Hc & Hfit & Hr).
  rewrite Hf. cbn [app]. rewrite Z.add_0_l in *.
  specialize (Hfit ltac:(lia)).
  assert (Hner : nonempty_chunks rest /\ nonempty_chunks moved).
  { rewrite Hc in Hne1. apply Forall_app in Hne1. tauto. }
  destruct Hner as [Hner Hnem].
  assert (Htl : total_len chunks1 = (total_len moved + total_len rest)%nat)
    by (by rewrite Hc, total_len_app).
  destruct rest as [|c rest].
  - (* every chunk has been moved to the line *)
    eexists _, _. split; [reflexivity|]. split; [done|].
    pose proof (drop_trailing_whitespace_sub moved) as Hd.
    split.
    { change (total_len []) with 0%nat. by apply nonempty_chunks_total_len. }
    split; [lia|].
    intros Hs. rewrite app_nil_r. rewrite <- (Hsame1 Hs), Hc, app_nil_r.
    apply drop_trailing_whitespace_spaceless.
    rewrite <- (Hsame1 Hs), Hc, app_nil_r in Hs. done.
  - destruct (width <? len c) eqn:El.
    + (* the next chunk is too long for any line *)
      apply Z.ltb_lt in El.
      destruct (_handle_long_word_spec c (Z.of_nat (total_len moved)) width)
        as (piece & remainder & Hh & Hpr & Hlp & Hrem & Hp0); [lia..|].
      rewrite Hh. eexists _, _. split; [reflexivity|].
      apply Forall_cons in Hner as [Hcne Hrest].
      split; [by apply Forall_cons|].
      pose proof (drop_trailing_whitespace_sub (moved ++ [piece])) as Hd.
      rewrite total_len_app, (total_len_cons piece []) in Hd.
      assert (Ecl : length c = (length piece + length remainder)%nat)
        by (by rewrite <- Hpr, length_app).
      rewrite !total_len_cons in *. unfold len in *.
      change (total_len []) with 0%nat in Hd.
      split.
      { assert (Hpos : (0 < total_len moved + length piece)%nat).
        { destruct moved as [|m moved'].
          - assert (piece <> []) as Hpn by (apply Hp0; reflexivity).
            apply nonempty_total_len in Hpn. lia.
          - apply Forall_cons in Hnem as [Hm _]. apply nonempty_total_len in Hm.
            rewrite total_len_cons. lia. }
        destruct Hprog1 as [E|]; [|lia].
        rewrite E, total_len_cons in Htl. lia. }
      split; [lia|].
      intros Hs. rewrite <- (Hsame1 Hs), Hc.
      rewrite <- (Hsame1 Hs), Hc in Hs.
      rewrite drop_trailing_whitespace_spaceless.
      * rewrite !concat_app. cbn. rewrite !app_nil_r, <- Hpr, <- !app_assoc. done.
      * rewrite concat_app in Hs |- *. cbn in Hs |- *. rewrite app_nil_r.
        apply Forall_app in Hs as [Hs1 Hs2]. apply Forall_app. split; [done|].
        rewrite <- Hpr in Hs2. apply Forall_app in Hs2 as [Hs2 _].
        by apply Forall_app in Hs2 as [Hs2 _].
    + (* the line is full *)
      apply Z.ltb_ge in El.
      eexists _, _. split; [reflexivity|]. split; [done|].
      pose proof (drop_trailing_whitespace_sub moved) as Hd.
      assert (Hmoved : moved <> []).
      { intros ->. cbn in Hr. unfold len in *. lia. }
      pose proof (nonempty_chunks_total_len _ Hnem Hmoved).
      split; [lia|]. split; [lia|].
      intros Hs. rewrite <- (Hsame1 Hs), Hc.
      rewrite <- (Hsame1 Hs), Hc in Hs.
      rewrite drop_trailing_whitespace_spaceless, concat_app; [done|].
      rewrite concat_app in Hs. by apply Forall_app in Hs as [Hs _].
Qed.

Lemma wrap_loop_spec (fuel : nat) (width : Z) (chunks lines : list (list ascii)) :
  1 <= width -> nonempty_chunks chunks -> (total_len chunks < fuel)%nat ->
  exists new,
    wrap_loop fuel width chunks lines = Some (lines ++ new) /\
    Forall (fun l => len l <= width) new /\
    (spaceless (concat chunks) -> concat new = concat chunks).
Proof.
  intros Hw. revert chunks lines.
  induction fuel as [|fuel IH]; intros chunks lines Hne Hf; [lia|].
  destruct chunks as [|top below].
  - exists []. cbn. rewrite app_nil_r. auto.
  - cbn [wrap_loop].
    destruct (next_line_spec width top below lines Hw Hne)
      as (chunks' & cur_line & Hn & Hne' & Hlt & Hlen & Hcat).
    rewrite Hn.
    edestruct (IH chunks') as (new & Hl & Hall & Hc); [exact Hne'|lia|].
    rewrite Hl. clear Hl.
    assert (Hs' : spaceless (concat (top :: below)) ->
                  spaceless (concat chunks') /\
                  concat cur_line ++ concat chunks' = concat (top :: below)).
    { intros Hs. specialize (Hcat Hs). split; [|done].
      rewrite <- Hcat in Hs. by apply Forall_app in Hs as [_ Hs]. }
    destruct cur_line as [|c0 cl].
    + exists new. split; [done|]. split; [done|].
      intros Hs. destruct (Hs' Hs) as [Hs1 Hs2]. rewrite (Hc Hs1). done.
    + exists (concat (c0 :: cl) :: new). rewrite <- app_assoc. split; [done|].
      split; [apply Forall_cons; split; [exact Hlen|done]|].
      intros Hs. destruct (Hs' Hs) as [Hs1 Hs2].
      change (concat (concat (c0 :: cl) :: new)) with (concat (c0 :: cl) ++ concat new).
      by rewrite (Hc Hs1).
Qed.

Lemma emit_concat (cur : list ascii) : concat (emit cur) = rev cur.
Proof. destruct cur; [done|]. unfold emit. cbn [concat]. by rewrite app_nil_r. Qed.

Lemma emit_nonempty (cur : list ascii) : nonempty_chunks (emit cur).
Proof.
  destruct cur as [|a cur]; [constructor|].
  unfold emit. constructor; [|constructor].
  intros E. apply (f_equal length) in E. rewrite length_rev in E. done.
Qed.

Lemma split_from_concat (rest before cur : list ascii) (kind : option chunk_kind) :
  concat (split_from before cur kind rest) = rev cur ++ rest.
Proof.
  revert before cur kind. induction rest as [|c after IH]; intros before cur kind.
  - cbn. by rewrite emit_concat, app_nil_r.
  - cbn [split_from]. destruct (chunk_end kind before c after).
    + rewrite IH. cbn. by rewrite <- app_assoc.
    + rewrite concat_app, emit_concat, IH. done.
    + rewrite concat_app, emit_concat, IH. cbn. by rewrite <- app_assoc.
Qed.

Lemma split_from_nonempty (rest before cur : list ascii) (kind : option chunk_kind) :
  nonempty_chunks (split_from before cur kind rest).
Proof.
  revert before cur kind. induction rest as [|c after IH]; intros before cur kind.
  - apply emit_nonempty.
  - cbn [split_from]. destruct (chunk_end kind before c after).
    + apply IH.
    + apply Forall_app. split; [apply emit_nonempty|apply IH].
    + apply Forall_app. split; [apply emit_nonempty|apply IH].
Qed.

Lemma isspace_tab (c : ascii) : isspace c = false -> (code c =? 9) = false.
Proof.
  intros H. destruct (code c =? 9) eqn:E; [|done].
  apply Z.eqb_eq in E. unfold isspace in H. rewrite E in H. done.
Qed.

Lemma isspace_whitespace (c : ascii) : isspace c = false -> is_whitespace c = false.
Proof.
  unfold isspace, is_whitespace, between. intros H.
  destruct (is_whitespace c) eqn:E; unfold is_whitespace, between in E; [|done].
  rewrite !orb_false_iff, !andb_false_iff, !Z.leb_gt, !Z.eqb_neq in H.
  rewrite !orb_true_iff, !andb_true_iff, !Z.leb_le, !Z.eqb_eq in E. lia.
Qed.

Lemma _munge_whitespace_spaceless (text : list ascii) :
  spaceless text -> _munge_whitespace text = text.
Proof.
  intros Hs. unfold _munge_whitespace.
  assert (He : forall column, expandtabs 8 column text = text).
  { induction Hs as [|c text Hc Hs IH]; intros column; [done|].
    cbn [expandtabs]. rewrite (isspace_tab c Hc). by rewrite IH. }
  rewrite He. clear He. unfold translate_whitespace.
  induction Hs as [|c text Hc Hs IH]; [done|].
  cbn [map]. rewrite (isspace_whitespace c Hc). by rewrite IH.
Qed.

Lemma _wrap_chunks_spec (width : Z) (text : list ascii) :
  0 < width ->
  exists lines,
    _wrap_chunks width (_split text) = inr lines /\
    Forall (fun l => len l <= width) lines /\
    (spaceless text -> concat lines = text).
Proof.
  intros Hw. unfold _wrap_chunks.
  destruct (width <=? 0) eqn:E; [apply Z.leb_le in E; lia|].
  destruct (wrap_loop_spec (S (total_len (_split text))) width (_split text) [])
    as (new & Hl & Hall & Hc); [lia|apply split_from_nonempty|lia|].
  rewrite Hl. exists new. split; [done|]. split; [done|].
  unfold _split in *. rewrite split_from_concat in Hc. exact Hc.
Qed.

(** [wrap] returns for every text, whatever the (positive) width. *)
Lemma wrap_total (width : Z) (text : string) :
  0 < width -> exists text_lines, wrap width text = inr text_lines.
Proof.
  intros Hw. unfold wrap, _split_chunks.
  destruct (_wrap_chunks_spec width (_munge_whitespace (list_ascii_of_string text)) Hw)
    as (lines & -> & _). eauto.
Qed.

Lemma string_of_list_ascii_app (a b : list ascii) :
  string_of_list_ascii (a ++ b) = string_of_list_ascii a +:+ string_of_list_ascii b.
Proof.
  induction a as [|x a IH]; [done|]. cbn [app string_of_list_ascii].
  change (String x (string_of_list_ascii (a ++ b))
          = String x (string_of_list_ascii a +:+ string_of_list_ascii b)).
  by rewrite IH.
Qed.

Lemma append_empty_r (s : string) : s +:+ "" = s.
Proof.
  induction s as [|a s IH]; [done|].
  change (String a (s +:+ "") = String a s). by rewrite IH.
Qed.

Lemma concat_string_of_list_ascii (lines : list (list ascii)) :
  String.concat "" (map string_of_list_ascii lines) = string_of_list_ascii (concat lines).
Proof.
  induction lines as [|l lines IH]; [done|].
  cbn [map concat]. rewrite string_of_list_ascii_app, <- IH.
  destruct lines as [|l' lines]; [|done].
  cbn [map String.concat]. symmetry. apply append_empty_r.
Qed.

Lemma length_string_of_list_ascii (l : list ascii) :
  String.length (string_of_list_ascii l) = length l.
Proof. induction l as [|a l IH]; [done|]. cbn. by rewrite IH. Qed.

Lemma length_list_ascii_of_string (s : string) :
  length (list_ascii_of_string s) = String.length s.
Proof. induction s as [|a s IH]; [done|]. cbn. by rewrite IH. Qed.

(** A text without white space is cut into lines no longer than [width]
    that concatenate to the text. *)
Lemma wrap_spaceless (width : Z) (text : string) :
  0 < width -> spaceless (list_ascii_of_string text) ->
  exists text_lines,
    wrap width text = inr text_lines /\
    Forall (fun line => Z.of_nat (String.length line) <= width) text_lines /\
    String.concat "" text_lines = text.
Proof.
  intros Hw Hs. unfold wrap, _split_chunks.
  rewrite (_munge_whitespace_spaceless _ Hs).
  destruct (_wrap_chunks_spec width (list_ascii_of_string text) Hw)
    as (lines & -> & Hall & Hc).
  eexists. split; [reflexivity|]. split.
  - apply Forall_map. eapply Forall_impl; [exact Hall|].
    intros l Hl. cbn. rewrite length_string_of_list_ascii. exact Hl.
  - rewrite concat_string_of_list_ascii, (Hc Hs).
    apply string_of_list_ascii_of_string.
Qed.

(** ** Text layout *)

Lemma measure_lines_spec (env : environment) (f : option font) (text_lines : list string)
    (total_height : Z) (line_heights : list Z) :
  measure_lines env f text_lines total_height line_heights
  = (total_height + heights_before env f text_lines (length text_lines),
     line_heights ++ map (line_height env f) text_lines).
Proof.
  revert total_height line_heights.
  induction text_lines as [|line rest IH]; intros total_height line_heights.
  - cbn. by rewrite Z.add_0_r, app_nil_r.
  - cbn [measure_lines length heights_before map].
    unfold line_height at 1 2. destruct (get_text_size env f line) as [w h] eqn:E.
    rewrite IH. cbn [snd]. rewrite <- app_assoc. f_equal. lia.
Qed.

Lemma draw_quote_spec (env : environment) (f : option font) (text_lines : list string)
    (done_ : list Z) (current_y : Q) (img : image) :
  draw_quote env f (length done_) text_lines
    (done_ ++ map (line_height env f) text_lines) current_y img
  = inr (fold_left (fun y line => (y + inject_Z (line_height env f line))%Q) text_lines current_y,
         Image (width img) (height img) (drawn img ++ quote_ops env f text_lines current_y)).
Proof.
  revert done_ current_y img.
  induction text_lines as [|line rest IH]; intros done_ current_y img.
  - cbn. rewrite app_nil_r. by destruct img.
  - cbn [draw_quote map quote_ops fold_left]. unfold line_ops.
    assert (Hh : line_height env f line = snd (get_text_size env f line) + 10) by done.
    destruct (get_text_size env f line) as [w h] eqn:E. cbn [fst snd] in *.
    rewrite Hh. rewrite (list_lookup_middle done_ _ (h + 10) (length done_) eq_refl).
    specialize (IH (done_ ++ [h + 10])). rewrite length_app, <- app_assoc in IH.
    cbn [app length] in IH. rewrite Nat.add_1_r in IH.
    rewrite IH. cbn [width height drawn draw_text].
    by rewrite <- !app_assoc.
Qed.

Lemma fold_heights (env : environment) (f : option font) (text_lines : list string) (y : Q) :
  (fold_left (fun y line => (y + inject_Z (line_height env f line))%Q) text_lines y
   == y + inject_Z (heights_before env f text_lines (length text_lines)))%Q.
Proof.
  revert y. induction text_lines as [|line rest IH]; intros y.
  - cbn. ring.
  - cbn [fold_left length heights_before]. rewrite IH, inject_Z_plus. ring.
Qed.

(** What [draw_text_block] draws: it never raises [IndexError]. *)
Lemma draw_text_block_spec (env : environment) (font_large font_small : option font)
    (text_lines : list string) (author : string) (img : image) :
  let start_y := half (WINDOW_HEIGHT
                       - block_height env font_large font_small text_lines author) in
  draw_text_block env font_large font_small text_lines author img
  = inr (Image (width img) (height img)
           (drawn img ++ quote_ops env font_large text_lines start_y
              ++ author_ops env font_small author
                   (fold_left (fun y line => (y + inject_Z (line_height env font_large line))%Q)
                      text_lines start_y))).
Proof.
  cbv zeta. unfold draw_text_block, block_height.
  rewrite measure_lines_spec. cbn [app].
  destruct (get_text_size env font_small author) as [aw ah] eqn:Ea.
  rewrite (draw_quote_spec env font_large text_lines []).
  unfold draw_author, author_ops.
  destruct (get_text_size env font_small ("- " +:+ author)) as [aw' ah'] eqn:Ea'.
  unfold draw_text. cbn [width height drawn fst]. by rewrite <- !app_assoc.
Qed.

Lemma block_height_spec (env : environment) (font_large font_small : option font)
    (text_lines : list string) (author : string) :
  block_height env font_large font_small text_lines author
  = heights_before env font_large text_lines (length text_lines)
    + (snd (get_text_size env font_small author) + 30).
Proof.
  unfold block_height. rewrite measure_lines_spec.
  destruct (get_text_size env font_small author) as [aw ah]. cbn. lia.
Qed.

Lemma length_quote_ops (env : environment) (f : option font) (text_lines : list string) (y : Q) :
  length (quote_ops env f text_lines y) = (2 * length text_lines)%nat.
Proof.
  revert y. induction text_lines as [|line rest IH]; intros y; [done|].
  cbn [quote_ops length]. rewrite length_app, IH. cbn. lia.
Qed.

(** Line [k] of the quote is drawn, shadow first, at the centred abscissa
    and at the ordinate reached after the [k] lines before it. *)
Lemma quote_ops_lookup (env : environment) (f : option font) (text_lines : list string)
    (y : Q) (k : nat) (line : string) :
  text_lines !! k = Some line ->
  exists shadow op,
    quote_ops env f text_lines y !! (2 * k)%nat = Some shadow /\
    quote_ops env f text_lines y !! (2 * k + 1)%nat = Some op /\
    op_text op = line /\ op_font op = f /\ op_text shadow = line /\ op_font shadow = f /\
    (fst (op_xy op) == half (WINDOW_WIDTH - fst (get_text_size env f line)))%Q /\
    (snd (op_xy op) == y + inject_Z (heights_before env f text_lines k))%Q /\
    (fst (op_xy shadow) == fst (op_xy op) + 2)%Q /\
    (snd (op_xy shadow) == snd (op_xy op) + 2)%Q.
Proof.
  revert y k. induction text_lines as [|l rest IH]; intros y k Hk; [done|].
  destruct k as [|k].
  - cbn in Hk. injection Hk as ->. cbn [quote_ops]. unfold line_ops.
    eexists _, _. split; [reflexivity|]. split; [reflexivity|].
    cbn [op_text op_font op_xy fst snd heights_before].
    repeat split; try reflexivity. ring.
  - cbn in Hk. destruct (IH (y + inject_Z (line_height env f l))%Q k Hk)
      as (shadow & op & H1 & H2 & H3 & H4 & H5 & H6 & H7 & H8 & H9 & H10).
    exists shadow, op. cbn [quote_ops]. unfold line_ops at 1.
    replace (2 * S k)%nat with (S (S (2 * k))) by lia.
    replace (S (S (2 * k)) + 1)%nat with (S (S (2 * k + 1))) by lia.
    cbn [app lookup list_lookup]. split; [exact H1|]. split; [exact H2|].
    repeat split; try done.
    rewrite H8. cbn [heights_before]. rewrite inject_Z_plus. ring.
Qed.

(** ** The content fetcher *)

Lemma fetch_quote_unfold (env : environment) (w : world) :
  fetch_quote env w =
  match fetch_quote_try env w with
  | (inl e, w') =>
    (inr OFFLINE_QUOTE,
     World (w_log w' ++ [(ERROR, "Quote Fetch Exception: " +:+ exn_name e)])
           (w_requests w') (w_current_image w') (w_canvas w'))
  | (inr q, w') => (inr q, w')
  end.
Proof.
  unfold fetch_quote, try_except.
  destruct (fetch_quote_try env w) as [[e|q] w']; reflexivity.
Qed.

Lemma fetch_quote_try_unfold (env : environment) (w : world) :
  fetch_quote_try env w =
  let w1 := World (w_log w) (w_requests w ++ [(QUOTE_API_URL, 5)])
                  (w_current_image w) (w_canvas w) in
  match env_get env QUOTE_API_URL 5 with
  | None => (inl RequestException, w1)
  | Some response =>
    if status_code response =? 200 then
      match json_body response with
      | None => (inl JSONDecodeError, w1)
      | Some (PyList []) => (inl IndexError, w1)
      | Some (PyList (PyDict d :: _)) | Some (PyDict d) =>
        (inr (dict_get d "quote"
                (dict_get d "content" (PyStr "Inspiration allows us to do great things.")),
              dict_get d "author" (PyStr "Unknown")), w1)
      | Some _ => (inl AttributeError, w1)
      end
    else
      (inr API_ERROR_QUOTE,
       World (w_log w ++ [(WARNING, "Quote API Error: " +:+ str_of_int (status_code response))])
             (w_requests w ++ [(QUOTE_API_URL, 5)]) (w_current_image w) (w_canvas w))
  end.
Proof.
  unfold fetch_quote_try, mbind, M_bind, requests_get.
  destruct (env_get env QUOTE_API_URL 5) as [r|]; [|reflexivity].
  cbn zeta. destruct (status_code r =? 200); [|reflexivity].
  unfold response_json. destruct (json_body r) as [v|]; [|reflexivity].
  destruct v as [| | | | |l|d]; try reflexivity.
  destruct l as [|x l]; [reflexivity|].
  destruct x; reflexivity.
Qed.

(** C5.  [fetch_quote] never raises; a response whose status is not 200 gives
    exactly the API-error pair; an exception raised anywhere in the guarded
    block (in particular a failed request or an unparseable body) gives
    exactly the offline pair; and the two pairs differ. *)
Theorem fetch_quote_fallback_pairs (env : environment) (w : world) :
  (exists q w', fetch_quote env w = (inr q, w')) /\
  (forall r, env_get env QUOTE_API_URL 5 = Some r -> status_code r <> 200 ->
             fst (fetch_quote env w) = inr API_ERROR_QUOTE) /\
  (forall e w', fetch_quote_try env w = (inl e, w') ->
                fst (fetch_quote env w) = inr OFFLINE_QUOTE) /\
  (env_get env QUOTE_API_URL 5 = None ->
   fst (fetch_quote env w) = inr OFFLINE_QUOTE) /\
  (forall r, env_get env QUOTE_API_URL 5 = Some r -> status_code r = 200 ->
             json_body r = None ->
             fst (fetch_quote env w) = inr OFFLINE_QUOTE) /\
  API_ERROR_QUOTE <> OFFLINE_QUOTE.
Proof.
  repeat split.
  - rewrite fetch_quote_unfold.
    destruct (fetch_quote_try env w) as [[e|q] w']; eauto.
  - intros r Hr Hs. rewrite fetch_quote_unfold, fetch_quote_try_unfold, Hr.
    apply Z.eqb_neq in Hs. cbn zeta. rewrite Hs. reflexivity.
  - intros e w' He. rewrite fetch_quote_unfold, He. reflexivity.
  - intros Hr. rewrite fetch_quote_unfold, fetch_quote_try_unfold, Hr. reflexivity.
  - intros r Hr Hs Hj. rewrite fetch_quote_unfold, fetch_quote_try_unfold, Hr.
    apply Z.eqb_eq in Hs. cbn zeta. rewrite Hs, Hj. reflexivity.
  - discriminate.
Qed.

Lemma fetch_quote_fallback_pairs_witness :
  fst (fetch_quote (sample_env 500 None) empty_world) = inr API_ERROR_QUOTE /\
  fst (fetch_quote offline_env empty_world) = inr OFFLINE_QUOTE /\
  fst (fetch_quote (sample_env 200 None) empty_world) = inr OFFLINE_QUOTE.
Proof.
  split; [|split].
  - apply (proj1 (proj2 (fetch_quote_fallback_pairs (sample_env 500 None) empty_world))
             (Response 500 [] None)); [reflexivity | discriminate].
  - apply (proj1 (proj2 (proj2 (proj2 (fetch_quote_fallback_pairs offline_env empty_world))))).
    reflexivity.
  - apply (proj1 (proj2 (proj2 (proj2 (proj2
             (fetch_quote_fallback_pairs (sample_env 200 None) empty_world)))))
             (Response 200 [] None)); reflexivity.
Defined.

(** C9.  A 200 response whose body is the empty JSON list makes [data[0]]
    raise inside the guarded block, so [fetch_quote] returns the offline
    pair, not the API-error pair: the very pair it returns when the request
    itself fails. *)
Theorem fetch_quote_empty_list_is_offline (env : environment) (w : world) (r : response) :
  env_get env QUOTE_API_URL 5 = Some r ->
  status_code r = 200 ->
  json_body r = Some (PyList []) ->
  (exists w', fetch_quote_try env w = (inl IndexError, w')) /\
  fst (fetch_quote env w) = inr OFFLINE_QUOTE /\
  fst (fetch_quote env w) <> inr API_ERROR_QUOTE /\
  fst (fetch_quote env w) = fst (fetch_quote offline_env w).
Proof.
  intros Hr Hs Hj.
  assert (Ht : exists w', fetch_quote_try env w = (inl IndexError, w')).
  { rewrite fetch_quote_try_unfold, Hr. apply Z.eqb_eq in Hs. cbn zeta.
    rewrite Hs, Hj. eauto. }
  destruct Ht as [w' Ht].
  assert (Hq : fst (fetch_quote env w) = inr OFFLINE_QUOTE).
  { rewrite fetch_quote_unfold, Ht. reflexivity. }
  repeat split.
  - eauto.
  - exact Hq.
  - rewrite Hq. discriminate.
  - rewrite Hq. rewrite fetch_quote_unfold, fetch_quote_try_unfold. reflexivity.
Qed.

Lemma fetch_quote_empty_list_is_offline_witness :
  fst (fetch_quote (sample_env 200 (Some (PyList []))) empty_world) = inr OFFLINE_QUOTE.
Proof.
  apply (fetch_quote_empty_list_is_offline (sample_env 200 (Some (PyList []))) empty_world
           (Response 200 [] (Some (PyList []))));
    reflexivity.
Defined.

Lemma fetch_image_unfold (env : environment) (keyword : string) (w : world) :
  fetch_image env keyword w =
  let rand_id := env_randint env 1 10000 in
  let url1 := loremflickr_url keyword rand_id in
  let url2 := picsum_url rand_id in
  let log1 := w_log w ++ [(INFO, "Fetching image from: " +:+ url1)] in
  let log2 := log1 ++ [(INFO, "LoremFlickr failed, falling back to Picsum.")] in
  let failed := (ERROR, "Image Fetch Exception: " +:+ exn_name RequestException) in
  let req1 := w_requests w ++ [(url1, 10)] in
  let req2 := req1 ++ [(url2, 10)] in
  match env_get env url1 10 with
  | None => (inr None, World (log1 ++ [failed]) req1 (w_current_image w) (w_canvas w))
  | Some r1 =>
    if status_code r1 =? 200
    then (inr (Some (content r1)), World log1 req1 (w_current_image w) (w_canvas w))
    else
      match env_get env url2 10 with
      | None => (inr None, World (log2 ++ [failed]) req2 (w_current_image w) (w_canvas w))
      | Some r2 =>
        if status_code r2 =? 200
        then (inr (Some (content r2)), World log2 req2 (w_current_image w) (w_canvas w))
        else (inr None, World log2 req2 (w_current_image w) (w_canvas w))
      end
  end.
Proof.
  unfold fetch_image, try_except, fetch_image_try, mbind, M_bind, requests_get, logging.
  cbn. destruct (env_get env _ 10) as [r1|]; [|reflexivity].
  destruct (status_code r1 =? 200); [reflexivity|]. cbn.
  destruct (env_get env _ 10) as [r2|]; [|reflexivity].
  destruct (status_code r2 =? 200); reflexivity.
Qed.

(** C2, as the code has it.  [fetch_image] never raises.  When the primary
    source answers 200 its bytes are returned and nothing else is requested.
    When it answers with another status, the blurred unkeyworded source is
    requested next; its bytes are returned if it answers 200, and [None] is
    returned exactly when it raises or answers another status.  When the
    primary request itself raises, [None] is returned and the secondary
    source is not requested. *)
Theorem fetch_image_fallback_on_status (env : environment) (keyword : string) (w : world) :
  let url1 := loremflickr_url keyword (env_randint env 1 10000) in
  let url2 := picsum_url (env_randint env 1 10000) in
  let result := fst (fetch_image env keyword w) in
  let requested := w_requests (snd (fetch_image env keyword w)) in
  (exists r w', fetch_image env keyword w = (inr r, w')) /\
  (forall r1, env_get env url1 10 = Some r1 -> status_code r1 = 200 ->
     result = inr (Some (content r1)) /\ requested = w_requests w ++ [(url1, 10)]) /\
  (forall r1, env_get env url1 10 = Some r1 -> status_code r1 <> 200 ->
     requested = w_requests w ++ [(url1, 10); (url2, 10)] /\
     (forall r2, env_get env url2 10 = Some r2 -> status_code r2 = 200 ->
        result = inr (Some (content r2))) /\
     (result = inr None <->
      env_get env url2 10 = None \/
      exists r2, env_get env url2 10 = Some r2 /\ status_code r2 <> 200)) /\
  (env_get env url1 10 = None ->
     result = inr None /\ requested = w_requests w ++ [(url1, 10)]).
Proof.
  cbv zeta. rewrite fetch_image_unfold. cbv zeta.
  set (url1 := loremflickr_url keyword (env_randint env 1 10000)).
  set (url2 := picsum_url (env_randint env 1 10000)).
  repeat split.
  - destruct (env_get env url1 10) as [r1|]; [|eauto].
    destruct (status_code r1 =? 200); [eauto|].
    destruct (env_get env url2 10) as [r2|]; [|eauto].
    destruct (status_code r2 =? 200); eauto.
  - rewrite H. apply Z.eqb_eq in H0. rewrite H0. reflexivity.
  - rewrite H. apply Z.eqb_eq in H0. rewrite H0. reflexivity.
  - rewrite H. apply Z.eqb_neq in H0. rewrite H0.
    assert (Hreq : (w_requests w ++ [(url1, 10)]) ++ [(url2, 10)]
                   = w_requests w ++ [(url1, 10); (url2, 10)])
      by (rewrite <- app_assoc; reflexivity).
    destruct (env_get env url2 10) as [r2|]; [|exact Hreq].
    destruct (status_code r2 =? 200); exact Hreq.
  - intros r2 H2 Hs2. rewrite H. apply Z.eqb_neq in H0. rewrite H0, H2.
    apply Z.eqb_eq in Hs2. rewrite Hs2. reflexivity.
  - rewrite H. apply Z.eqb_neq in H0. rewrite H0.
    destruct (env_get env url2 10) as [r2|]; [|auto].
    destruct (status_code r2 =? 200) eqn:E2; cbn; [discriminate|].
    intros _. right. exists r2. split; [reflexivity|]. by apply Z.eqb_neq.
  - rewrite H. apply Z.eqb_neq in H0. rewrite H0.
    intros [Hn | (r2 & H2 & Hs2)]; [rewrite Hn; reflexivity|].
    rewrite H2. apply Z.eqb_neq in Hs2. rewrite Hs2. reflexivity.
  - rewrite H. reflexivity.
  - rewrite H. reflexivity.
Qed.

Lemma fetch_image_fallback_on_status_witness :
  fst (fetch_image primary_503_env SEARCH_KEYWORD empty_world) = inr (Some one_pixel_png) /\
  fst (fetch_image primary_down_env SEARCH_KEYWORD empty_world) = inr None.
Proof.
  split.
  - destruct (fetch_image_fallback_on_status primary_503_env SEARCH_KEYWORD empty_world)
      as (_ & _ & H & _).
    destruct (H (Response 503 [] None)) as (_ & H2 & _); [reflexivity | discriminate |].
    apply (H2 (Response 200 one_pixel_png None)); reflexivity.
  - destruct (fetch_image_fallback_on_status primary_down_env SEARCH_KEYWORD empty_world)
      as (_ & _ & _ & H).
    apply H. reflexivity.
Defined.

(** C2 as stated fails: the primary request raises, the secondary source
    would answer 200 with image bytes, and yet [fetch_image] returns [None]
    having requested the primary URL only. *)
Lemma fetch_image_no_fallback_when_primary_raises :
  let url1 := loremflickr_url SEARCH_KEYWORD 1 in
  let url2 := picsum_url 1 in
  env_get primary_down_env url1 10 = None /\
  env_get primary_down_env url2 10 = Some (Response 200 one_pixel_png None) /\
  fst (fetch_image primary_down_env SEARCH_KEYWORD empty_world) = inr None /\
  w_requests (snd (fetch_image primary_down_env SEARCH_KEYWORD empty_world)) = [(url1, 10)].
Proof. vm_compute. repeat split. Qed.

(** ** Fonts *)

Lemma truetype_cases (env : environment) (path : string) (size : Z) :
  (env_font_loads env path size = true /\
   truetype env path size = inr (TrueTypeFont path size)) \/
  (env_font_loads env path size = false /\ truetype env path size = inl OSError).
Proof. unfold truetype. destruct (env_font_loads env path size); auto. Qed.

Lemma load_fonts_total (env : environment) (candidates : list string)
    (font_large font_small : option font) :
  exists large small,
    load_fonts env candidates font_large font_small = inr (large, small) /\
    (large = None -> font_large = None).
Proof.
  revert font_large font_small.
  induction candidates as [|p rest IH]; intros font_large font_small; [cbn; eauto|].
  cbn [load_fonts].
  destruct (truetype_cases env p 36) as [[_ ->]|[_ ->]]; [|apply IH].
  destruct (truetype_cases env p 24) as [[_ ->]|[_ ->]]; [eexists _, _; split; done|].
  destruct (IH (Some (TrueTypeFont p 36)) font_small) as (l & s & -> & H).
  exists l, s. split; [done|]. intros E. by specialize (H E).
Qed.

Lemma load_fonts_first (env : environment) (before after : list string) (path : string)
    (font_large font_small : option font) :
  (forall p, In p before ->
             env_font_loads env p 36 = false \/ env_font_loads env p 24 = false) ->
  env_font_loads env path 36 = true -> env_font_loads env path 24 = true ->
  load_fonts env (before ++ path :: after) font_large font_small
  = inr (Some (TrueTypeFont path 36), Some (TrueTypeFont path 24)).
Proof.
  intros Hb H36 H24. revert font_large font_small.
  induction before as [|p before IH]; intros font_large font_small.
  - cbn. unfold truetype. by rewrite H36, H24.
  - cbn [app load_fonts].
    assert (IH' := IH (fun q Hq => Hb q (or_intror Hq))).
    destruct (truetype_cases env p 36) as [[E36 ->]|[_ ->]]; [|apply IH'].
    destruct (truetype_cases env p 24) as [[E24 ->]|[_ ->]]; [|apply IH'].
    destruct (Hb p (or_introl eq_refl)); congruence.
Qed.

Lemma load_fonts_none (env : environment) (candidates : list string)
    (font_large font_small : option font) :
  (forall p, In p candidates -> env_font_loads env p 36 = false) ->
  load_fonts env candidates font_large font_small = inr (font_large, font_small).
Proof.
  intros H. induction candidates as [|p rest IH]; [done|].
  cbn [load_fonts]. unfold truetype. rewrite (H p (or_introl eq_refl)).
  apply IH. intros q Hq. apply H. by right.
Qed.

Lemma resolve_fonts_unfold (env : environment) (w : world) :
  resolve_fonts env w =
  match load_fonts env font_candidates None None with
  | inl e => (inl e, w)
  | inr (None, _) =>
    (inr (Some DefaultFont, Some DefaultFont),
     World (w_log w ++ [(WARNING, "No system fonts found, using default PIL font.")])
           (w_requests w) (w_current_image w) (w_canvas w))
  | inr (Some large, small) => (inr (Some large, small), w)
  end.
Proof.
  unfold resolve_fonts, mbind, M_bind, lift.
  destruct (load_fonts env font_candidates None None) as [e|[[l|] sm]]; reflexivity.
Qed.

(** Which fonts are chosen does not depend on the world, and the display is
    not touched. *)
Lemma resolve_fonts_spec (env : environment) (w : world) :
  exists large small w',
    resolve_fonts env w = (inr (Some large, small), w') /\
    w_requests w' = w_requests w /\
    w_current_image w' = w_current_image w /\ w_canvas w' = w_canvas w /\
    forall w0, fst (resolve_fonts env w0) = inr (Some large, small).
Proof.
  destruct (load_fonts_total env font_candidates None None) as (l & s & E & _).
  destruct l as [l|].
  - exists l, s, w. rewrite resolve_fonts_unfold, E. repeat split.
    intros w0. by rewrite resolve_fonts_unfold, E.
  - eexists DefaultFont, (Some DefaultFont), _. rewrite resolve_fonts_unfold, E.
    split; [reflexivity|]. repeat split.
    intros w0. by rewrite resolve_fonts_unfold, E.
Qed.

(** ** [process_image] *)

Lemma alpha_composite_overlay (img : image) :
  alpha_composite img (Image_new (width img, height img)) = inr img.
Proof. unfold alpha_composite, Image_new. cbn. by rewrite !Z.eqb_refl. Qed.

Lemma resize_inr (env : environment) (image_data : list byte) (img scaled : image)
    (w h : Z) :
  resize env image_data img (w, h) = inr scaled ->
  can_resize env image_data (w, h) /\ 1 <= w /\ 1 <= h /\
  scaled = Image w h (drawn img).
Proof.
  unfold resize, can_resize. cbn [fst snd].
  destruct (env_image_load env image_data); [|done]. cbn [negb].
  destruct (2 ^ 31 <=? w) eqn:E1; [done|]. destruct (2 ^ 31 <=? h) eqn:E2; [done|].
  destruct (w <? 1) eqn:E3; [done|]. destruct (h <? 1) eqn:E4; [done|]. cbn [orb].
  destruct (env_image_fits env w h); [|done]. cbn [negb]. intros [= <-].
  apply Z.leb_gt in E1, E2. apply Z.ltb_ge in E3, E4. repeat split; lia.
Qed.

Lemma resize_succeeds (env : environment) (image_data : list byte) (img : image) (w h : Z) :
  can_resize env image_data (w, h) -> 1 <= w -> 1 <= h ->
  resize env image_data img (w, h) = inr (Image w h (drawn img)).
Proof.
  unfold resize, can_resize. cbn [fst snd]. intros (-> & Hw & Hh & ->) Hw1 Hh1. cbn [negb].
  destruct (2 ^ 31 <=? w) eqn:E1; [apply Z.leb_le in E1; lia|].
  destruct (2 ^ 31 <=? h) eqn:E2; [apply Z.leb_le in E2; lia|].
  destruct (w <? 1) eqn:E3; [apply Z.ltb_lt in E3; lia|].
  destruct (h <? 1) eqn:E4; [apply Z.ltb_lt in E4; lia|]. reflexivity.
Qed.

Lemma resize_fails (env : environment) (image_data : list byte) (img : image) (w h : Z) :
  ~ can_resize env image_data (w, h) -> exists e, resize env image_data img (w, h) = inl e.
Proof.
  unfold resize, can_resize. cbn [fst snd]. intros Hn.
  destruct (env_image_load env image_data); [|eauto]. cbn [negb].
  destruct (2 ^ 31 <=? w) eqn:E1; [eauto|]. destruct (2 ^ 31 <=? h) eqn:E2; [eauto|].
  destruct (w <? 1) eqn:E3; [eauto|]. destruct (h <? 1) eqn:E4; [eauto|]. cbn [orb].
  destruct (env_image_fits env w h); [|eauto].
  apply Z.leb_gt in E1, E2. destruct Hn. repeat split; done.
Qed.

Lemma scale_and_crop_size (env : environment) (image_data : list byte) (img out : image) :
  scale_and_crop env image_data img = inr out ->
  width out = WINDOW_WIDTH /\ height out = WINDOW_HEIGHT /\ drawn out = drawn img.
Proof.
  unfold scale_and_crop. destruct (cover_size env img) as [e|[nw nh]]; [done|].
  destruct (resize env image_data img (nw, nh)) as [e|img'] eqn:Er; [done|].
  destruct (crop_size img' nw nh) as (out' & -> & Hw & Hh & Hd).
  intros [= <-]. repeat split; [done..|].
  rewrite Hd. by destruct (resize_inr _ _ _ _ _ _ Er) as (_ & _ & _ & ->).
Qed.

(** The image is scaled and cropped exactly when Pillow can make the scaled
    image. *)
Lemma scale_and_crop_succeeds (env : environment) (image_data : list byte) (img : image) :
  binary64_rounding (env_fl env) ->
  0 < width img < 2 ^ 31 -> 0 < height img < 2 ^ 31 ->
  (forall size, cover_size env img = inr size -> can_resize env image_data size) ->
  exists out, scale_and_crop env image_data img = inr out.
Proof.
  intros Hfl Hw Hh Hres.
  destruct (cover_size_covers env img Hfl Hw Hh) as (nw & nh & E & _ & Hnw & Hnh).
  unfold scale_and_crop. rewrite E. unfold WINDOW_WIDTH, WINDOW_HEIGHT in *.
  rewrite (resize_succeeds env image_data img nw nh (Hres _ E)) by lia.
  destruct (crop_size (Image nw nh (drawn img)) nw nh) as (out & -> & _). eauto.
Qed.

(** The guarded block of [process_image], step by step, for a quote and an
    author that are strings. *)
Lemma process_image_try_unfold (env : environment) (image_data : list byte)
    (text author : string) (w : world) :
  process_image_try env image_data (PyStr text) (PyStr author) w =
  match Image_open env image_data with
  | inl e => (inl e, w)
  | inr img =>
    match scale_and_crop env image_data img with
    | inl e => (inl e, w)
    | inr img =>
      match resolve_fonts env w with
      | (inl e, w') => (inl e, w')
      | (inr (font_large, font_small), w') =>
        match wrap (max_chars env) text with
        | inl e => (inl e, w')
        | inr text_lines =>
          match draw_text_block env font_large font_small text_lines author img with
          | inl e => (inl e, w')
          | inr img => (inr (PhotoImage (width img) (height img) (drawn img)), w')
          end
        end
      end
    end
  end.
Proof.
  unfold process_image_try, mbind, M_bind, lift, as_str, mret, M_ret.
  destruct (Image_open env image_data) as [e|img0]; [done|].
  destruct (scale_and_crop env image_data img0) as [e|img1]; [done|].
  rewrite alpha_composite_overlay.
  destruct (resolve_fonts env w) as [[e|[font_large font_small]] w']; [done|].
  destruct (wrap (max_chars env) text) as [e|text_lines]; [done|].
  destruct (draw_text_block env font_large font_small text_lines author img1); done.
Qed.

Lemma process_image_unfold (env : environment) (image_data : list byte)
    (text author : pyval) (w : world) :
  process_image env image_data text author w =
  match process_image_try env image_data text author w with
  | (inl e, w') =>
    (inr None,
     World (w_log w' ++ [(ERROR, "Image Processing Exception: " +:+ exn_name e)])
           (w_requests w') (w_current_image w') (w_canvas w'))
  | (inr f, w') => (inr (Some f), w')
  end.
Proof.
  unfold process_image, try_except, mbind, M_bind.
  destruct (process_image_try env image_data text author w) as [[e|f] w']; reflexivity.
Qed.

Lemma process_image_try_display (env : environment) (image_data : list byte)
    (text author : pyval) (w : world) :
  same_display w (snd (process_image_try env image_data text author w)).
Proof.
  unfold process_image_try, mbind, M_bind, lift, as_str, mret, M_ret, raise.
  destruct (Image_open env image_data) as [e|img0]; [done|].
  destruct (scale_and_crop env image_data img0) as [e|img1]; [done|].
  rewrite alpha_composite_overlay.
  destruct (resolve_fonts_spec env w) as (l & s & w' & -> & _ & H1 & H2 & _).
  assert (same_display w w') by done.
  destruct text; try done.
  destruct (wrap (max_chars env) s0) as [e|text_lines]; [done|].
  destruct author; try done.
  destruct (draw_text_block env (Some l) s text_lines s1 img1); done.
Qed.

(** A frame that [process_image_try] returns has the size of the window. *)
Lemma process_image_try_size (env : environment) (image_data : list byte)
    (text author : pyval) (w w' : world) (f : frame) :
  process_image_try env image_data text author w = (inr f, w') ->
  frame_width f = WINDOW_WIDTH /\ frame_height f = WINDOW_HEIGHT.
Proof.
  destruct text as [| | | |text| |]; destruct author as [| | | |author| |];
    try (unfold process_image_try, mbind, M_bind, lift, as_str, mret, M_ret, raise;
         destruct (Image_open env image_data) as [e|img0]; [done|];
         destruct (scale_and_crop env image_data img0) as [e|img1]; [done|];
         rewrite alpha_composite_overlay;
         destruct (resolve_fonts env w) as [[e|[font_large font_small]] w1]; [done|];
         try done;
         destruct (wrap (max_chars env) text) as [e|text_lines]; done).
  rewrite process_image_try_unfold.
  destruct (Image_open env image_data) as [e|img0]; [done|].
  destruct (scale_and_crop env image_data img0) as [e|img1] eqn:Es; [done|].
  destruct (resolve_fonts env w) as [[e|[font_large font_small]] w1]; [done|].
  destruct (wrap (max_chars env) text) as [e|text_lines]; [done|].
  rewrite draw_text_block_spec. intros [= <- _]. cbn.
  by destruct (scale_and_crop_size env image_data img0 img1 Es) as (? & ? & _).
Qed.

(** A frame that [process_image_try] returns is complete: every wrapped line
    and the author line have been drawn, each with its shadow. *)
Lemma process_image_try_complete (env : environment) (image_data : list byte)
    (text author : pyval) (w w' : world) (f : frame) :
  process_image_try env image_data text author w = (inr f, w') ->
  exists (quote name : string) (text_lines : list string),
    text = PyStr quote /\ author = PyStr name /\
    wrap (max_chars env) quote = inr text_lines /\
    length (frame_ops f) = (2 * length text_lines + 2)%nat.
Proof.
  destruct text as [| | | |text| |]; destruct author as [| | | |author| |];
    try (unfold process_image_try, mbind, M_bind, lift, as_str, mret, M_ret, raise;
         destruct (Image_open env image_data) as [e|img0]; [done|];
         destruct (scale_and_crop env image_data img0) as [e|img1]; [done|];
         rewrite alpha_composite_overlay;
         destruct (resolve_fonts env w) as [[e|[font_large font_small]] w1]; [done|];
         try done;
         destruct (wrap (max_chars env) text) as [e|text_lines]; done).
  rewrite process_image_try_unfold. unfold Image_open.
  destruct (env_image_open env image_data) as [[iw ih]|]; [|done].
  destruct (scale_and_crop env image_data (Image iw ih [])) as [e|img1] eqn:Es; [done|].
  destruct (resolve_fonts env w) as [[e|[font_large font_small]] w1]; [done|].
  destruct (wrap (max_chars env) text) as [e|text_lines] eqn:Ew; [done|].
  rewrite draw_text_block_spec. intros [= <- _].
  exists text, author, text_lines. split; [done|]. split; [done|]. split; [exact Ew|].
  cbn [frame_ops drawn].
  destruct (scale_and_crop_size _ _ _ _ Es) as (_ & _ & ->). cbn [drawn app].
  rewrite length_app, length_quote_ops. cbn. lia.
Qed.

Lemma max_chars_value (env : environment) :
  binary64_rounding (env_fl env) -> max_chars env = 44.
Proof.
  intros Hfl. unfold max_chars, WINDOW_WIDTH, avg_char_width.
  set (x := env_fl env (inject_Z (900 - 100) / inject_Z 18)).
  assert (Hlo : (inject_Z 44 <= x)%Q).
  { apply fl_ge_integer; [done|lia|]. rewrite <- (Qdiv_1 44). apply Zdiv_Qle; lia. }
  assert (Hhi : (x <= inject_Z 89 / inject_Z (2 ^ Z.of_nat 1))%Q).
  { apply fl_le_dyadic; [done|lia|]. apply Zdiv_Qle; lia. }
  rewrite py_int_floor.
  - apply Z.le_antisymm.
    + apply Qfloor_resp_le in Hhi. exact Hhi.
    + apply Qfloor_resp_le in Hlo. by rewrite Qfloor_Z in Hlo.
  - eapply Qle_trans; [|exact Hlo]. done.
Qed.

Lemma process_image_Some_inv (env : environment) (image_data : list byte)
    (text author : string) (w w' : world) (f : frame) :
  process_image env image_data (PyStr text) (PyStr author) w = (inr (Some f), w') ->
  exists font_large font_small text_lines,
    (forall w0, fst (resolve_fonts env w0) = inr (Some font_large, font_small)) /\
    wrap (max_chars env) text = inr text_lines /\
    let start_y :=
      half (WINDOW_HEIGHT
            - block_height env (Some font_large) font_small text_lines author) in
    frame_ops f
    = quote_ops env (Some font_large) text_lines start_y
      ++ author_ops env font_small author
           (fold_left (fun y line =>
                         (y + inject_Z (line_height env (Some font_large) line))%Q)
              text_lines start_y).
Proof.
  rewrite process_image_unfold, process_image_try_unfold. unfold Image_open.
  destruct (env_image_open env image_data) as [[iw ih]|]; [|done].
  destruct (scale_and_crop env image_data (Image iw ih [])) as [e|img1] eqn:Es; [done|].
  destruct (resolve_fonts_spec env w) as (l & s & w1 & -> & _ & _ & _ & Hf).
  destruct (wrap (max_chars env) text) as [e|text_lines]; [done|].
  rewrite draw_text_block_spec. intros [= <- _].
  exists l, s, text_lines. split; [done|]. split; [done|]. cbn.
  destruct (scale_and_crop_size _ _ _ _ Es) as (_ & _ & ->). done.
Qed.

(** Once the image is opened, scaled and cropped, composition returns a
    frame, for every quote and author that are strings. *)
Lemma process_image_succeeds (env : environment) (image_data : list byte)
    (text author : string) (w : world) :
  binary64_rounding (env_fl env) ->
  image_is_prepared env image_data ->
  exists f w', process_image env image_data (PyStr text) (PyStr author) w = (inr (Some f), w').
Proof.
  intros Hfl (img & out & Ho & Hs).
  rewrite process_image_unfold, process_image_try_unfold, Ho, Hs.
  destruct (resolve_fonts_spec env w) as (l & s & w1 & -> & _).
  destruct (wrap_total (max_chars env) text) as [text_lines ->].
  { rewrite max_chars_value; [lia|done]. }
  rewrite draw_text_block_spec. eauto.
Qed.

(** Conversely, a frame is returned only for an image that was opened,
    scaled and cropped. *)
Lemma process_image_Some_prepared (env : environment) (image_data : list byte)
    (text author : pyval) (w : world) (f : frame) :
  fst (process_image env image_data text author w) = inr (Some f) ->
  image_is_prepared env image_data.
Proof.
  rewrite process_image_unfold.
  unfold process_image_try, mbind, M_bind, lift, image_is_prepared.
  destruct (Image_open env image_data) as [e|img0]; [done|].
  destruct (scale_and_crop env image_data img0) as [e|img1] eqn:Es; [done|].
  intros _. by exists img0, img1.
Qed.

(** ** C1: scale to cover, crop around the centre *)

Lemma crop_box_centred (new_width new_height : Z) :
  let '(left_, top, right_, bottom) := crop_box new_width new_height in
  (left_ == inject_Z new_width - right_)%Q /\
  (top == inject_Z new_height - bottom)%Q /\
  (right_ - left_ == inject_Z WINDOW_WIDTH)%Q /\
  (bottom - top == inject_Z WINDOW_HEIGHT)%Q.
Proof.
  cbv beta zeta iota delta [crop_box half WINDOW_WIDTH WINDOW_HEIGHT Z.sub].
  rewrite !inject_Z_plus.
  change (inject_Z (- (900))) with (-900 # 1)%Q. change (inject_Z 900) with (900 # 1)%Q.
  change (inject_Z (- (600))) with (-600 # 1)%Q. change (inject_Z 600) with (600 # 1)%Q.
  repeat split; field.
Qed.

(** C1, as the code has it.  For an image of [w] x [h] pixels (both positive
    and below 2^31), the size to scale to covers the window on both axes:
    the window height is taken when [w / h > 900 / 600] and the window width
    otherwise, and neither side is smaller than the window's; the crop box
    is centred on both axes.  When Pillow can make an image of that size
    from the data, [resize] returns an image of exactly that size, it is
    that image which is cropped, and the result is exactly 900 x 600.  When
    Pillow cannot (the pixel data does not decode, a side does not fit a C
    int, or the memory is not there) the step raises. *)
Theorem scale_then_crop_fills_window (env : environment) (image_data : list byte)
    (img : image) :
  binary64_rounding (env_fl env) ->
  0 < width img < 2 ^ 31 -> 0 < height img < 2 ^ 31 ->
  exists new_width new_height,
    cover_size env img = inr (new_width, new_height) /\
    (if WINDOW_WIDTH * height img <? WINDOW_HEIGHT * width img
     then new_height = WINDOW_HEIGHT else new_width = WINDOW_WIDTH) /\
    WINDOW_WIDTH <= new_width /\ WINDOW_HEIGHT <= new_height /\
    (let '(left_, top, right_, bottom) := crop_box new_width new_height in
     (left_ == inject_Z new_width - right_)%Q /\
     (top == inject_Z new_height - bottom)%Q /\
     (right_ - left_ == inject_Z WINDOW_WIDTH)%Q /\
     (bottom - top == inject_Z WINDOW_HEIGHT)%Q) /\
    (can_resize env image_data (new_width, new_height) ->
     exists scaled out,
       resize env image_data img (new_width, new_height) = inr scaled /\
       width scaled = new_width /\ height scaled = new_height /\
       crop scaled (crop_box new_width new_height) = inr out /\
       scale_and_crop env image_data img = inr out /\
       width out = WINDOW_WIDTH /\ height out = WINDOW_HEIGHT) /\
    (~ can_resize env image_data (new_width, new_height) ->
     exists e, scale_and_crop env image_data img = inl e).
Proof.
  intros Hfl Hw Hh.
  destruct (cover_size_covers env img Hfl Hw Hh) as (nw & nh & E & Hax & Hnw & Hnh).
  exists nw, nh.
  split; [exact E|]. split; [exact Hax|]. split; [exact Hnw|]. split; [exact Hnh|].
  split; [apply crop_box_centred|]. unfold WINDOW_WIDTH, WINDOW_HEIGHT in Hnw, Hnh. split.
  - intros Hres.
    pose proof (resize_succeeds env image_data img nw nh Hres ltac:(lia) ltac:(lia)) as Hr.
    destruct (crop_size (Image nw nh (drawn img)) nw nh) as (out & Hc & Hwo & Hho & _).
    exists (Image nw nh (drawn img)), out.
    split; [exact Hr|]. split; [reflexivity|]. split; [reflexivity|]. split; [exact Hc|].
    unfold scale_and_crop. rewrite E, Hr. by repeat split.
  - intros Hres. destruct (resize_fails env image_data img nw nh Hres) as [e He].
    exists e. unfold scale_and_crop. by rewrite E, He.
Qed.

Lemma scale_then_crop_fills_window_witness :
  exists scaled out,
    resize (sample_env 200 None) one_pixel_png (Image 1920 1080 []) (1066, 600) = inr scaled /\
    width scaled = 1066 /\ height scaled = 600 /\
    crop scaled (crop_box 1066 600) = inr out /\
    scale_and_crop (sample_env 200 None) one_pixel_png (Image 1920 1080 []) = inr out /\
    width out = WINDOW_WIDTH /\ height out = WINDOW_HEIGHT.
Proof.
  destruct (scale_then_crop_fills_window (sample_env 200 None) one_pixel_png
              (Image 1920 1080 []))
    as (nw & nh & E & _ & _ & _ & _ & H & _);
    [apply binary64_is_rounding | cbn; lia | cbn; lia |].
  vm_compute in E. injection E as <- <-.
  apply H. vm_compute. repeat split; discriminate.
Defined.

(** C1 as stated fails for a decodable image that is long and thin: a strip
    of 4000000 x 1 pixels is to be scaled to 2400000000 x 600, a width that
    does not fit a C int; [resize] raises, nothing is cropped, and
    composition returns [None]. *)
Lemma extreme_ratio_image_is_not_scaled :
  let env := panorama_env in
  Image_open env one_pixel_png = inr (Image 4000000 1 []) /\
  cover_size env (Image 4000000 1 []) = inr (2400000000, 600) /\
  resize env one_pixel_png (Image 4000000 1 []) (2400000000, 600) = inl OverflowError /\
  scale_and_crop env one_pixel_png (Image 4000000 1 []) = inl OverflowError /\
  fst (process_image env one_pixel_png (PyStr "Carpe diem") (PyStr "Horace") empty_world)
  = inr None.
Proof. vm_compute. repeat split. Qed.

(** ** C3: a word longer than the line *)

(** C3, as the code has it.  [TextWrapper(width=max_chars)] keeps
    [break_long_words] on: a quote that is one word (no white space) of more
    than [max_chars] characters is cut into two or more lines of at most
    [max_chars] characters each, which put end to end give the word back
    (nothing is inserted, no hyphen either). *)
Theorem long_word_is_broken (env : environment) (word : string) :
  binary64_rounding (env_fl env) ->
  spaceless (list_ascii_of_string word) ->
  max_chars env < Z.of_nat (String.length word) ->
  max_chars env = 44 /\
  exists text_lines,
    wrap (max_chars env) word = inr text_lines /\
    (2 <= length text_lines)%nat /\
    Forall (fun line => Z.of_nat (String.length line) <= max_chars env) text_lines /\
    String.concat "" text_lines = word.
Proof.
  intros Hfl Hs Hlen. pose proof (max_chars_value env Hfl) as Hm. split; [exact Hm|].
  destruct (wrap_spaceless (max_chars env) word) as (text_lines & Hw & Hall & Hc);
    [lia|done|].
  exists text_lines. repeat split; try done.
  destruct text_lines as [|l1 [|l2 rest]]; cbn [length]; [| |lia].
  - cbn in Hc. subst word. cbn in Hlen. lia.
  - cbn in Hc. subst word. apply Forall_cons in Hall as [Hl _]. lia.
Qed.

Lemma long_word_is_broken_witness :
  max_chars (sample_env 200 None) = 44 /\
  exists text_lines,
    wrap (max_chars (sample_env 200 None)) long_word = inr text_lines /\
    (2 <= length text_lines)%nat /\
    Forall (fun line => Z.of_nat (String.length line) <= max_chars (sample_env 200 None))
           text_lines /\
    String.concat "" text_lines = long_word.
Proof.
  apply (long_word_is_broken (sample_env 200 None) long_word).
  - apply binary64_is_rounding.
  - unfold spaceless, long_word. cbn [list_ascii_of_string]. repeat constructor.
  - vm_compute. reflexivity.
Defined.

(** C3 as stated fails: the 45-letter word does not stay on one line; its
    last letter goes to a second line. *)
Lemma long_word_is_not_left_unsplit :
  max_chars (sample_env 200 None) = 44 /\
  String.length long_word = 45%nat /\
  wrap (max_chars (sample_env 200 None)) long_word
  = inr ["aaaaaaaaaaaaaaaaaaaaaaaaaaaaaaaaaaaaaaaaaaaa"; "a"] /\
  wrap (max_chars (sample_env 200 None)) long_word <> inr [long_word].
Proof. vm_compute. repeat split. discriminate. Qed.

(** ** C4: an empty quote *)

(** C4, as the code has it.  For the empty quote, [wrap] returns no line at
    all, and composition does not raise.  When the image has been opened,
    scaled and cropped, composition returns a frame; the block height is the
    author's height plus its gap of 30; and only the author line is drawn. *)
Theorem empty_quote_draws_author_only (env : environment) (image_data : list byte)
    (author : string) (w : world) :
  binary64_rounding (env_fl env) ->
  wrap (max_chars env) "" = inr [] /\
  (exists r w', process_image env image_data (PyStr "") (PyStr author) w = (inr r, w')) /\
  (image_is_prepared env image_data ->
   exists f w' font_large font_small,
     process_image env image_data (PyStr "") (PyStr author) w = (inr (Some f), w') /\
     fst (resolve_fonts env w) = inr (Some font_large, font_small) /\
     block_height env (Some font_large) font_small [] author
     = snd (get_text_size env font_small author) + 30 /\
     frame_ops f
     = author_ops env font_small author
         (half (WINDOW_HEIGHT - (snd (get_text_size env font_small author) + 30)))).
Proof.
  intros Hfl.
  assert (Hwrap : wrap (max_chars env) "" = inr []).
  { rewrite (max_chars_value env Hfl). reflexivity. }
  split; [exact Hwrap|]. split.
  { rewrite process_image_unfold.
    destruct (process_image_try env image_data (PyStr "") (PyStr author) w) as [[e|f] w'];
      eauto. }
  intros Hprep.
  destruct (process_image_succeeds env image_data "" author w Hfl Hprep) as (f & w' & Hp).
  destruct (process_image_Some_inv _ _ _ _ _ _ _ Hp)
    as (font_large & font_small & text_lines & Hfonts & Hwrap' & Hops).
  rewrite Hwrap in Hwrap'. injection Hwrap' as <-.
  exists f, w', font_large, font_small. split; [exact Hp|]. split; [apply Hfonts|].
  assert (Hb : block_height env (Some font_large) font_small [] author
               = snd (get_text_size env font_small author) + 30).
  { rewrite block_height_spec. cbn. lia. }
  split; [exact Hb|]. cbv zeta in Hops. rewrite Hb in Hops. exact Hops.
Qed.

Lemma empty_quote_draws_author_only_witness :
  exists f w' font_large font_small,
    process_image (sample_env 200 None) one_pixel_png (PyStr "") (PyStr "Horace") empty_world
    = (inr (Some f), w') /\
    fst (resolve_fonts (sample_env 200 None) empty_world) = inr (Some font_large, font_small) /\
    block_height (sample_env 200 None) (Some font_large) font_small [] "Horace"
    = snd (get_text_size (sample_env 200 None) font_small "Horace") + 30 /\
    frame_ops f
    = author_ops (sample_env 200 None) font_small "Horace"
        (half (WINDOW_HEIGHT
               - (snd (get_text_size (sample_env 200 None) font_small "Horace") + 30))).
Proof.
  apply (empty_quote_draws_author_only (sample_env 200 None) one_pixel_png "Horace"
           empty_world binary64_is_rounding).
  exists (Image 1920 1080 []), (Image 900 600 []). split; vm_compute; reflexivity.
Defined.

(** C4 as stated fails in one point: wrapping the empty quote gives no line,
    not one empty line. *)
Lemma empty_quote_wraps_to_no_line :
  wrap (max_chars (sample_env 200 None)) "" = inr [] /\
  wrap (max_chars (sample_env 200 None)) "" <> inr [""] /\
  forall text_lines,
    wrap (max_chars (sample_env 200 None)) "" = inr text_lines ->
    length text_lines <> 1%nat.
Proof.
  assert (E : wrap (max_chars (sample_env 200 None)) "" = inr []) by (vm_compute; reflexivity).
  rewrite E. repeat split; [discriminate|]. intros text_lines [= <-]. discriminate.
Qed.

(** ** C7: font resolution *)

(** A candidate that loads at size 36 but not at size 24 leaves its large
    font behind: when no other candidate loads, the built-in font is not
    substituted, and the small font stays [None], for which Pillow draws
    with its built-in font. *)
Remark fonts_after_half_loaded_candidate (env : environment) (w : world)
    (before after : list string) (path : string) :
  font_candidates = before ++ path :: after ->
  (forall p, In p (before ++ after) -> env_font_loads env p 36 = false) ->
  env_font_loads env path 36 = true -> env_font_loads env path 24 = false ->
  fst (resolve_fonts env w) = inr (Some (TrueTypeFont path 36), None).
Proof.
  intros Hc Ho H36 H24. rewrite resolve_fonts_unfold, Hc.
  assert (E : load_fonts env (before ++ path :: after) None None
              = inr (Some (TrueTypeFont path 36), None)).
  { assert (Hb : forall p, In p before -> env_font_loads env p 36 = false)
      by (intros p Hp; apply Ho, in_or_app; auto).
    assert (Ha : forall p, In p after -> env_font_loads env p 36 = false)
      by (intros p Hp; apply Ho, in_or_app; auto).
    clear Ho Hc. induction before as [|p before IH].
    - cbn. unfold truetype at 1 2. rewrite H36, H24. by apply load_fonts_none.
    - cbn [app load_fonts]. unfold truetype at 1. rewrite (Hb p (or_introl eq_refl)).
      apply IH. intros q Hq. apply Hb. by right. }
  by rewrite E.
Qed.

(** C7.  Font resolution never raises and always yields a large font.  The
    candidates are tried in the listed order and the first one that loads
    (at both sizes) supplies both fonts.  If no candidate loads at all, the
    built-in default is used for both.  Font resolution does not make
    composition fail: whatever the installed fonts are, composition returns
    a frame once the image has been opened, scaled and cropped. *)
Theorem font_resolution_is_total (env : environment) (w : world) :
  (exists font_large font_small w',
     resolve_fonts env w = (inr (Some font_large, font_small), w')) /\
  (forall before path after,
     font_candidates = before ++ path :: after ->
     (forall p, In p before ->
                env_font_loads env p 36 = false \/ env_font_loads env p 24 = false) ->
     env_font_loads env path 36 = true -> env_font_loads env path 24 = true ->
     fst (resolve_fonts env w)
     = inr (Some (TrueTypeFont path 36), Some (TrueTypeFont path 24))) /\
  ((forall p size, In p font_candidates -> env_font_loads env p size = false) ->
   fst (resolve_fonts env w) = inr (Some DefaultFont, Some DefaultFont)) /\
  (forall image_data text author,
     binary64_rounding (env_fl env) ->
     image_is_prepared env image_data ->
     exists f w',
       process_image env image_data (PyStr text) (PyStr author) w = (inr (Some f), w')).
Proof.
  split; [|split; [|split]].
  - destruct (resolve_fonts_spec env w) as (l & s & w' & E & _). eauto.
  - intros before path after Hc Hb H36 H24.
    rewrite resolve_fonts_unfold, Hc, (load_fonts_first env before after path); done.
  - intros Hnone. rewrite resolve_fonts_unfold, load_fonts_none; [done|].
    intros p Hp. by apply Hnone.
  - intros image_data text author Hfl Hprep.
    by apply (process_image_succeeds env image_data text author w).
Qed.

Lemma font_resolution_is_total_witness :
  fst (resolve_fonts (sample_env 200 None) empty_world)
  = inr (Some (TrueTypeFont "/usr/share/fonts/truetype/dejavu/DejaVuSans-Bold.ttf" 36),
         Some (TrueTypeFont "/usr/share/fonts/truetype/dejavu/DejaVuSans-Bold.ttf" 24)) /\
  fst (resolve_fonts offline_env empty_world) = inr (Some DefaultFont, Some DefaultFont) /\
  exists f w',
    process_image primary_503_env one_pixel_png (PyStr "Carpe diem") (PyStr "Horace")
      empty_world = (inr (Some f), w').
Proof.
  split; [|split].
  - apply (proj1 (proj2 (font_resolution_is_total (sample_env 200 None) empty_world))
             (firstn 6 font_candidates)
             "/usr/share/fonts/truetype/dejavu/DejaVuSans-Bold.ttf"
             (skipn 7 font_candidates)); [reflexivity| |reflexivity|reflexivity].
    intros p Hp. left. cbn in Hp.
    repeat (destruct Hp as [<-|Hp]; [reflexivity|]). destruct Hp.
  - apply (proj1 (proj2 (proj2 (font_resolution_is_total offline_env empty_world)))).
    reflexivity.
  - apply (proj2 (proj2 (proj2 (font_resolution_is_total primary_503_env empty_world)))
             one_pixel_png "Carpe diem" "Horace" binary64_is_rounding).
    exists (Image 1920 1080 []), (Image 900 600 []). split; vm_compute; reflexivity.
Defined.

(** ** C6: a frame is displayed whole or not at all *)

Lemma fetch_quote_display (env : environment) (w : world) :
  exists q w', fetch_quote env w = (inr q, w') /\ same_display w w'.
Proof.
  rewrite fetch_quote_unfold, fetch_quote_try_unfold. cbv zeta.
  destruct (env_get env QUOTE_API_URL 5) as [r|]; [|by eexists _, _].
  destruct (status_code r =? 200); [|by eexists _, _].
  destruct (json_body r) as [v|]; [|by eexists _, _].
  destruct v as [| | | | |l|d]; try (by eexists _, _).
  destruct l as [|x l]; [by eexists _, _|].
  destruct x; by eexists _, _.
Qed.

Lemma fetch_image_display (env : environment) (keyword : string) (w : world) :
  exists r w', fetch_image env keyword w = (inr r, w') /\ same_display w w'.
Proof.
  rewrite fetch_image_unfold. cbv zeta.
  destruct (env_get env _ 10) as [r1|]; [|by eexists _, _].
  destruct (status_code r1 =? 200); [by eexists _, _|].
  destruct (env_get env _ 10) as [r2|]; [|by eexists _, _].
  destruct (status_code r2 =? 200); by eexists _, _.
Qed.

(** [process_image] returns, with the display as it was; a frame it returns
    is complete and has the size of the window. *)
Lemma process_image_spec (env : environment) (image_data : list byte)
    (text author : pyval) (w : world) :
  exists r w',
    process_image env image_data text author w = (inr r, w') /\
    same_display w w' /\
    match r with
    | Some f => complete_frame env text author f
    | None => True
    end.
Proof.
  rewrite process_image_unfold.
  pose proof (process_image_try_display env image_data text author w) as Hd.
  pose proof (process_image_try_size env image_data text author w) as Hs.
  pose proof (process_image_try_complete env image_data text author w) as Hc.
  destruct (process_image_try env image_data text author w) as [[e|f] w'].
  - eexists _, _. split; [reflexivity|]. split; [exact Hd|done].
  - eexists _, _. split; [reflexivity|]. split; [exact Hd|].
    destruct (Hs w' f eq_refl) as [Hw Hh]. split; [exact Hw|]. split; [exact Hh|].
    by apply (Hc w').
Qed.

Lemma load_content_unfold (env : environment) (w : world) :
  load_content env w =
  let failed (e : exn) (w' : world) : (exn + unit) * world :=
    (inr tt,
     World (w_log w' ++ [(ERROR, "Error in load_content: " +:+ exn_name e)])
           (w_requests w') (w_current_image w') (w_canvas w')) in
  match fetch_quote env w with
  | (inl e, w1) => failed e w1
  | (inr (quote_text, quote_author), w1) =>
    match fetch_image env SEARCH_KEYWORD w1 with
    | (inl e, w2) => failed e w2
    | (inr (Some (b :: data)), w2) =>
      match process_image env (b :: data) quote_text quote_author w2 with
      | (inl e, w3) => failed e w3
      | (inr final_image, w3) => update_ui final_image w3
      end
    | (inr _, w2) =>
      (inr tt,
       World (w_log w2 ++ [(ERROR, "Failed to fetch image data.")])
             (w_requests w2) (w_current_image w2) (w_canvas w2))
    end
  end.
Proof.
  unfold load_content, try_except, mbind, M_bind. cbv zeta.
  destruct (fetch_quote env w) as [[e|[qt qa]] w1]; [reflexivity|].
  destruct (fetch_image env SEARCH_KEYWORD w1) as [[e|[[|b data]|]] w2]; try reflexivity.
  destruct (process_image env (b :: data) qt qa w2) as [[e|fi] w3]; [reflexivity|].
  destruct fi; reflexivity.
Qed.

Lemma same_display_trans (w1 w2 w3 : world) :
  same_display w1 w2 -> same_display w2 w3 -> same_display w1 w3.
Proof. unfold same_display. intros [-> ->] [-> ->]. done. Qed.

(** C6.  [process_image] never raises: it returns either a complete frame
    of the size of the window or [None], and does not touch the display.
    [update_ui] with [None] does nothing.  A cycle never raises, and it
    leaves the display as it was unless it shows one complete window-sized
    frame; it leaves the display as it was whenever the image fetch or the
    composition returned [None]. *)
Theorem composition_is_atomic (env : environment) (image_data : list byte)
    (text author : pyval) (w : world) :
  (exists r w',
     process_image env image_data text author w = (inr r, w') /\
     same_display w w' /\
     match r with
     | Some f => complete_frame env text author f
     | None => True
     end) /\
  update_ui None w = (inr tt, w) /\
  (exists w',
     load_content env w = (inr tt, w') /\
     (same_display w w' \/
      exists f quote name,
        complete_frame env quote name f /\
        w_current_image w' = Some f /\ w_canvas w' = w_canvas w ++ [f])) /\
  (forall q w1 w2,
     fetch_quote env w = (inr q, w1) ->
     fetch_image env SEARCH_KEYWORD w1 = (inr None, w2) ->
     same_display w (snd (load_content env w))) /\
  (forall q w1 data w2 w3,
     fetch_quote env w = (inr q, w1) ->
     fetch_image env SEARCH_KEYWORD w1 = (inr (Some data), w2) ->
     process_image env data (fst q) (snd q) w2 = (inr None, w3) ->
     same_display w (snd (load_content env w))).
Proof.
  split; [apply process_image_spec|]. split; [reflexivity|].
  split; [|split].
  - rewrite load_content_unfold. cbv zeta.
    destruct (fetch_quote_display env w) as ([qt qa] & w1 & -> & H1).
    destruct (fetch_image_display env SEARCH_KEYWORD w1) as (r & w2 & -> & H2).
    pose proof (same_display_trans _ _ _ H1 H2) as H12.
    destruct r as [[|b data]|]; try (eexists; split; [reflexivity|left; exact H12]).
    destruct (process_image_spec env (b :: data) qt qa w2) as (fi & w3 & -> & H3 & Hf).
    pose proof (same_display_trans _ _ _ H12 H3) as [Hc Hv].
    destruct fi as [f|]; cbn.
    + eexists. split; [reflexivity|]. right. exists f, qt, qa. cbn. rewrite Hv. tauto.
    + eexists. split; [reflexivity|]. left. done.
  - intros q w1 w2 Hq Hi. rewrite load_content_unfold, Hq. cbv zeta. destruct q as [qt qa].
    rewrite Hi. cbn.
    destruct (fetch_quote_display env w) as (q' & w1' & Hq' & H1).
    destruct (fetch_image_display env SEARCH_KEYWORD w1) as (r & w2' & Hi' & H2).
    rewrite Hq in Hq'. injection Hq' as <- <-. rewrite Hi in Hi'. injection Hi' as <- <-.
    exact (same_display_trans _ _ _ H1 H2).
  - intros q w1 data w2 w3 Hq Hi Hp. rewrite load_content_unfold, Hq. cbv zeta.
    destruct q as [qt qa]. rewrite Hi. cbn [fst snd] in Hp.
    destruct (fetch_quote_display env w) as (q' & w1' & Hq' & H1).
    destruct (fetch_image_display env SEARCH_KEYWORD w1) as (r & w2' & Hi' & H2).
    rewrite Hq in Hq'. injection Hq' as <- <-. rewrite Hi in Hi'. injection Hi' as <- <-.
    pose proof (same_display_trans _ _ _ H1 H2) as H12.
    destruct data as [|b data]; [exact H12|].
    destruct (process_image_spec env (b :: data) qt qa w2) as (fi & w3' & Hp' & H3 & _).
    rewrite Hp. rewrite Hp in Hp'. injection Hp' as <- <-. cbn.
    exact (same_display_trans _ _ _ H12 H3).
Qed.

Lemma composition_is_atomic_witness :
  same_display empty_world (snd (load_content primary_down_env empty_world)) /\
  same_display empty_world (snd (load_content offline_env empty_world)) /\
  same_display empty_world (snd (load_content bad_image_env empty_world)).
Proof.
  split; [|split].
  - destruct (composition_is_atomic primary_down_env [] PyNone PyNone empty_world)
      as (_ & _ & _ & H & _).
    apply (H OFFLINE_QUOTE
             (snd (fetch_quote primary_down_env empty_world))
             (snd (fetch_image primary_down_env SEARCH_KEYWORD
                     (snd (fetch_quote primary_down_env empty_world)))));
      reflexivity.
  - destruct (composition_is_atomic offline_env [] PyNone PyNone empty_world)
      as (_ & _ & _ & H & _).
    apply (H OFFLINE_QUOTE
             (snd (fetch_quote offline_env empty_world))
             (snd (fetch_image offline_env SEARCH_KEYWORD
                     (snd (fetch_quote offline_env empty_world)))));
      reflexivity.
  - destruct (composition_is_atomic bad_image_env [] PyNone PyNone empty_world)
      as (_ & _ & _ & _ & H).
    apply (H (PyStr "Life is what happens when you are busy making other plans.",
              PyStr "John Lennon")
             (snd (fetch_quote bad_image_env empty_world))
             [x3c; x68; x74; x6d; x6c; x3e]
             (snd (fetch_image bad_image_env SEARCH_KEYWORD
                     (snd (fetch_quote bad_image_env empty_world))))
             (snd (load_content bad_image_env empty_world)));
      vm_compute; reflexivity.
Defined.

(** ** C8 and C10: where the text block is drawn *)

Lemma heights_before_total (env : environment) (f : option font) (text_lines : list string)
    (k : nat) :
  heights_before env f text_lines k = total (padded_heights env f (take k text_lines)).
Proof.
  revert k. induction text_lines as [|line rest IH]; intros k.
  - by destruct k.
  - destruct k as [|k]; [done|].
    cbn [heights_before take padded_heights map total fold_right].
    rewrite IH. reflexivity.
Qed.

Lemma block_height_total (env : environment) (font_large font_small : option font)
    (text_lines : list string) (author : string) :
  block_height env font_large font_small text_lines author
  = total (padded_heights env font_large text_lines)
    + (snd (get_text_size env font_small author) + 30).
Proof.
  rewrite block_height_spec, heights_before_total, firstn_all. reflexivity.
Qed.

Lemma process_image_fst_inv (env : environment) (image_data : list byte)
    (text author : string) (w : world) (f : frame) :
  fst (process_image env image_data (PyStr text) (PyStr author) w) = inr (Some f) ->
  exists font_large font_small text_lines,
    fst (resolve_fonts env w) = inr (Some font_large, font_small) /\
    wrap (max_chars env) text = inr text_lines /\
    let start_y :=
      half (WINDOW_HEIGHT
            - block_height env (Some font_large) font_small text_lines author) in
    frame_ops f
    = quote_ops env (Some font_large) text_lines start_y
      ++ author_ops env font_small author
           (fold_left (fun y line =>
                         (y + inject_Z (line_height env (Some font_large) line))%Q)
              text_lines start_y).
Proof.
  destruct (process_image env image_data (PyStr text) (PyStr author) w) as [r w'] eqn:E.
  cbn [fst]. intros ->.
  destruct (process_image_Some_inv _ _ _ _ _ _ _ E) as (l & s & tl & H1 & H2 & H3).
  exists l, s, tl. split; [apply H1|]. split; [exact H2|exact H3].
Qed.

(** C8.  On every frame that [process_image] returns: the total height of
    the block, as the code computes it, is the sum over the wrapped lines
    of the bounding-box height plus 10, plus the height of the author and
    30; the block starts at ordinate [(WINDOW_HEIGHT - total_height) / 2];
    and line [k] of the wrapped quote is drawn at abscissa
    [(WINDOW_WIDTH - w) / 2], [w] being its measured width, and at the start
    ordinate plus, for each line before it, its bounding-box height plus
    10. *)
Theorem text_block_is_centred (env : environment) (image_data : list byte)
    (text author : string) (w : world) (f : frame) :
  fst (process_image env image_data (PyStr text) (PyStr author) w) = inr (Some f) ->
  exists font_large font_small text_lines,
    fst (resolve_fonts env w) = inr (Some font_large, font_small) /\
    wrap (max_chars env) text = inr text_lines /\
    let total_height :=
      total (map (fun line => snd (get_text_size env (Some font_large) line) + 10)
               text_lines)
      + (snd (get_text_size env font_small author) + 30) in
    block_height env (Some font_large) font_small text_lines author = total_height /\
    quote_lines_centred env (Some font_large) text_lines
      (half (WINDOW_HEIGHT - total_height)) f.
Proof.
  intros H.
  destruct (process_image_fst_inv _ _ _ _ _ _ H) as (l & s & tl & H1 & H2 & H3).
  exists l, s, tl. split; [exact H1|]. split; [exact H2|].
  cbv zeta in *. fold (padded_heights env (Some l) tl).
  pose proof (block_height_total env (Some l) s tl author) as Hb.
  split; [exact Hb|]. rewrite <- Hb.
  intros k line Hk.
  destruct (quote_ops_lookup env (Some l) tl
              (half (WINDOW_HEIGHT - block_height env (Some l) s tl author)) k line Hk)
    as (shadow & op & Hs & Ho & Ht & _ & Hts & _ & Hx & Hy & Hsx & Hsy).
  assert (Hlen : (2 * k + 1 < length (quote_ops env (Some l) tl
                   (half (WINDOW_HEIGHT - block_height env (Some l) s tl author))))%nat).
  { rewrite length_quote_ops. apply lookup_lt_Some in Hk. lia. }
  exists shadow, op. rewrite H3, !lookup_app_l by lia.
  split; [exact Hs|]. split; [exact Ho|]. split; [exact Ht|]. split; [exact Hts|].
  split; [exact Hx|]. split; [by rewrite <- heights_before_total|].
  split; [exact Hsx|exact Hsy].
Qed.

Lemma text_block_is_centred_witness :
  exists font_large font_small text_lines,
    fst (resolve_fonts (sample_env 200 None) empty_world)
    = inr (Some font_large, font_small) /\
    wrap (max_chars (sample_env 200 None)) "Carpe diem" = inr text_lines /\
    let total_height :=
      total (map (fun line =>
                    snd (get_text_size (sample_env 200 None) (Some font_large) line) + 10)
               text_lines)
      + (snd (get_text_size (sample_env 200 None) font_small "Horace") + 30) in
    block_height (sample_env 200 None) (Some font_large) font_small text_lines "Horace"
    = total_height /\
    quote_lines_centred (sample_env 200 None) (Some font_large) text_lines
      (half (WINDOW_HEIGHT - total_height)) (sample_frame "Carpe diem" "Horace").
Proof.
  apply (text_block_is_centred (sample_env 200 None) one_pixel_png "Carpe diem" "Horace"
           empty_world (sample_frame "Carpe diem" "Horace")).
  vm_compute. reflexivity.
Defined.

Lemma half_zero_iff (n : Z) : (half n == 0)%Q <-> n = 0.
Proof.
  unfold half. split.
  - intros H. unfold Qeq in H. cbn in H. lia.
  - intros ->. reflexivity.
Qed.

(** C10, as the code has it.  [total_height] counts the height of [author]
    and a gap of 30, while the author line, which is the string [- author],
    is drawn 20 below the quote lines: 10 above the place that
    [total_height] leaves for it.  What rows the ink covers depends on the
    bounding boxes: from the top of the first quote line to the bottom of
    the author line there are [total_height - 10 + (y1d - ah - y0f)] rows,
    and they number [total_height - 10], with their middle 5 above the
    middle of the window, exactly when the box of the first line starts at
    the origin ([y0f = 0]) and that of [- author] ends at the measured
    height of [author] ([y1d = ah]). *)
Theorem author_gap_is_ten_short (env : environment) (image_data : list byte)
    (text author : string) (w : world) (f : frame) :
  fst (process_image env image_data (PyStr text) (PyStr author) w) = inr (Some f) ->
  exists font_large font_small text_lines,
    fst (resolve_fonts env w) = inr (Some font_large, font_small) /\
    wrap (max_chars env) text = inr text_lines /\
    author_line_span env (Some font_large) font_small text_lines author f.
Proof.
  intros H.
  destruct (process_image_fst_inv _ _ _ _ _ _ H) as (l & s & tl & H1 & H2 & H3).
  exists l, s, tl. split; [exact H1|]. split; [exact H2|].
  unfold author_line_span. cbv zeta in *.
  pose proof (block_height_total env (Some l) s tl author) as Hb.
  rewrite Hb in H3.
  set (quote_height := total (padded_heights env (Some l) tl)) in *.
  set (ah := snd (get_text_size env s author)) in *.
  set (start_y := half (WINDOW_HEIGHT - (quote_height + (ah + 30)))) in *.
  pose proof (fold_heights env (Some l) tl start_y) as Hy.
  rewrite heights_before_total, firstn_all in Hy. fold quote_height in Hy.
  unfold author_ops in H3.
  eexists. split; [rewrite H3, last_app; reflexivity|].
  cbn [op_text op_xy snd]. split; [reflexivity|]. split; [exact Hb|].
  split; [by rewrite Hy|].
  assert (Hya : (fold_left (fun y line =>
                              (y + inject_Z (line_height env (Some l) line))%Q) tl start_y
                 + 20 == start_y + inject_Z (quote_height + (ah + 30) - ah - 10))%Q).
  { rewrite Hy. unfold Z.sub. rewrite !inject_Z_plus, !inject_Z_opp.
    change (inject_Z 30) with 30%Q. change (inject_Z 10) with 10%Q. ring. }
  split; [exact Hya|].
  intros line0 rest -> Hbbox.
  cbn [quote_ops line_ops app] in H3. unfold line_ops in H3. cbn [app] in H3.
  eexists. split; [rewrite H3; reflexivity|]. split; [reflexivity|].
  unfold ink_top, ink_bottom. cbn [op_font op_text op_xy snd].
  destruct (env_textbbox env (Some l) line0) as [[[x0f y0f] x1f] y1f].
  destruct (env_textbbox env s ("- " +:+ author)) as [[[x0d y0d] x1d] y1d].
  set (ya := (fold_left (fun y line => (y + inject_Z (line_height env (Some l) line))%Q)
                (line0 :: rest) start_y + 20)%Q) in *.
  assert (Hbot : (ya + inject_Z y1d
                  == start_y + inject_Z (quote_height + (ah + 30) - ah - 10 + y1d))%Q).
  { rewrite Hya. rewrite (inject_Z_plus _ y1d). ring. }
  assert (Hspan : (ya + inject_Z y1d - (start_y + inject_Z y0f)
                   == inject_Z (quote_height + (ah + 30) - 10 + (y1d - ah - y0f)))%Q).
  { rewrite Hbot. unfold Z.sub. rewrite !inject_Z_plus, !inject_Z_opp. ring. }
  assert (Hmid : ((start_y + inject_Z y0f + (ya + inject_Z y1d)) / 2
                  == half WINDOW_HEIGHT - 5 + half (y0f + y1d - ah))%Q).
  { rewrite Hbot. subst start_y. unfold half, WINDOW_HEIGHT, Z.sub.
    repeat (rewrite inject_Z_plus || rewrite inject_Z_opp).
    change (inject_Z 600) with 600%Q. change (inject_Z 30) with 30%Q.
    change (inject_Z 10) with 10%Q. field. }
  split; [reflexivity|]. split; [exact Hbot|]. split; [exact Hspan|]. split; [exact Hmid|].
  rewrite Hspan, Hmid. split.
  - intros [Hs Hm].
    apply (proj1 (inject_Z_injective _ _)) in Hs.
    assert (Hh : (half (y0f + y1d - ah) == 0)%Q).
    { assert (E : (half (y0f + y1d - ah)
                   == half WINDOW_HEIGHT - 5 + half (y0f + y1d - ah)
                      - (half WINDOW_HEIGHT - 5))%Q) by ring.
      rewrite E, Hm. ring. }
    apply (proj1 (half_zero_iff _)) in Hh. lia.
  - intros [-> ->]. split.
    + apply (proj2 (inject_Z_injective _ _)). lia.
    + replace (0 + ah - ah) with 0 by lia.
      assert (E : (half 0 == 0)%Q) by reflexivity.
      rewrite E. ring.
Qed.

Lemma author_gap_is_ten_short_witness :
  exists font_large font_small text_lines,
    fst (resolve_fonts (sample_env 200 None) empty_world)
    = inr (Some font_large, font_small) /\
    wrap (max_chars (sample_env 200 None)) "Carpe diem" = inr text_lines /\
    author_line_span (sample_env 200 None) (Some font_large) font_small text_lines
      "Horace" (sample_frame "Carpe diem" "Horace").
Proof.
  apply (author_gap_is_ten_short (sample_env 200 None) one_pixel_png "Carpe diem" "Horace"
           empty_world (sample_frame "Carpe diem" "Horace")).
  vm_compute. reflexivity.
Defined.

(** C10 as stated fails with the boxes of an outline font.  The quote
    [Carpe diem] by [Horace] gives a frame; the measured heights of [Horace]
    and of [- Horace] agree (18); [total_height] is 93; and yet the ink runs
    over 81 rows from the top of the quote to the bottom of the author
    line, not over [total_height - 10 = 83], and its middle lies at 301, one
    row below the middle of the window, not 5 above. *)
Lemma offset_boxes_span_is_shorter :
  let env := offset_env in
  let font_large := Some (TrueTypeFont "/usr/share/fonts/truetype/dejavu/DejaVuSans-Bold.ttf" 36) in
  let font_small := Some (TrueTypeFont "/usr/share/fonts/truetype/dejavu/DejaVuSans-Bold.ttf" 24) in
  exists f first op,
    fst (process_image env one_pixel_png (PyStr "Carpe diem") (PyStr "Horace") empty_world)
    = inr (Some f) /\
    fst (resolve_fonts env empty_world) = inr (font_large, font_small) /\
    wrap (max_chars env) "Carpe diem" = inr ["Carpe diem"] /\
    frame_ops f !! 1%nat = Some first /\ op_text first = "Carpe diem" /\
    last (frame_ops f) = Some op /\ op_text op = "- Horace" /\
    snd (get_text_size env font_small "Horace") = 18 /\
    snd (get_text_size env font_small "- Horace") = 18 /\
    let total_height := block_height env font_large font_small ["Carpe diem"] "Horace" in
    total_height = 93 /\
    (ink_bottom env op - ink_top env first == 81)%Q /\
    ~ (ink_bottom env op - ink_top env first == inject_Z (total_height - 10))%Q /\
    ((ink_top env first + ink_bottom env op) / 2 == half WINDOW_HEIGHT + 1)%Q /\
    ~ ((ink_top env first + ink_bottom env op) / 2 == half WINDOW_HEIGHT - 5)%Q.
Proof.
  cbv zeta. eexists _, _, _.
  split; [vm_compute; reflexivity|]. split; [vm_compute; reflexivity|].
  split; [vm_compute; reflexivity|]. split; [vm_compute; reflexivity|].
  split; [vm_compute; reflexivity|]. split; [vm_compute; reflexivity|].
  split; [vm_compute; reflexivity|]. split; [vm_compute; reflexivity|].
  split; [vm_compute; reflexivity|]. split; [vm_compute; reflexivity|].
  split; [vm_compute; reflexivity|].
  split; [intros H; vm_compute in H; discriminate|].
  split; [vm_compute; reflexivity|].
  intros H. vm_compute in H. discriminate.
Qed.

(** ** More on the wrapper: what the lines are made of *)

Lemma visible_app (a b : list ascii) : visible (a ++ b) = visible a ++ visible b.
Proof. apply filter_app. Qed.

Lemma visible_blank (c : list ascii) : strip_is_empty c = true -> visible c = [].
Proof.
  unfold strip_is_empty, visible. induction c as [|a c IH]; [done|].
  cbn [forallb]. intros [Ha Hc]%andb_true_iff.
  rewrite filter_cons_False; [auto|]. by rewrite Ha.
Qed.

Lemma drop_trailing_whitespace_visible (cur_line : list (list ascii)) :
  visible (concat (drop_trailing_whitespace cur_line)) = visible (concat cur_line).
Proof.
  unfold drop_trailing_whitespace.
  destruct (last cur_line) as [c|] eqn:E; [|done].
  destruct (strip_is_empty c) eqn:Ec; [|done].
  apply last_Some in E as [l' ->]. rewrite removelast_last, concat_app, visible_app.
  cbn [concat]. by rewrite app_nil_r, (visible_blank c Ec), app_nil_r.
Qed.

Lemma drop_trailing_whitespace_nonempty (moved : list (list ascii)) :
  nonempty_chunks moved -> nonempty_chunks (drop_trailing_whitespace moved).
Proof.
  intros H. unfold drop_trailing_whitespace.
  destruct (last moved) as [c|] eqn:E; [|done].
  destruct (strip_is_empty c); [|done].
  apply last_Some in E as [l' ->]. rewrite removelast_last.
  by apply Forall_app in H as [H _].
Qed.

Lemma drop_trailing_whitespace_piece (moved : list (list ascii)) (piece : list ascii) :
  nonempty_chunks moved -> nonempty_chunks (drop_trailing_whitespace (moved ++ [piece])).
Proof.
  intros H. unfold drop_trailing_whitespace. rewrite last_snoc.
  destruct (strip_is_empty piece) eqn:E.
  - by rewrite removelast_last.
  - apply Forall_app. split; [done|]. constructor; [|constructor]. by intros ->.
Qed.

(** One pass of the loop: the chunks of the line are not empty, and the line
    and the stack left hold the visible characters of the stack. *)
Lemma next_line_content (width : Z) (top : list ascii) (below lines : list (list ascii)) :
  1 <= width -> nonempty_chunks (top :: below) ->
  nonempty_chunks (snd (next_line width (top :: below) lines)) /\
  visible (concat (snd (next_line width (top :: below) lines)))
    ++ visible (concat (fst (next_line width (top :: below) lines)))
  = visible (concat (top :: below)).
Proof.
  intros Hw Hne. unfold next_line.
  set (chunks1 := if strip_is_empty top && _ then below else top :: below).
  assert (H1 : nonempty_chunks chunks1 /\
               visible (concat chunks1) = visible (concat (top :: below))).
  { pose proof Hne as Hne'. apply Forall_cons in Hne' as [Ht Hb].
    subst chunks1. destruct (strip_is_empty top && _) eqn:E; [|done].
    split; [done|]. apply andb_true_iff in E as [E _].
    cbn [concat]. by rewrite visible_app, (visible_blank top E). }
  clearbody chunks1. destruct H1 as [Hne1 <-].
  destruct (fill_line_spec width chunks1 [] 0) as (moved & rest & Hf & Hc & Hfit & Hr).
  rewrite Hf. cbn [app]. rewrite Z.add_0_l in *.
  specialize (Hfit ltac:(lia)).
  assert (Hner : nonempty_chunks rest /\ nonempty_chunks moved).
  { rewrite Hc in Hne1. apply Forall_app in Hne1. tauto. }
  destruct Hner as [Hner Hnem]. rewrite Hc, concat_app, visible_app.
  destruct rest as [|c rest].
  - cbn [fst snd]. split; [by apply drop_trailing_whitespace_nonempty|].
    by rewrite drop_trailing_whitespace_visible.
  - destruct (width <? len c) eqn:El.
    + apply Z.ltb_lt in El.
      destruct (_handle_long_word_spec c (Z.of_nat (total_len moved)) width)
        as (piece & remainder & Hh & Hpr & _); [lia..|].
      rewrite Hh. cbn [fst snd]. split; [by apply drop_trailing_whitespace_piece|].
      rewrite drop_trailing_whitespace_visible, concat_app, visible_app.
      cbn [concat]. rewrite app_nil_r, !visible_app, <- Hpr, visible_app.
      by rewrite <- !app_assoc.
    + cbn [fst snd]. split; [by apply drop_trailing_whitespace_nonempty|].
      by rewrite drop_trailing_whitespace_visible.
Qed.

Lemma concat_nonempty (c0 : list ascii) (cl : list (list ascii)) :
  nonempty_chunks (c0 :: cl) -> concat (c0 :: cl) <> [].
Proof.
  intros [H0 _]%Forall_cons. cbn [concat]. destruct c0; [done|]. discriminate.
Qed.

Lemma wrap_loop_content (fuel : nat) (width : Z) (chunks lines : list (list ascii)) :
  1 <= width -> nonempty_chunks chunks -> (total_len chunks < fuel)%nat ->
  exists new,
    wrap_loop fuel width chunks lines = Some (lines ++ new) /\
    Forall (fun l => 1 <= len l <= width) new /\
    visible (concat new) = visible (concat chunks).
Proof.
  intros Hw. revert chunks lines.
  induction fuel as [|fuel IH]; intros chunks lines Hne Hf; [lia|].
  destruct chunks as [|top below].
  - exists []. cbn. rewrite app_nil_r. auto.
  - cbn [wrap_loop].
    destruct (next_line_content width top below lines Hw Hne) as [Hnc Hvis].
    destruct (next_line_spec width top below lines Hw Hne)
      as (chunks' & cur_line & Hn & Hne' & Hlt & Hlen & _).
    rewrite Hn in *. cbn [fst snd] in *.
    edestruct (IH chunks') as (new & Hl & Hall & Hc); [exact Hne'|lia|].
    rewrite Hl. clear Hl. rewrite <- Hvis, <- Hc.
    destruct cur_line as [|c0 cl].
    + exists new. split; [done|]. split; [done|]. done.
    + exists (concat (c0 :: cl) :: new). rewrite <- app_assoc. split; [done|].
      split.
      * apply Forall_cons; split; [|done]. split; [|exact Hlen].
        pose proof (concat_nonempty c0 cl Hnc) as Hn0.
        apply nonempty_total_len in Hn0. unfold len. lia.
      * change (concat (concat (c0 :: cl) :: new)) with (concat (c0 :: cl) ++ concat new).
        by rewrite visible_app.
Qed.

Lemma visible_repeat_space (n : nat) : visible (repeat space n) = [].
Proof. induction n as [|n IH]; [done|]. cbn [repeat]. exact IH. Qed.

Lemma visible_expandtabs (text : list ascii) (column : nat) :
  visible (expandtabs 8 column text) = visible text.
Proof.
  revert column. induction text as [|c text IH]; intros column; [done|].
  cbn [expandtabs]. destruct (code c =? 9) eqn:E.
  - cbn [Nat.ltb Nat.leb]. rewrite visible_app, visible_repeat_space, IH. cbn [app].
    unfold visible. rewrite filter_cons_False; [done|].
    apply Z.eqb_eq in E. unfold isspace. rewrite E. done.
  - unfold visible. destruct (isspace c) eqn:Ec.
    + rewrite !filter_cons_False by (by rewrite Ec). apply IH.
    + rewrite !filter_cons_True by done. f_equal. apply IH.
Qed.

Lemma whitespace_isspace (c : ascii) : is_whitespace c = true -> isspace c = true.
Proof.
  intros H. destruct (isspace c) eqn:E; [done|].
  by rewrite (isspace_whitespace c E) in H.
Qed.

Lemma visible_translate_whitespace (text : list ascii) :
  visible (translate_whitespace text) = visible text.
Proof.
  unfold translate_whitespace, visible. induction text as [|c text IH]; [done|].
  cbn [map]. destruct (is_whitespace c) eqn:E.
  - rewrite filter_cons_False by done.
    rewrite filter_cons_False by (by rewrite (whitespace_isspace c E)). exact IH.
  - destruct (isspace c) eqn:Ec.
    + rewrite !filter_cons_False by (by rewrite Ec). exact IH.
    + rewrite !filter_cons_True by done. by rewrite IH.
Qed.

Lemma visible_munge_whitespace (text : list ascii) :
  visible (_munge_whitespace text) = visible text.
Proof.
  unfold _munge_whitespace. by rewrite visible_translate_whitespace, visible_expandtabs.
Qed.

(** [wrap] for any text: lines of one to [width] characters that hold the
    visible characters of the text, in order. *)
Lemma wrap_content (width : Z) (text : string) :
  0 < width ->
  exists text_lines,
    wrap width text = inr text_lines /\
    Forall (fun line => 1 <= Z.of_nat (String.length line) <= width) text_lines /\
    visible (list_ascii_of_string (String.concat "" text_lines))
    = visible (list_ascii_of_string text).
Proof.
  intros Hw. unfold wrap, _wrap_chunks, _split_chunks.
  destruct (width <=? 0) eqn:E; [apply Z.leb_le in E; lia|].
  set (chunks := _split (_munge_whitespace (list_ascii_of_string text))).
  destruct (wrap_loop_content (S (total_len chunks)) width chunks [])
    as (new & Hl & Hall & Hc); [lia|apply split_from_nonempty|lia|].
  rewrite Hl. cbn [app]. eexists. split; [reflexivity|]. split.
  - apply Forall_map. eapply Forall_impl; [exact Hall|].
    intros l Hlen. cbn. rewrite length_string_of_list_ascii. exact Hlen.
  - rewrite concat_string_of_list_ascii, list_ascii_of_string_of_list_ascii, Hc.
    subst chunks. unfold _split. rewrite split_from_concat. cbn [rev app].
    apply visible_munge_whitespace.
Qed.

(** X1.  Whatever the quote is, [wrapper.wrap(text)] returns, and each line
    it returns has at least one and at most 44 characters. *)
Theorem wrapped_lines_fit (env : environment) (text : string) :
  binary64_rounding (env_fl env) ->
  exists text_lines,
    wrap (max_chars env) text = inr text_lines /\
    Forall (fun line => (1 <= String.length line <= 44)%nat) text_lines.
Proof.
  intros Hfl. rewrite (max_chars_value env Hfl).
  destruct (wrap_content 44 text) as (text_lines & Hw & Hall & _); [lia|].
  exists text_lines. split; [exact Hw|].
  eapply Forall_impl; [exact Hall|]. intros line Hl. cbn in Hl. lia.
Qed.

Lemma wrapped_lines_fit_witness :
  exists text_lines,
    wrap (max_chars (sample_env 200 None))
         "Life is what happens when you are busy making other plans." = inr text_lines /\
    Forall (fun line => (1 <= String.length line <= 44)%nat) text_lines.
Proof.
  apply (wrapped_lines_fit (sample_env 200 None)
           "Life is what happens when you are busy making other plans.").
  apply binary64_is_rounding.
Defined.

(** X2.  Wrapping loses, adds and reorders no visible character: the lines
    put end to end, white space left out, are the quote with its white
    space left out. *)
Theorem wrapping_keeps_visible_characters (env : environment) (text : string) :
  binary64_rounding (env_fl env) ->
  exists text_lines,
    wrap (max_chars env) text = inr text_lines /\
    visible (list_ascii_of_string (String.concat "" text_lines))
    = visible (list_ascii_of_string text).
Proof.
  intros Hfl. rewrite (max_chars_value env Hfl).
  destruct (wrap_content 44 text) as (text_lines & Hw & _ & Hv); [lia|].
  exists text_lines. split; [exact Hw|exact Hv].
Qed.

Lemma wrapping_keeps_visible_characters_witness :
  exists text_lines,
    wrap (max_chars (sample_env 200 None))
         "Life is what happens when you are busy making other plans." = inr text_lines /\
    visible (list_ascii_of_string (String.concat "" text_lines))
    = visible (list_ascii_of_string
                 "Life is what happens when you are busy making other plans.").
Proof.
  apply (wrapping_keeps_visible_characters (sample_env 200 None)
           "Life is what happens when you are busy making other plans.").
  apply binary64_is_rounding.
Defined.

(** ** A quote that is all white space *)

Lemma blank_strip (s : list ascii) : blank s -> strip_is_empty s = true.
Proof.
  unfold strip_is_empty. induction 1 as [|c s Hc Hs IH]; [done|].
  cbn [forallb]. by rewrite (whitespace_isspace c Hc), IH.
Qed.

Lemma blank_repeat_space (n : nat) : blank (repeat space n).
Proof. induction n as [|n IH]; [constructor|]. by constructor. Qed.

Lemma blank_expandtabs (text : list ascii) (column : nat) :
  blank text -> blank (expandtabs 8 column text).
Proof.
  intros H. revert column. induction H as [|c text Hc Hs IH]; intros column; [constructor|].
  cbn [expandtabs]. destruct (code c =? 9).
  - cbn [Nat.ltb Nat.leb]. apply Forall_app. split; [apply blank_repeat_space|apply IH].
  - constructor; [exact Hc|apply IH].
Qed.

Lemma blank_munge_whitespace (text : list ascii) : blank text -> blank (_munge_whitespace text).
Proof.
  intros H. unfold _munge_whitespace, translate_whitespace.
  apply blank_expandtabs with (column := O) in H.
  induction H as [|c s Hc Hs IH]; [constructor|].
  cbn [map]. rewrite Hc. by constructor.
Qed.

Lemma split_from_blank (rest before cur : list ascii) :
  blank rest -> cur <> [] ->
  split_from before cur (Some InSpace) rest = [rev cur ++ rest].
Proof.
  intros H. revert before cur. induction H as [|c rest Hc Hs IH]; intros before cur Hn.
  - cbn. destruct cur; [done|]. by rewrite app_nil_r.
  - cbn [split_from chunk_end]. rewrite Hc, IH by done. cbn [rev]. by rewrite <- app_assoc.
Qed.

Lemma _split_blank (s : list ascii) : blank s -> s <> [] -> _split s = [s].
Proof.
  intros H Hn. destruct H as [|c rest Hc Hs]; [done|].
  unfold _split. cbn [split_from chunk_end emit app chunk_start]. rewrite Hc.
  by rewrite split_from_blank.
Qed.

Lemma wrap_loop_blank (fuel : nat) (width : Z) (c : list ascii) :
  1 <= width -> blank c -> c <> [] -> (length c < fuel)%nat ->
  wrap_loop fuel width [c] [] = Some [].
Proof.
  intros Hw. revert c. induction fuel as [|fuel IH]; intros c Hb Hn Hf; [lia|].
  cbn [wrap_loop]. unfold next_line.
  rewrite andb_false_r. cbn [fill_line]. rewrite Z.add_0_l.
  destruct (len c <=? width) eqn:E.
  - cbn [app]. unfold drop_trailing_whitespace. cbn [last]. rewrite (blank_strip c Hb).
    cbn. by destruct fuel.
  - apply Z.leb_gt in E. rewrite (proj2 (Z.ltb_lt _ _) E).
    destruct (_handle_long_word_spec c 0 width)
      as (piece & remainder & Hh & Hpr & _ & Hrem & Hp0); [lia..|].
    rewrite Hh. cbn [app]. unfold drop_trailing_whitespace. cbn [last].
    rewrite <- Hpr in Hb. apply Forall_app in Hb as [Hbp Hbr].
    rewrite (blank_strip piece Hbp). cbn [removelast].
    apply IH; [exact Hbr|exact Hrem|].
    specialize (Hp0 eq_refl).
    apply (f_equal length) in Hpr. rewrite length_app in Hpr.
    destruct piece; [done|]. cbn in Hpr. lia.
Qed.

(** A text of blanks, tabs and line breaks wraps to no line at all. *)
Lemma wrap_blank_text (width : Z) (text : string) :
  0 < width -> blank (list_ascii_of_string text) -> wrap width text = inr [].
Proof.
  intros Hw Hb. unfold wrap, _wrap_chunks, _split_chunks.
  destruct (width <=? 0) eqn:E; [apply Z.leb_le in E; lia|].
  apply blank_munge_whitespace in Hb.
  destruct (_munge_whitespace (list_ascii_of_string text)) as [|c s] eqn:Em; [done|].
  rewrite _split_blank by done.
  rewrite wrap_loop_blank; [done|lia|done|done|].
  unfold total_len. cbn [concat]. rewrite app_nil_r. lia.
Qed.

(** X3.  A quote made of blanks, tabs and line breaks only (the empty quote
    included) wraps to no line at all; and when the image has been opened,
    scaled and cropped, composition returns a frame on which the author
    line and its shadow are all that is drawn. *)
Theorem blank_quote_draws_author_only (env : environment) (image_data : list byte)
    (text author : string) (w : world) :
  binary64_rounding (env_fl env) ->
  blank (list_ascii_of_string text) ->
  wrap (max_chars env) text = inr [] /\
  (image_is_prepared env image_data ->
   exists f w',
     process_image env image_data (PyStr text) (PyStr author) w = (inr (Some f), w') /\
     map op_text (frame_ops f) = ["- " +:+ author; "- " +:+ author]).
Proof.
  intros Hfl Hb.
  assert (Hwrap : wrap (max_chars env) text = inr []).
  { apply wrap_blank_text; [|exact Hb]. rewrite (max_chars_value env Hfl). lia. }
  split; [exact Hwrap|]. intros Hprep.
  destruct (process_image_succeeds env image_data text author w Hfl Hprep) as (f & w' & Hp).
  destruct (process_image_Some_inv _ _ _ _ _ _ _ Hp)
    as (font_large & font_small & text_lines & _ & Hwrap' & Hops).
  rewrite Hwrap in Hwrap'. injection Hwrap' as <-.
  exists f, w'. split; [exact Hp|]. cbv zeta in Hops. rewrite Hops. reflexivity.
Qed.

Lemma blank_quote_draws_author_only_witness :
  wrap (max_chars (sample_env 200 None)) "     " = inr [] /\
  exists f w',
    process_image (sample_env 200 None) one_pixel_png (PyStr "     ") (PyStr "Horace")
      empty_world = (inr (Some f), w') /\
    map op_text (frame_ops f) = ["- Horace"; "- Horace"].
Proof.
  destruct (blank_quote_draws_author_only (sample_env 200 None) one_pixel_png "     "
              "Horace" empty_world binary64_is_rounding) as [Hw Hf];
    [repeat constructor|].
  split; [exact Hw|]. apply Hf.
  exists (Image 1920 1080 []), (Image 900 600 []). split; vm_compute; reflexivity.
Defined.

(** ** More on the geometry: the crop window and the window origin *)

Lemma Qfloor_half (d : Z) : Qfloor (half d) = d / 2.
Proof. unfold half. symmetry. apply (Zdiv_Qdiv d 2). Qed.

Lemma py_round_half_bounds (d : Z) :
  0 <= d -> 0 <= py_round (half d) <= d /\ -1 <= d - 2 * py_round (half d) <= 1.
Proof.
  intros Hd. pose proof (py_round_range (half d)) as Hr. rewrite Qfloor_half in Hr.
  pose proof (Z.div_mod d 2 ltac:(lia)) as Hdm.
  pose proof (Z.mod_pos_bound d 2 ltac:(lia)) as Hm.
  destruct (Z.eq_dec (d mod 2) 0) as [E|E].
  - assert (Hh : (half d == inject_Z (d / 2))%Q).
    { unfold half. rewrite Hdm, E, Z.add_0_r at 1. rewrite inject_Z_mult.
      change (inject_Z 2) with 2%Q. field. }
    rewrite (py_round_comp _ _ Hh), py_round_integer. lia.
  - lia.
Qed.

Lemma crop_window_spec (new_width new_height : Z) :
  WINDOW_WIDTH <= new_width -> WINDOW_HEIGHT <= new_height ->
  exists x0 y0,
    crop_window (crop_box new_width new_height)
    = (x0, y0, x0 + WINDOW_WIDTH, y0 + WINDOW_HEIGHT) /\
    0 <= x0 /\ x0 + WINDOW_WIDTH <= new_width /\
    0 <= y0 /\ y0 + WINDOW_HEIGHT <= new_height /\
    -1 <= (new_width - (x0 + WINDOW_WIDTH)) - x0 <= 1 /\
    -1 <= (new_height - (y0 + WINDOW_HEIGHT)) - y0 <= 1.
Proof.
  intros Hw Hh. unfold crop_window, crop_box.
  assert (Hr : py_round (half (new_width + WINDOW_WIDTH))
               = py_round (half (new_width - WINDOW_WIDTH)) + WINDOW_WIDTH).
  { unfold WINDOW_WIDTH. replace (new_width + 900) with (new_width - 900 + 2 * 900) by lia.
    rewrite (py_round_comp _ _ (half_add (new_width - 900) 900)).
    by apply py_round_add_even. }
  assert (Hb : py_round (half (new_height + WINDOW_HEIGHT))
               = py_round (half (new_height - WINDOW_HEIGHT)) + WINDOW_HEIGHT).
  { unfold WINDOW_HEIGHT. replace (new_height + 600) with (new_height - 600 + 2 * 600) by lia.
    rewrite (py_round_comp _ _ (half_add (new_height - 600) 600)).
    by apply py_round_add_even. }
  rewrite Hr, Hb. eexists _, _. split; [reflexivity|].
  pose proof (py_round_half_bounds (new_width - WINDOW_WIDTH) ltac:(lia)).
  pose proof (py_round_half_bounds (new_height - WINDOW_HEIGHT) ltac:(lia)).
  lia.
Qed.

(** X4.  The crop cuts no padding.  When [resize] returns the scaled image,
    the window that [crop] cuts out of that image is 900 x 600 and lies
    inside it; the margins it leaves on either side of an axis differ by
    one pixel at most, and on the axis that was scaled to the window it
    leaves none. *)
Theorem crop_window_inside_scaled_image (env : environment) (image_data : list byte)
    (img : image) :
  binary64_rounding (env_fl env) ->
  0 < width img < 2 ^ 31 -> 0 < height img < 2 ^ 31 ->
  exists new_width new_height,
    cover_size env img = inr (new_width, new_height) /\
    forall scaled,
      resize env image_data img (new_width, new_height) = inr scaled ->
      exists x0 y0 out,
        crop_window (crop_box new_width new_height)
        = (x0, y0, x0 + WINDOW_WIDTH, y0 + WINDOW_HEIGHT) /\
        crop scaled (crop_box new_width new_height) = inr out /\
        scale_and_crop env image_data img = inr out /\
        width out = WINDOW_WIDTH /\ height out = WINDOW_HEIGHT /\
        0 <= x0 /\ x0 + WINDOW_WIDTH <= width scaled /\
        0 <= y0 /\ y0 + WINDOW_HEIGHT <= height scaled /\
        -1 <= (width scaled - (x0 + WINDOW_WIDTH)) - x0 <= 1 /\
        -1 <= (height scaled - (y0 + WINDOW_HEIGHT)) - y0 <= 1 /\
        (x0 = 0 /\ width scaled = WINDOW_WIDTH \/ y0 = 0 /\ height scaled = WINDOW_HEIGHT).
Proof.
  intros Hfl Hw Hh.
  destruct (cover_size_covers env img Hfl Hw Hh) as (nw & nh & E & Hax & Hnw & Hnh).
  destruct (crop_window_spec nw nh Hnw Hnh) as (x0 & y0 & Hc & H1 & H2 & H3 & H4 & H5 & H6).
  exists nw, nh. split; [exact E|]. intros scaled Hr.
  destruct (resize_inr _ _ _ _ _ _ Hr) as (_ & _ & _ & ->). cbn [width height].
  destruct (crop_size (Image nw nh (drawn img)) nw nh) as (out & Ho & Hwo & Hho & _).
  exists x0, y0, out. split; [exact Hc|]. split; [exact Ho|].
  split; [unfold scale_and_crop; by rewrite E, Hr|].
  do 8 (split; [done|]).
  destruct (WINDOW_WIDTH * height img <? WINDOW_HEIGHT * width img).
  - right. split; [lia|done].
  - left. split; [lia|done].
Qed.

Lemma crop_window_inside_scaled_image_witness :
  exists x0 y0 out,
    crop_window (crop_box 1066 600) = (x0, y0, x0 + WINDOW_WIDTH, y0 + WINDOW_HEIGHT) /\
    crop (Image 1066 600 []) (crop_box 1066 600) = inr out /\
    scale_and_crop (sample_env 200 None) one_pixel_png (Image 1920 1080 []) = inr out /\
    width out = WINDOW_WIDTH /\ height out = WINDOW_HEIGHT /\
    0 <= x0 /\ x0 + WINDOW_WIDTH <= 1066 /\
    0 <= y0 /\ y0 + WINDOW_HEIGHT <= 600 /\
    -1 <= (1066 - (x0 + WINDOW_WIDTH)) - x0 <= 1 /\
    -1 <= (600 - (y0 + WINDOW_HEIGHT)) - y0 <= 1 /\
    (x0 = 0 /\ 1066 = WINDOW_WIDTH \/ y0 = 0 /\ 600 = WINDOW_HEIGHT).
Proof.
  destruct (crop_window_inside_scaled_image (sample_env 200 None) one_pixel_png
              (Image 1920 1080 []))
    as (nw & nh & E & H); [apply binary64_is_rounding | cbn; lia | cbn; lia |].
  vm_compute in E. injection E as <- <-.
  apply (H (Image 1066 600 [])). vm_compute. reflexivity.
Defined.

Lemma py_int_comp (x : Q) (n : Z) : 0 <= n -> (x == inject_Z n)%Q -> py_int x = n.
Proof.
  intros Hn Hx. rewrite py_int_floor.
  - by rewrite (Qfloor_comp _ _ Hx), Qfloor_Z.
  - rewrite Hx. unfold Qle. cbn. lia.
Qed.

(** X5.  An image that has the proportions of the window, 3 to 2, is not
    cropped at all: when Pillow can make an image of 900 x 600 from the
    data, [resize] returns an image of exactly 900 x 600, and the window
    that [crop] cuts out of it is the whole of it. *)
Theorem window_shaped_image_is_not_cropped (env : environment) (image_data : list byte)
    (img : image) (k : Z) :
  binary64_rounding (env_fl env) ->
  0 < k -> width img = 3 * k -> height img = 2 * k ->
  can_resize env image_data (WINDOW_WIDTH, WINDOW_HEIGHT) ->
  cover_size env img = inr (WINDOW_WIDTH, WINDOW_HEIGHT) /\
  exists scaled out,
    resize env image_data img (WINDOW_WIDTH, WINDOW_HEIGHT) = inr scaled /\
    width scaled = WINDOW_WIDTH /\ height scaled = WINDOW_HEIGHT /\
    crop_window (crop_box WINDOW_WIDTH WINDOW_HEIGHT) = (0, 0, width scaled, height scaled) /\
    crop scaled (crop_box WINDOW_WIDTH WINDOW_HEIGHT) = inr out /\
    scale_and_crop env image_data img = inr out /\
    width out = width scaled /\ height out = height scaled.
Proof.
  intros Hfl Hk Hw Hh Hres.
  assert (Hc : cover_size env img = inr (WINDOW_WIDTH, WINDOW_HEIGHT)).
  { unfold cover_size, int_truediv. rewrite Hw, Hh.
    destruct (2 * k =? 0) eqn:E0; [apply Z.eqb_eq in E0; lia|].
    set (r := env_fl env (inject_Z (3 * k) / inject_Z (2 * k))).
    assert (Hr : (r == 3 # 2)%Q).
    { subst r. transitivity (env_fl env (inject_Z 3 / pow2 1)).
      - apply (fl_comp _ Hfl). rewrite !inject_Z_mult.
        change (pow2 1) with 2%Q. change (inject_Z 3) with 3%Q. change (inject_Z 2) with 2%Q.
        field. intros E. unfold Qeq in E. cbn in E. lia.
      - rewrite (fl_exact _ Hfl 3 1) by (cbn; lia). reflexivity. }
    assert (Hlt : Qltb (inject_Z WINDOW_WIDTH / inject_Z WINDOW_HEIGHT) r = false).
    { apply Qltb_ge. rewrite Hr. vm_compute. discriminate. }
    rewrite Hlt. unfold float_truediv.
    destruct (Qeq_bool r 0) eqn:Ez.
    { apply Qeq_bool_eq in Ez. rewrite Hr in Ez. discriminate. }
    f_equal. f_equal. apply py_int_comp; [unfold WINDOW_HEIGHT; lia|].
    transitivity (env_fl env (inject_Z 600)).
    - apply (fl_comp _ Hfl). rewrite Hr. reflexivity.
    - apply (fl_integer _ Hfl 600). lia. }
  split; [exact Hc|].
  pose proof (resize_succeeds env image_data img WINDOW_WIDTH WINDOW_HEIGHT Hres
                ltac:(unfold WINDOW_WIDTH; lia) ltac:(unfold WINDOW_HEIGHT; lia)) as Hr.
  destruct (crop_size (Image WINDOW_WIDTH WINDOW_HEIGHT (drawn img)) WINDOW_WIDTH WINDOW_HEIGHT)
    as (out & Ho & Hwo & Hho & _).
  exists (Image WINDOW_WIDTH WINDOW_HEIGHT (drawn img)), out.
  split; [exact Hr|]. split; [reflexivity|]. split; [reflexivity|].
  split; [vm_compute; reflexivity|]. split; [exact Ho|].
  split; [unfold scale_and_crop; by rewrite Hc, Hr|]. by split.
Qed.

Lemma window_shaped_image_is_not_cropped_witness :
  cover_size (sample_env 200 None) (Image 1800 1200 []) = inr (WINDOW_WIDTH, WINDOW_HEIGHT) /\
  exists scaled out,
    resize (sample_env 200 None) one_pixel_png (Image 1800 1200 [])
      (WINDOW_WIDTH, WINDOW_HEIGHT) = inr scaled /\
    width scaled = WINDOW_WIDTH /\ height scaled = WINDOW_HEIGHT /\
    crop_window (crop_box WINDOW_WIDTH WINDOW_HEIGHT) = (0, 0, width scaled, height scaled) /\
    crop scaled (crop_box WINDOW_WIDTH WINDOW_HEIGHT) = inr out /\
    scale_and_crop (sample_env 200 None) one_pixel_png (Image 1800 1200 []) = inr out /\
    width out = width scaled /\ height out = height scaled.
Proof.
  apply (window_shaped_image_is_not_cropped (sample_env 200 None) one_pixel_png
           (Image 1800 1200 []) 600);
    [apply binary64_is_rounding | lia | reflexivity | reflexivity
    | vm_compute; repeat split; discriminate].
Defined.

Lemma py_int_half_sub (a b : Z) : py_int (half a - half b) = Z.quot (a - b) 2.
Proof.
  change (py_int (half a - half b)) with (Z.quot (a * 1 * 2 + - (b * 1) * 2) (2 * 2)).
  replace (a * 1 * 2 + - (b * 1) * 2) with ((a - b) * 2) by lia.
  apply Z.quot_mul_cancel_r; lia.
Qed.

Lemma window_origin_quot (screen_width screen_height : Z) :
  window_origin screen_width screen_height
  = (Z.quot (screen_width - WINDOW_WIDTH) 2, Z.quot (screen_height - WINDOW_HEIGHT) 2).
Proof. unfold window_origin. by rewrite !py_int_half_sub. Qed.

Lemma quot_2_centre (d : Z) : -1 <= d - 2 * Z.quot d 2 <= 1 /\ (0 <= d -> 0 <= Z.quot d 2).
Proof.
  pose proof (Z.quot_rem' d 2) as E.
  pose proof (Z.rem_bound_abs d 2 ltac:(lia)) as Hr.
  split; [lia|]. intros H. apply Z.quot_pos; lia.
Qed.

(** X6.  [__init__] asks for a window whose centre is the centre of the
    screen to within half a pixel on either axis: the margins left and
    right of the window, and those above and below, differ by one pixel at
    most.  On a screen at least as large as the window the origin is on the
    screen. *)
Theorem window_is_centred (env : environment) (screen_width screen_height : Z) :
  let '(x_c, y_c) := window_origin screen_width screen_height in
  app_geometry (DesktopApp_init env screen_width screen_height) = geometry_string x_c y_c /\
  -1 <= (screen_width - (x_c + WINDOW_WIDTH)) - x_c <= 1 /\
  -1 <= (screen_height - (y_c + WINDOW_HEIGHT)) - y_c <= 1 /\
  (WINDOW_WIDTH <= screen_width -> 0 <= x_c /\ x_c + WINDOW_WIDTH <= screen_width) /\
  (WINDOW_HEIGHT <= screen_height -> 0 <= y_c /\ y_c + WINDOW_HEIGHT <= screen_height).
Proof.
  unfold DesktopApp_init. rewrite window_origin_quot.
  split; [reflexivity|].
  pose proof (quot_2_centre (screen_width - WINDOW_WIDTH)) as [Hx Hx0].
  pose proof (quot_2_centre (screen_height - WINDOW_HEIGHT)) as [Hy Hy0].
  repeat split; lia.
Qed.

Lemma window_is_centred_witness :
  app_geometry (DesktopApp_init offline_env 1920 1080) = "900x600+510+240" /\
  app_geometry (DesktopApp_init offline_env 800 601) = "900x600+-50+0".
Proof.
  split.
  - exact (proj1 (window_is_centred offline_env 1920 1080)).
  - exact (proj1 (window_is_centred offline_env 800 601)).
Defined.

(** ** The scaled size keeps the proportions of the image *)

Lemma wide_bounds (w h m1 m2 M2 nw : Z) :
  0 < w -> 0 < h ->
  h * m1 <= w * 2 ^ 21 < h * m1 + h ->
  2 ^ 10 * m2 <= 600 * m1 < 2 ^ 10 * m2 + 2 ^ 10 ->
  2 ^ 10 * M2 <= 600 * (m1 + 1) + 1023 ->
  m2 < 2 ^ 11 * nw + 2 ^ 11 -> 2 ^ 11 * nw <= M2 ->
  256 * (600 * w) - 257 * h < 256 * (nw * h) <= 256 * (600 * w) + h.
Proof.
  intros Hw Hh Hm1 Hm2 HM2 Hlo Hhi.
  assert (E1 : 2 ^ 21 * nw + 2 ^ 21 + 2 ^ 10 > 600 * m1) by lia.
  assert (E2 : 2 ^ 21 * nw <= 600 * m1 + 1623) by lia.
  assert (E3 : (2 ^ 21 * nw + 2 ^ 21 + 2 ^ 10) * h > 600 * m1 * h) by nia.
  assert (E4 : 2 ^ 21 * nw * h <= (600 * m1 + 1623) * h) by nia.
  nia.
Qed.

Lemma tall_bounds (w h P m1 A B nh : Z) :
  0 < w -> 0 < h < 2 ^ 31 -> 2 ^ 50 <= m1 -> 0 < P ->
  h * m1 <= w * P < h * m1 + h ->
  900 * P * 2 ^ 11 < (m1 + 1) * A + (m1 + 1) ->
  m1 * B <= 900 * P * 2 ^ 11 + m1 - 1 ->
  A < 2 ^ 11 * nh + 2 ^ 11 -> 2 ^ 11 * nh <= B ->
  256 * (900 * h) - 257 * w < 256 * (nh * w) <= 256 * (900 * h) + w.
Proof.
  intros Hw Hh Hm1 HP HmP HA HB Hlo Hhi.
  assert (E0 : 900 * 2 ^ 11 * h <= 4 * m1) by lia.
  split.
  - assert (E1 : 900 * 2 ^ 11 * (w * P) < (m1 + 1) * (2 ^ 11 * nh + 2 ^ 11 + 1) * w) by nia.
    assert (E2 : 900 * 2 ^ 11 * (h * m1) < (m1 + 1) * ((2 ^ 11 * nh + 2 ^ 11 + 1) * w))
      by nia.
    assert (E4 : (m1 + 1) * (900 * 2 ^ 11 * h)
                 < (m1 + 1) * ((2 ^ 11 * nh + 2 ^ 11 + 1) * w + 4)) by nia.
    assert (E5 : 900 * 2 ^ 11 * h < (2 ^ 11 * nh + 2 ^ 11 + 1) * w + 4).
    { apply Z.mul_lt_mono_pos_l with (p := m1 + 1); lia. }
    nia.
  - assert (E1 : m1 * (2 ^ 11 * nh) * w <= (900 * 2 ^ 11 * P + m1) * w) by nia.
    assert (E2 : m1 * (2 ^ 11 * nh * w) < 900 * 2 ^ 11 * (h * m1 + h) + m1 * w) by nia.
    assert (E4 : m1 * (2 ^ 11 * nh * w) < m1 * (900 * 2 ^ 11 * h + w + 4)) by nia.
    assert (E5 : 2 ^ 11 * nh * w < 900 * 2 ^ 11 * h + w + 4).
    { apply Z.mul_lt_mono_pos_l with (p := m1); lia. }
    nia.
Qed.

Lemma Zquot_Qmult (a b c d : Z) :
  0 < b -> 0 < d ->
  (inject_Z a / inject_Z b * (inject_Z c / inject_Z d) == inject_Z (a * c) / inject_Z (b * d))%Q.
Proof.
  intros Hb Hd. rewrite !inject_Z_mult. field.
  split; intros E; unfold Qeq in E; cbn in E; lia.
Qed.

Lemma Zquot_Qpos (a b : Z) : 0 < a -> 0 < b -> (0 < inject_Z a / inject_Z b)%Q.
Proof.
  intros Ha Hb. apply Qlt_shift_div_l.
  - unfold Qlt. cbn. lia.
  - rewrite Qmult_0_l. unfold Qlt. cbn. lia.
Qed.

Lemma Zquot_Qnonneg (a b : Z) : 0 <= a -> 0 < b -> (0 <= inject_Z a / inject_Z b)%Q.
Proof.
  intros Ha Hb. apply Qle_shift_div_l.
  - unfold Qlt. cbn. lia.
  - rewrite Qmult_0_l. unfold Qle. cbn. lia.
Qed.

Section Enclosure.
Variable fl : Q -> Q.
Hypothesis Hfl : binary64_rounding fl.

(** A real between two neighbouring multiples of [2^-k] whose numerators
    fit 53 bits is rounded to a float between them. *)
Lemma fl_between (x : Q) (k : nat) (lo hi : Z) :
  Z.abs lo <= 2 ^ 53 -> Z.abs hi <= 2 ^ 53 ->
  (inject_Z lo / inject_Z (2 ^ Z.of_nat k) <= x)%Q ->
  (x <= inject_Z hi / inject_Z (2 ^ Z.of_nat k))%Q ->
  (inject_Z lo / inject_Z (2 ^ Z.of_nat k) <= fl x)%Q /\
  (fl x <= inject_Z hi / inject_Z (2 ^ Z.of_nat k))%Q.
Proof.
  intros Hlo Hhi Hl Hh. split.
  - by apply (fl_ge_dyadic fl Hfl).
  - by apply (fl_le_dyadic fl Hfl).
Qed.

(** ... and [int] of that float lies between the integer parts of the two. *)
Lemma py_int_fl_between (x : Q) (k : nat) (lo hi : Z) :
  0 <= lo -> lo <= 2 ^ 53 -> Z.abs hi <= 2 ^ 53 ->
  (inject_Z lo / inject_Z (2 ^ Z.of_nat k) <= x)%Q ->
  (x <= inject_Z hi / inject_Z (2 ^ Z.of_nat k))%Q ->
  lo / 2 ^ Z.of_nat k <= py_int (fl x) <= hi / 2 ^ Z.of_nat k.
Proof.
  intros Hlo0 Hlo Hhi Hl Hh.
  destruct (fl_between x k lo hi) as [H1 H2]; [lia|lia|done|done|].
  assert (Hpow : 0 < 2 ^ Z.of_nat k) by (apply Z.pow_pos_nonneg; lia).
  rewrite py_int_floor.
  - rewrite !Zdiv_Qdiv. split; by apply Qfloor_resp_le.
  - eapply Qle_trans; [|exact H1]. by apply Zquot_Qnonneg.
Qed.
End Enclosure.

Lemma cover_size_proportional (env : environment) (img : image) :
  binary64_rounding (env_fl env) ->
  0 < width img < 2 ^ 31 -> 0 < height img < 2 ^ 31 ->
  exists new_width new_height,
    cover_size env img = inr (new_width, new_height) /\
    if WINDOW_WIDTH * height img <? WINDOW_HEIGHT * width img
    then 256 * (WINDOW_HEIGHT * width img) - 257 * height img
         < 256 * (new_width * height img)
         <= 256 * (WINDOW_HEIGHT * width img) + height img
    else 256 * (WINDOW_WIDTH * height img) - 257 * width img
         < 256 * (new_height * width img)
         <= 256 * (WINDOW_WIDTH * height img) + width img.
Proof.
  intros Hfl Hw Hh. unfold cover_size, int_truediv.
  set (w := width img) in *. set (h := height img) in *.
  destruct (h =? 0) eqn:E0; [apply Z.eqb_eq in E0; lia|].
  set (r := env_fl env (inject_Z w / inject_Z h)).
  assert (Hpos : (inject_Z 1 / inject_Z (2 ^ 31) <= r)%Q) by (by apply ratio_positive).
  unfold WINDOW_WIDTH, WINDOW_HEIGHT.
  destruct (900 * h <? 600 * w) eqn:E.
  - apply Z.ltb_lt in E.
    assert (Hr : (inject_Z (3 * 2 ^ 31 + 1) / inject_Z (2 ^ 32) <= r)%Q)
      by (apply ratio_wide; [done..|lia]).
    assert (Hlt : Qltb (inject_Z 900 / inject_Z 600) r = true).
    { apply Qltb_lt. eapply Qlt_le_trans; [|exact Hr]. apply Zdiv_Qlt; lia. }
    rewrite Hlt. eexists _, _. split; [reflexivity|]. unfold float_mul.
    (* the ratio, between two multiples of 2^-21 *)
    set (m1 := w * 2 ^ 21 / h).
    assert (Hm1 : h * m1 <= w * 2 ^ 21 < h * m1 + h).
    { subst m1. split; [apply Z.mul_div_le; lia|].
      pose proof (Z.mul_succ_div_gt (w * 2 ^ 21) h ltac:(lia)). lia. }
    assert (Hm1b : 0 <= m1 < 2 ^ 52).
    { subst m1. split; [apply Z.div_pos; lia|].
      apply Z.div_lt_upper_bound; lia. }
    destruct (fl_between (env_fl env) Hfl (inject_Z w / inject_Z h) 21 m1 (m1 + 1))
      as [Hr1 Hr2]; [lia|lia|apply Zdiv_Qle; lia|apply Zdiv_Qle; lia|].
    fold r in Hr1, Hr2. change (2 ^ Z.of_nat 21) with (2 ^ 21) in Hr1, Hr2.
    (* the product, between two multiples of 2^-11 *)
    set (m2 := 600 * m1 / 2 ^ 10).
    set (M2 := (600 * (m1 + 1) + 1023) / 2 ^ 10).
    assert (Hm2 : 2 ^ 10 * m2 <= 600 * m1 < 2 ^ 10 * m2 + 2 ^ 10).
    { subst m2. split; [apply Z.mul_div_le; lia|].
      pose proof (Z.mul_succ_div_gt (600 * m1) (2 ^ 10) ltac:(lia)). lia. }
    assert (HM2 : 2 ^ 10 * M2 <= 600 * (m1 + 1) + 1023 < 2 ^ 10 * M2 + 2 ^ 10).
    { subst M2. split; [apply Z.mul_div_le; lia|].
      pose proof (Z.mul_succ_div_gt (600 * (m1 + 1) + 1023) (2 ^ 10) ltac:(lia)). lia. }
    destruct (py_int_fl_between (env_fl env) Hfl (inject_Z 600 * r) 11 m2 M2)
      as [Hlo Hhi]; [lia|lia|lia| | |].
    { change (2 ^ Z.of_nat 11) with (2 ^ 11).
      apply Qle_trans with (inject_Z 600 * (inject_Z m1 / inject_Z (2 ^ 21)))%Q.
      - rewrite <- (Qdiv_1 600), Zquot_Qmult by lia. apply Zdiv_Qle; lia.
      - apply Qmult_le_l; [done|exact Hr1]. }
    { change (2 ^ Z.of_nat 11) with (2 ^ 11).
      apply Qle_trans with (inject_Z 600 * (inject_Z (m1 + 1) / inject_Z (2 ^ 21)))%Q.
      - apply Qmult_le_l; [done|exact Hr2].
      - rewrite <- (Qdiv_1 600), Zquot_Qmult by lia. apply Zdiv_Qle; lia. }
    change (2 ^ Z.of_nat 11) with (2 ^ 11) in Hlo, Hhi.
    set (nw := py_int (env_fl env (inject_Z 600 * r))) in *.
    apply (wide_bounds w h m1 m2 M2 nw); try lia.
    + pose proof (Z.mul_succ_div_gt m2 (2 ^ 11) ltac:(lia)). lia.
    + pose proof (Z.mul_div_le M2 (2 ^ 11) ltac:(lia)). lia.
  - apply Z.ltb_ge in E.
    assert (Hr : (r <= inject_Z 3 / inject_Z 2)%Q) by (apply ratio_tall; [done..|lia]).
    assert (Hlt : Qltb (inject_Z 900 / inject_Z 600) r = false).
    { apply Qltb_ge. eapply Qle_trans; [exact Hr|]. apply Zdiv_Qle; lia. }
    rewrite Hlt. unfold float_truediv.
    assert (Hr0 : (0 < r)%Q).
    { eapply Qlt_le_trans; [|exact Hpos]. reflexivity. }
    destruct (Qeq_bool r 0) eqn:Ez.
    { apply Qeq_bool_eq in Ez. rewrite Ez in Hr0. by apply Qlt_irrefl in Hr0. }
    eexists _, _. split; [reflexivity|].
    (* the ratio, between two multiples of 2^-K that have 51 or 52 bits *)
    pose proof (Z.log2_spec w ltac:(lia)) as Ha.
    pose proof (Z.log2_spec h ltac:(lia)) as Hb.
    pose proof (Z.log2_nonneg w) as Ha0. pose proof (Z.log2_nonneg h) as Hb0.
    assert (Ha1 : Z.log2 w < 31) by (apply Z.log2_lt_pow2; lia).
    assert (Hb1 : Z.log2 h < 31) by (apply Z.log2_lt_pow2; lia).
    set (a := Z.log2 w) in *. set (b := Z.log2 h) in *.
    set (K := 51 - a + b).
    set (P := 2 ^ K).
    assert (HP : 0 < P) by (apply Z.pow_pos_nonneg; lia).
    assert (HP81 : P <= 2 ^ 81) by (apply Z.pow_le_mono_r; lia).
    assert (HaP : 2 ^ a * P = 2 ^ 50 * 2 ^ Z.succ b).
    { subst P K. rewrite <- !Z.pow_add_r by lia. f_equal. lia. }
    assert (HaP' : 2 ^ Z.succ a * P = 2 ^ 52 * 2 ^ b).
    { subst P K. rewrite <- !Z.pow_add_r by lia. f_equal. lia. }
    assert (HwP : 2 ^ 50 * h < w * P < 2 ^ 52 * h) by nia.
    set (m1 := w * P / h).
    assert (Hm1 : h * m1 <= w * P < h * m1 + h).
    { subst m1. split; [apply Z.mul_div_le; lia|].
      pose proof (Z.mul_succ_div_gt (w * P) h ltac:(lia)). lia. }
    assert (Hm1b : 2 ^ 50 <= m1 < 2 ^ 52).
    { subst m1. split; [apply Z.div_le_lower_bound; lia|apply Z.div_lt_upper_bound; lia]. }
    assert (HK : Z.of_nat (Z.to_nat K) = K) by (apply Z2Nat.id; subst K; lia).
    destruct (fl_between (env_fl env) Hfl (inject_Z w / inject_Z h) (Z.to_nat K) m1 (m1 + 1))
      as [Hr1 Hr2]; [lia|lia|rewrite HK; apply Zdiv_Qle; lia|rewrite HK; apply Zdiv_Qle; lia|].
    fold r in Hr1, Hr2. rewrite HK in Hr1, Hr2. fold P in Hr1, Hr2.
    (* the quotient, between two multiples of 2^-11 *)
    set (N := 900 * P * 2 ^ 11).
    set (A := N / (m1 + 1)).
    set (B := (N + m1 - 1) / m1).
    assert (HA : (m1 + 1) * A <= N < (m1 + 1) * A + (m1 + 1)).
    { subst A. split; [apply Z.mul_div_le; lia|].
      pose proof (Z.mul_succ_div_gt N (m1 + 1) ltac:(lia)). lia. }
    assert (HB : m1 * B <= N + m1 - 1 < m1 * B + m1).
    { subst B. split; [apply Z.mul_div_le; lia|].
      pose proof (Z.mul_succ_div_gt (N + m1 - 1) m1 ltac:(lia)). lia. }
    assert (HN : 0 < N <= 2 ^ 50 * (900 * 2 ^ 42)) by (subst N; lia).
    assert (HAb : 0 <= A <= 2 ^ 53).
    { subst A. split; [apply Z.div_pos; lia|].
      apply Z.lt_le_incl, Z.div_lt_upper_bound; nia. }
    assert (HBb : 0 <= B <= 2 ^ 53).
    { subst B. split; [apply Z.div_pos; lia|].
      apply Z.lt_le_incl, Z.div_lt_upper_bound; nia. }
    destruct (py_int_fl_between (env_fl env) Hfl (inject_Z 900 / r) 11 A B)
      as [Hlo Hhi]; [lia|lia|lia| | |].
    { change (2 ^ Z.of_nat 11) with (2 ^ 11).
      apply Qle_shift_div_l; [exact Hr0|]. rewrite Qmult_comm.
      apply Qle_trans
        with (inject_Z (m1 + 1) / inject_Z P * (inject_Z A / inject_Z (2 ^ 11)))%Q.
      - apply Qmult_le_compat_r; [exact Hr2|]. apply Zquot_Qnonneg; lia.
      - rewrite Zquot_Qmult, <- (Qdiv_1 900) by lia. apply Zdiv_Qle; lia. }
    { change (2 ^ Z.of_nat 11) with (2 ^ 11).
      apply Qle_shift_div_r; [exact Hr0|]. rewrite Qmult_comm.
      apply Qle_trans
        with (inject_Z m1 / inject_Z P * (inject_Z B / inject_Z (2 ^ 11)))%Q.
      - rewrite Zquot_Qmult, <- (Qdiv_1 900) by lia. apply Zdiv_Qle; lia.
      - apply Qmult_le_compat_r; [exact Hr1|]. apply Zquot_Qnonneg; lia. }
    change (2 ^ Z.of_nat 11) with (2 ^ 11) in Hlo, Hhi.
    set (nh := py_int (env_fl env (inject_Z 900 / r))) in *.
    apply (tall_bounds w h P m1 A B nh); try lia.
    + pose proof (Z.mul_succ_div_gt A (2 ^ 11) ltac:(lia)). lia.
    + pose proof (Z.mul_div_le B (2 ^ 11) ltac:(lia)). lia.
Qed.

(** X7.  Scaling keeps the proportions of the image.  The side that is not
    set to the window's is the proportional length ([600 w / h] for an image
    wider than the window, [900 h / w] otherwise) rounded down to a whole
    number of pixels, to within 1/256 of a pixel: it is never more than
    1/256 above the proportional length and less than 1 + 1/256 below it.
    (Both inequalities are multiplied by the other side of the image.) *)
Theorem scaling_keeps_proportions (env : environment) (img : image) :
  binary64_rounding (env_fl env) ->
  0 < width img < 2 ^ 31 -> 0 < height img < 2 ^ 31 ->
  exists new_width new_height,
    cover_size env img = inr (new_width, new_height) /\
    if WINDOW_WIDTH * height img <? WINDOW_HEIGHT * width img
    then new_height = WINDOW_HEIGHT /\
         256 * (WINDOW_HEIGHT * width img) - 257 * height img
         < 256 * (new_width * height img)
         <= 256 * (WINDOW_HEIGHT * width img) + height img
    else new_width = WINDOW_WIDTH /\
         256 * (WINDOW_WIDTH * height img) - 257 * width img
         < 256 * (new_height * width img)
         <= 256 * (WINDOW_WIDTH * height img) + width img.
Proof.
  intros Hfl Hw Hh.
  destruct (cover_size_proportional env img Hfl Hw Hh) as (nw & nh & E & Hp).
  destruct (cover_size_covers env img Hfl Hw Hh) as (nw' & nh' & E' & Hax & _).
  rewrite E in E'. injection E' as <- <-.
  exists nw, nh. split; [exact E|].
  destruct (WINDOW_WIDTH * height img <? WINDOW_HEIGHT * width img); by split.
Qed.

Lemma scaling_keeps_proportions_witness :
  exists new_width new_height,
    cover_size (sample_env 200 None) (Image 1000 700 []) = inr (new_width, new_height) /\
    if WINDOW_WIDTH * 700 <? WINDOW_HEIGHT * 1000
    then new_height = WINDOW_HEIGHT /\
         256 * (WINDOW_HEIGHT * 1000) - 257 * 700
         < 256 * (new_width * 700) <= 256 * (WINDOW_HEIGHT * 1000) + 700
    else new_width = WINDOW_WIDTH /\
         256 * (WINDOW_WIDTH * 700) - 257 * 1000
         < 256 * (new_height * 1000) <= 256 * (WINDOW_WIDTH * 700) + 1000.
Proof.
  apply (scaling_keeps_proportions (sample_env 200 None) (Image 1000 700 []));
    [apply binary64_is_rounding | cbn; lia | cbn; lia].
Defined.

(** ** More on the cycle: what it requests and what it logs *)

Lemma effects_refl (w : world) : effects w w [] [].
Proof. unfold effects. by rewrite !app_nil_r. Qed.

Lemma effects_trans (w1 w2 w3 : world) (l1 l2 : list (log_level * string))
    (r1 r2 : list (string * Z)) :
  effects w1 w2 l1 r1 -> effects w2 w3 l2 r2 -> effects w1 w3 (l1 ++ l2) (r1 ++ r2).
Proof.
  unfold effects. intros (-> & -> & -> & ->) (-> & -> & -> & ->).
  by rewrite !app_assoc.
Qed.

Lemma effects_log (w : world) (lvl : log_level) (msg : string) :
  effects w (World (w_log w ++ [(lvl, msg)]) (w_requests w) (w_current_image w) (w_canvas w))
          [(lvl, msg)] [].
Proof. unfold effects. cbn. by rewrite app_nil_r. Qed.

Lemma has_error_app_r (a b : list (log_level * string)) : has_error b -> has_error (a ++ b).
Proof. intros [msg H]. exists msg. apply in_or_app. by right. Qed.

Lemma has_error_app_l (a b : list (log_level * string)) : has_error a -> has_error (a ++ b).
Proof. intros [msg H]. exists msg. apply in_or_app. by left. Qed.

Lemma has_error_one (msg : string) : has_error [(ERROR, msg)].
Proof. exists msg. by left. Qed.

Lemma has_error_app (a b : list (log_level * string)) :
  has_error (a ++ b) -> has_error a \/ has_error b.
Proof.
  intros [msg H]. apply in_app_or in H as [H|H]; [left|right]; by exists msg.
Qed.

Lemma has_error_nil : ~ has_error [].
Proof. by intros [msg H]. Qed.

Lemma has_error_other (lvl : log_level) (msg : string) :
  lvl <> ERROR -> ~ has_error [(lvl, msg)].
Proof. intros Hl [m [[= -> _]|[]]]. done. Qed.

(** [fetch_quote]: one request, at most one record, and an error record
    only when the guarded block raised. *)
Lemma fetch_quote_effects (env : environment) (w : world) :
  exists q w' records,
    fetch_quote env w = (inr q, w') /\
    effects w w' records [(QUOTE_API_URL, 5)] /\
    (length records <= 1)%nat /\
    (has_error records -> exists e w1, fetch_quote_try env w = (inl e, w1)).
Proof.
  rewrite fetch_quote_unfold, fetch_quote_try_unfold. cbv zeta. unfold effects.
  assert (Hok : forall (A : Type) (q : A) (w1 : world),
             has_error [] -> exists e w2, (inr q : exn + A, w1) = (inl e, w2))
    by (intros A q w1 H; destruct (has_error_nil H)).
  assert (Hraise : forall (A : Type) (e : exn) (w1 : world) (l : list (log_level * string)),
             has_error l -> exists e' w2, (inl e : exn + A, w1) = (inl e', w2))
    by (intros; eauto).
  destruct (env_get env QUOTE_API_URL 5) as [r|];
    [|eexists _, _, [_]; cbn; split; [reflexivity|]; split; [done|]; split; [lia|];
      apply Hraise].
  destruct (status_code r =? 200).
  2:{ eexists _, _, [_]. cbn. split; [reflexivity|]. split; [done|]. split; [lia|].
      intros H. by destruct (has_error_other WARNING _ ltac:(discriminate) H). }
  destruct (json_body r) as [v|];
    [|eexists _, _, [_]; cbn; split; [reflexivity|]; split; [done|]; split; [lia|];
      apply Hraise].
  destruct v as [| | | | |l|d];
    try (eexists _, _, [_]; cbn; split; [reflexivity|]; split; [done|]; split; [lia|];
         apply Hraise).
  - destruct l as [|x l];
      [eexists _, _, [_]; cbn; split; [reflexivity|]; split; [done|]; split; [lia|];
       apply Hraise|].
    destruct x;
      try (eexists _, _, [_]; cbn; split; [reflexivity|]; split; [done|]; split; [lia|];
           apply Hraise).
    eexists _, _, []. cbn. rewrite app_nil_r. split; [reflexivity|]. split; [done|].
    split; [lia|]. apply Hok.
  - eexists _, _, []. cbn. rewrite app_nil_r. split; [reflexivity|]. split; [done|].
    split; [lia|]. apply Hok.
Qed.

Lemma fetch_image_effects (env : environment) (keyword : string) (w : world) :
  let url1 := loremflickr_url keyword (env_randint env 1 10000) in
  let url2 := picsum_url (env_randint env 1 10000) in
  exists r w' records requests,
    fetch_image env keyword w = (inr r, w') /\
    effects w w' records requests /\
    (requests = [(url1, 10)] \/ requests = [(url1, 10); (url2, 10)]) /\
    (requests = [(url1, 10); (url2, 10)] <->
     exists r1, env_get env url1 10 = Some r1 /\ status_code r1 <> 200) /\
    (has_error records -> r = None).
Proof.
  cbv zeta. rewrite fetch_image_unfold. cbv zeta. unfold effects.
  set (url1 := loremflickr_url keyword (env_randint env 1 10000)).
  set (url2 := picsum_url (env_randint env 1 10000)).
  assert (Hinfo : forall (m1 m2 : string) (r : option (list byte)),
             has_error ([(INFO, m1)] ++ [(INFO, m2)]) -> r = None).
  { intros m1 m2 r [H|H]%has_error_app;
      by destruct (has_error_other INFO _ ltac:(discriminate) H). }
  destruct (env_get env url1 10) as [r1|].
  - destruct (status_code r1 =? 200) eqn:E1.
    + eexists _, _, _, _. split; [reflexivity|]. cbn. split; [repeat split|].
      split; [left; reflexivity|]. split.
      * split; [discriminate|].
        intros (r & [= <-] & Hr). apply Z.eqb_eq in E1. done.
      * intros H. by destruct (has_error_other INFO _ ltac:(discriminate) H).
    + assert (Hiff : [(url1, 10); (url2, 10)] = [(url1, 10); (url2, 10)] <->
                     exists r, Some r1 = Some r /\ status_code r <> 200).
      { split; [|done]. intros _. exists r1. split; [done|]. by apply Z.eqb_neq. }
      destruct (env_get env url2 10) as [r2|]; [destruct (status_code r2 =? 200)|].
      * eexists _, _, _, _. split; [reflexivity|]. cbn. split.
        { rewrite <- ?app_assoc. cbn. repeat split. }
        split; [right; reflexivity|]. split; [exact Hiff|]. apply Hinfo.
      * eexists _, _, _, _. split; [reflexivity|]. cbn. split.
        { rewrite <- ?app_assoc. cbn. repeat split. }
        split; [right; reflexivity|]. split; [exact Hiff|]. done.
      * eexists _, _, _, _. split; [reflexivity|]. cbn. split.
        { rewrite <- ?app_assoc. cbn. repeat split. }
        split; [right; reflexivity|]. split; [exact Hiff|]. done.
  - eexists _, _, _, _. split; [reflexivity|]. cbn. split; [rewrite <- ?app_assoc; repeat split|].
    split; [left; reflexivity|]. split; [|done]. split; [discriminate|].
    by intros (r & [=] & _).
Qed.

Lemma resolve_fonts_effects (env : environment) (w : world) :
  exists fonts w' records,
    resolve_fonts env w = (inr fonts, w') /\ effects w w' records [] /\ ~ has_error records.
Proof.
  rewrite resolve_fonts_unfold.
  destruct (load_fonts_total env font_candidates None None) as (l & s & -> & _).
  destruct l as [l|].
  - eexists _, _, _. split; [reflexivity|]. split; [apply effects_refl|apply has_error_nil].
  - eexists _, _, _. split; [reflexivity|]. split; [apply effects_log|].
    by apply has_error_other.
Qed.

Lemma process_image_try_effects (env : environment) (image_data : list byte)
    (text author : pyval) (w : world) :
  exists records,
    effects w (snd (process_image_try env image_data text author w)) records [] /\
    ~ has_error records.
Proof.
  unfold process_image_try, mbind, M_bind, lift, as_str, mret, M_ret, raise.
  assert (H0 : exists records, effects w w records [] /\ ~ has_error records)
    by (exists []; split; [apply effects_refl|apply has_error_nil]).
  destruct (Image_open env image_data) as [e|img0]; [exact H0|].
  destruct (scale_and_crop env image_data img0) as [e|img1]; [exact H0|].
  rewrite alpha_composite_overlay.
  destruct (resolve_fonts_effects env w) as ([l s] & w' & records & -> & He & Hn).
  exists records.
  destruct text; try (split; [exact He|exact Hn]).
  destruct (wrap (max_chars env) s0) as [e|text_lines]; [split; [exact He|exact Hn]|].
  destruct author; try (split; [exact He|exact Hn]).
  destruct (draw_text_block env l s text_lines s1 img1); split; (exact He || exact Hn).
Qed.

(** [process_image] requests nothing, and logs an error exactly when it
    returns [None]. *)
Lemma process_image_effects (env : environment) (image_data : list byte)
    (text author : pyval) (w : world) :
  exists r w' records,
    process_image env image_data text author w = (inr r, w') /\
    effects w w' records [] /\
    (r = None <-> has_error records).
Proof.
  rewrite process_image_unfold.
  destruct (process_image_try_effects env image_data text author w) as (records & He & Hn).
  destruct (process_image_try env image_data text author w) as [[e|f] w']; cbn [snd] in He.
  - eexists _, _, _. split; [reflexivity|]. split.
    + exact (effects_trans _ _ _ _ _ [] [] He (effects_log w' ERROR _)).
    + split; [|done]. intros _. apply has_error_app_r, has_error_one.
  - eexists _, _, _. split; [reflexivity|]. split; [exact He|]. split; [discriminate|].
    intros H. by destruct (Hn H).
Qed.

(** One cycle, in full: the quote is requested first and once, then one or
    two images; the display changes only by one frame being shown, composed
    from the pair that [fetch_quote] returned; a cycle that shows nothing
    logs an error; and an error is logged only by a cycle that shows
    nothing or whose quote request raised. *)
Lemma load_content_effects (env : environment) (w : world) :
  let url1 := loremflickr_url SEARCH_KEYWORD (env_randint env 1 10000) in
  let url2 := picsum_url (env_randint env 1 10000) in
  exists q w' records images,
    fst (fetch_quote env w) = inr q /\
    load_content env w = (inr tt, w') /\
    w_log w' = w_log w ++ records /\
    w_requests w' = w_requests w ++ (QUOTE_API_URL, 5) :: images /\
    (images = [(url1, 10)] \/ images = [(url1, 10); (url2, 10)]) /\
    (images = [(url1, 10); (url2, 10)] <->
     exists r1, env_get env url1 10 = Some r1 /\ status_code r1 <> 200) /\
    ((w_current_image w' = w_current_image w /\ w_canvas w' = w_canvas w /\
      has_error records) \/
     (exists f, complete_frame env (fst q) (snd q) f /\
                w_current_image w' = Some f /\ w_canvas w' = w_canvas w ++ [f]) /\
     (has_error records -> exists e w1, fetch_quote_try env w = (inl e, w1))).
Proof.
  cbv zeta. rewrite load_content_unfold. cbv zeta.
  destruct (fetch_quote_effects env w) as ([qt qa] & w1 & l1 & -> & H1 & _ & Hq).
  destruct (fetch_image_effects env SEARCH_KEYWORD w1)
    as (r & w2 & l2 & images & -> & H2 & Hi & Hiff & He2).
  cbv zeta in Hi, Hiff. exists (qt, qa).
  pose proof (effects_trans _ _ _ _ _ _ _ H1 H2) as (Hl & Hr & Hc & Hv).
  assert (Hfail : exists w' records,
             (inr tt, World (w_log w2 ++ [(ERROR, "Failed to fetch image data.")])
                            (w_requests w2) (w_current_image w2) (w_canvas w2))
             = (inr tt : exn + unit, w') /\
             w_log w' = w_log w ++ records /\
             w_requests w' = w_requests w ++ (QUOTE_API_URL, 5) :: images /\
             w_current_image w' = w_current_image w /\ w_canvas w' = w_canvas w /\
             has_error records).
  { eexists _, _. split; [reflexivity|]. cbn. rewrite Hl, Hr, <- !app_assoc.
    split; [reflexivity|]. split; [reflexivity|]. split; [exact Hc|]. split; [exact Hv|].
    apply has_error_app_r, has_error_app_r, has_error_one. }
  destruct r as [[|b data]|].
  - destruct Hfail as (w' & records & E & H3 & H4 & H5 & H6 & H7).
    exists w', records, images. split; [reflexivity|]. split; [exact E|]. split; [exact H3|].
    split; [exact H4|]. split; [exact Hi|]. split; [exact Hiff|]. left. tauto.
  - destruct (process_image_effects env (b :: data) qt qa w2)
      as (fi & w3 & l3 & Hp & H3 & Herr).
    pose proof (process_image_spec env (b :: data) qt qa w2) as (fi' & w3' & Hp' & _ & Hf).
    rewrite Hp in Hp'. injection Hp' as <- <-. rewrite Hp.
    pose proof (effects_trans _ _ _ _ _ _ _ (effects_trans _ _ _ _ _ _ _ H1 H2) H3)
      as (Hl3 & Hr3 & Hc3 & Hv3).
    rewrite app_nil_r in Hr3. cbn [app] in Hr3.
    destruct fi as [f|]; cbn.
    + eexists _, _, images. split; [reflexivity|]. split; [reflexivity|]. cbn.
      split; [exact Hl3|]. split; [exact Hr3|]. split; [exact Hi|]. split; [exact Hiff|].
      right. split.
      * exists f. rewrite Hv3. split; [exact Hf|]. split; reflexivity.
      * intros [[H|H]%has_error_app|H]%has_error_app.
        -- by apply Hq.
        -- by specialize (He2 H).
        -- apply Herr in H. done.
    + eexists _, _, images. split; [reflexivity|]. split; [reflexivity|].
      split; [exact Hl3|]. split; [exact Hr3|]. split; [exact Hi|]. split; [exact Hiff|].
      left. split; [exact Hc3|]. split; [exact Hv3|].
      apply has_error_app_r, Herr. reflexivity.
  - destruct Hfail as (w' & records & E & H3 & H4 & H5 & H6 & H7).
    exists w', records, images. split; [reflexivity|]. split; [exact E|]. split; [exact H3|].
    split; [exact H4|]. split; [exact Hi|]. split; [exact Hiff|]. left. tauto.
Qed.

(** X8.  Whatever the services answer, a cycle requests the quote first and
    once, with a timeout of 5 seconds, and then one or two images with a
    timeout of 10 seconds: the keyworded source, followed by the other
    source exactly when the keyworded one answered with a status other than
    200.  It requests nothing else. *)
Theorem cycle_requests_quote_then_images (env : environment) (w : world) :
  let url1 := loremflickr_url SEARCH_KEYWORD (env_randint env 1 10000) in
  let url2 := picsum_url (env_randint env 1 10000) in
  exists images,
    w_requests (snd (load_content env w)) = w_requests w ++ (QUOTE_API_URL, 5) :: images /\
    (images = [(url1, 10)] \/ images = [(url1, 10); (url2, 10)]) /\
    (images = [(url1, 10); (url2, 10)] <->
     exists r1, env_get env url1 10 = Some r1 /\ status_code r1 <> 200).
Proof.
  cbv zeta.
  destruct (load_content_effects env w) as (q & w' & records & images & _ & -> & _ & H & Hi & Hiff & _).
  exists images. split; [exact H|]. split; [exact Hi|exact Hiff].
Qed.

Lemma cycle_requests_quote_then_images_witness :
  w_requests (snd (load_content primary_503_env empty_world))
  = [(QUOTE_API_URL, 5); (loremflickr_url SEARCH_KEYWORD 1, 10); (picsum_url 1, 10)].
Proof.
  destruct (cycle_requests_quote_then_images primary_503_env empty_world)
    as (images & Hr & _ & Hiff).
  rewrite Hr. cbn [w_requests empty_world app]. f_equal.
  apply (proj2 Hiff). exists (Response 503 [] None). split; [reflexivity|discriminate].
Defined.

(** X9.  No cycle fails in silence, and none cries wolf: a cycle that puts
    no new image on the canvas has logged at least one record at level
    ERROR; and a cycle logs at level ERROR only if it puts no new image on
    the canvas or the guarded block of [fetch_quote] raised. *)
Theorem cycle_failure_is_logged (env : environment) (w : world) :
  exists records,
    w_log (snd (load_content env w)) = w_log w ++ records /\
    (w_canvas (snd (load_content env w)) = w_canvas w -> has_error records) /\
    (has_error records ->
     w_canvas (snd (load_content env w)) = w_canvas w \/
     exists e w1, fetch_quote_try env w = (inl e, w1)).
Proof.
  destruct (load_content_effects env w)
    as (q & w' & records & images & _ & -> & Hl & _ & _ & _ & Hd).
  exists records. split; [exact Hl|]. cbn [snd].
  destruct Hd as [(_ & Hc & He)|((f & _ & _ & Hf) & Hq)].
  - split; [by intros _|]. intros _. by left.
  - split.
    + intros Hc. rewrite Hf in Hc. apply (f_equal length) in Hc.
      rewrite length_app in Hc. cbn in Hc. lia.
    + intros He. right. by apply Hq.
Qed.

Lemma cycle_failure_is_logged_witness :
  exists records,
    w_log (snd (load_content bad_image_env empty_world)) = w_log empty_world ++ records /\
    has_error records.
Proof.
  destruct (cycle_failure_is_logged bad_image_env empty_world) as (records & Hl & He & _).
  exists records. split; [exact Hl|]. apply He. reflexivity.
Defined.

(** ** More on the cycle: what is shown *)

Lemma map_op_text_quote_ops (env : environment) (f : option font) (text_lines : list string)
    (y : Q) :
  map op_text (quote_ops env f text_lines y) = flat_map (fun line => [line; line]) text_lines.
Proof.
  revert y. induction text_lines as [|line rest IH]; intros y; [done|].
  cbn [quote_ops flat_map]. rewrite map_app, IH. done.
Qed.

(** A cycle whose image arrives from the keyworded source and is opened,
    scaled and cropped shows a frame that carries the pair returned by
    [fetch_quote]. *)
Lemma load_content_shows (env : environment) (w : world) (text author : string)
    (r1 : response) (b : byte) (data : list byte) :
  binary64_rounding (env_fl env) ->
  fst (fetch_quote env w) = inr (PyStr text, PyStr author) ->
  env_get env (loremflickr_url SEARCH_KEYWORD (env_randint env 1 10000)) 10 = Some r1 ->
  status_code r1 = 200 -> content r1 = b :: data ->
  image_is_prepared env (b :: data) ->
  cycle_shows env w text author.
Proof.
  intros Hfl Hq Hget Hst Hct Hprep. unfold cycle_shows.
  rewrite load_content_unfold. cbv zeta.
  destruct (fetch_quote_effects env w) as (q & w1 & l1 & Hfq & H1 & _).
  rewrite Hfq in Hq |- *. cbn [fst] in Hq. injection Hq as ->.
  destruct (fetch_image_effects env SEARCH_KEYWORD w1)
    as (r & w2 & l2 & images & Hfi & H2 & _).
  assert (Hr : r = Some (b :: data)).
  { rewrite fetch_image_unfold in Hfi. cbv zeta in Hfi. rewrite Hget in Hfi.
    apply Z.eqb_eq in Hst. rewrite Hst, Hct in Hfi. by injection Hfi as <- _. }
  subst r. rewrite Hfi.
  destruct (process_image_succeeds env (b :: data) text author w2 Hfl Hprep)
    as (f & w3 & Hp).
  destruct (process_image_effects env (b :: data) (PyStr text) (PyStr author) w2)
    as (fi & w3' & l3 & Hp' & H3 & _).
  rewrite Hp in Hp'. injection Hp' as <- <-.
  pose proof (process_image_spec env (b :: data) (PyStr text) (PyStr author) w2)
    as (fi & w3' & Hp' & _ & Hf).
  rewrite Hp in Hp'. injection Hp' as <- <-. destruct Hf as (Hfw & Hfh & _).
  destruct (process_image_Some_inv _ _ _ _ _ _ _ Hp) as (fl & fs & text_lines & _ & Hw & Hops).
  rewrite Hp. cbn.
  pose proof (effects_trans _ _ _ _ _ _ _ (effects_trans _ _ _ _ _ _ _ H1 H2) H3)
    as (_ & _ & _ & Hv).
  exists f, text_lines. split; [exact Hw|]. split; [reflexivity|]. split; [by rewrite Hv|].
  split; [exact Hfw|]. split; [exact Hfh|].
  cbv zeta in Hops. rewrite Hops, map_app, map_op_text_quote_ops. reflexivity.
Qed.

(** X10.  End to end: when the quote service answers 200 with a JSON record
    (or a list that starts with one) whose quote and author are strings, and
    the keyworded image source answers 200 with bytes that are opened,
    scaled and cropped, the cycle shows a window-sized frame on which the
    wrapped lines of that quote are drawn in order, each with its shadow,
    followed by the author line with its shadow. *)
Theorem cycle_shows_the_fetched_quote (env : environment) (w : world) (r : response)
    (d : gmap string pyval) (rest : list pyval) (text author : string)
    (r1 : response) (b : byte) (data : list byte) :
  binary64_rounding (env_fl env) ->
  env_get env QUOTE_API_URL 5 = Some r -> status_code r = 200 ->
  json_body r = Some (PyDict d) \/ json_body r = Some (PyList (PyDict d :: rest)) ->
  d !! "quote" = Some (PyStr text) -> d !! "author" = Some (PyStr author) ->
  env_get env (loremflickr_url SEARCH_KEYWORD (env_randint env 1 10000)) 10 = Some r1 ->
  status_code r1 = 200 -> content r1 = b :: data ->
  image_is_prepared env (b :: data) ->
  cycle_shows env w text author.
Proof.
  intros Hfl Hr Hs Hj Hquote Hauthor Hget Hst Hct Hprep.
  apply (load_content_shows env w text author r1 b data); try assumption.
  rewrite fetch_quote_unfold, fetch_quote_try_unfold, Hr. cbv zeta.
  apply Z.eqb_eq in Hs. rewrite Hs.
  destruct Hj as [-> | ->]; unfold dict_get; by rewrite Hquote, Hauthor.
Qed.

Lemma cycle_shows_the_fetched_quote_witness :
  cycle_shows (sample_env 200 (Some sample_quote)) empty_world
    "Life is what happens when you are busy making other plans." "John Lennon".
Proof.
  apply (cycle_shows_the_fetched_quote (sample_env 200 (Some sample_quote)) empty_world
           (Response 200 [] (Some sample_quote))
           (<["quote" := PyStr "Life is what happens when you are busy making other plans."]>
              (<["author" := PyStr "John Lennon"]> (<["id" := PyInt 7]> ∅)))
           [] "Life is what happens when you are busy making other plans." "John Lennon"
           (Response 200 one_pixel_png None) x89 [x50; x4e; x47]);
    [apply binary64_is_rounding | reflexivity | reflexivity | left; reflexivity
    | vm_compute; reflexivity | vm_compute; reflexivity
    | reflexivity | reflexivity | reflexivity | ].
  exists (Image 1920 1080 []), (Image 900 600 []). split; vm_compute; reflexivity.
Defined.



(** X12.  A record whose quote or author is not a JSON string is not
    replaced by a fallback quote: the cycle shows nothing, leaves the
    display as it was, and logs an error. *)
Theorem malformed_record_shows_nothing (env : environment) (w : world) (r : response)
    (d : gmap string pyval) (rest : list pyval) (v : pyval) :
  env_get env QUOTE_API_URL 5 = Some r -> status_code r = 200 ->
  json_body r = Some (PyDict d) \/ json_body r = Some (PyList (PyDict d :: rest)) ->
  (d !! "quote" = Some v \/ d !! "author" = Some v) ->
  (forall s, v <> PyStr s) ->
  same_display w (snd (load_content env w)) /\
  exists records,
    w_log (snd (load_content env w)) = w_log w ++ records /\ has_error records.
Proof.
  intros Hr Hs Hj Hv Hns.
  destruct (load_content_effects env w)
    as (q & w' & records & images & Hq & -> & Hl & _ & _ & _ & Hd).
  cbn [snd].
  assert (Hbad : forall text author, q = (PyStr text, PyStr author) -> False).
  { intros text author ->.
    rewrite fetch_quote_unfold, fetch_quote_try_unfold, Hr in Hq. cbv zeta in Hq.
    apply Z.eqb_eq in Hs. rewrite Hs in Hq.
    assert (E : dict_get d "quote"
                  (dict_get d "content" (PyStr "Inspiration allows us to do great things."))
                = PyStr text /\ dict_get d "author" (PyStr "Unknown") = PyStr author).
    { destruct Hj as [Hj | Hj]; rewrite Hj in Hq; cbn in Hq; by injection Hq as -> ->. }
    destruct E as [E1 E2]. unfold dict_get in E1, E2.
    destruct Hv as [Hv | Hv]; rewrite Hv in *; by eapply Hns. }
  destruct Hd as [(Hc & Hcv & He) | ((f & Hf & _) & _)].
  - split; [by split|]. by exists records.
  - destruct Hf as (_ & _ & quote & name & _ & E1 & E2 & _).
    destruct q as [qt qa]. cbn in E1, E2. subst. by destruct (Hbad quote name).
Qed.

Lemma malformed_record_shows_nothing_witness :
  same_display empty_world
    (snd (load_content (sample_env 200 (Some (PyDict (<["quote" := PyInt 42]> ∅))))
            empty_world)).
Proof.
  apply (malformed_record_shows_nothing
           (sample_env 200 (Some (PyDict (<["quote" := PyInt 42]> ∅)))) empty_world
           (Response 200 [] (Some (PyDict (<["quote" := PyInt 42]> ∅))))
           (<["quote" := PyInt 42]> ∅) [] (PyInt 42));
    [reflexivity | reflexivity | left; reflexivity | left; vm_compute; reflexivity
    | discriminate].
Defined.

(** X13.  A 200 answer of the keyworded source with an empty body counts as
    a failed fetch, and the other source is not tried: the cycle requests
    the quote and that one image, shows nothing, and its last log record is
    the error [Failed to fetch image data.] *)
Theorem empty_image_body_is_a_failed_fetch (env : environment) (w : world) (r1 : response) :
  env_get env (loremflickr_url SEARCH_KEYWORD (env_randint env 1 10000)) 10 = Some r1 ->
  status_code r1 = 200 -> content r1 = [] ->
  same_display w (snd (load_content env w)) /\
  w_requests (snd (load_content env w))
  = w_requests w ++ [(QUOTE_API_URL, 5);
                     (loremflickr_url SEARCH_KEYWORD (env_randint env 1 10000), 10)] /\
  last (w_log (snd (load_content env w))) = Some (ERROR, "Failed to fetch image data.").
Proof.
  intros Hget Hst Hct. rewrite load_content_unfold. cbv zeta.
  destruct (fetch_quote_effects env w) as ([qt qa] & w1 & l1 & -> & (_ & Hr1 & Hc1 & Hv1) & _).
  rewrite fetch_image_unfold. cbv zeta. rewrite Hget.
  apply Z.eqb_eq in Hst. rewrite Hst, Hct. cbn.
  split; [by split|]. split.
  - rewrite Hr1, <- app_assoc. reflexivity.
  - apply last_snoc.
Qed.

Lemma empty_image_body_is_a_failed_fetch_witness :
  same_display empty_world (snd (load_content empty_body_env empty_world)) /\
  w_requests (snd (load_content empty_body_env empty_world))
  = [(QUOTE_API_URL, 5); (loremflickr_url SEARCH_KEYWORD 1, 10)] /\
  last (w_log (snd (load_content empty_body_env empty_world)))
  = Some (ERROR, "Failed to fetch image data.").
Proof.
  apply (empty_image_body_is_a_failed_fetch empty_body_env empty_world (Response 200 [] None));
    reflexivity.
Defined.

(** ** More on [fetch_quote]: reading the record *)

(** X14.  From a 200 answer that is a JSON record, or a list whose first
    element is one (the rest of the list is not looked at), [fetch_quote]
    returns the field [quote] if there is one, else the field [content],
    else a built-in sentence; and the field [author], else [Unknown].  The
    values are returned as they are.  It has made the one request, with a
    timeout of 5 seconds, and logged nothing. *)
Theorem fetch_quote_reads_the_record (env : environment) (w : world) (r : response)
    (d : gmap string pyval) (rest : list pyval) :
  env_get env QUOTE_API_URL 5 = Some r -> status_code r = 200 ->
  json_body r = Some (PyDict d) \/ json_body r = Some (PyList (PyDict d :: rest)) ->
  exists content author,
    fetch_quote env w
    = (inr (content, author),
       World (w_log w) (w_requests w ++ [(QUOTE_API_URL, 5)])
             (w_current_image w) (w_canvas w)) /\
    (forall v, d !! "quote" = Some v -> content = v) /\
    (forall v, d !! "quote" = None -> d !! "content" = Some v -> content = v) /\
    (d !! "quote" = None -> d !! "content" = None ->
     content = PyStr "Inspiration allows us to do great things.") /\
    (forall v, d !! "author" = Some v -> author = v) /\
    (d !! "author" = None -> author = PyStr "Unknown").
Proof.
  intros Hr Hs Hj. rewrite fetch_quote_unfold, fetch_quote_try_unfold, Hr. cbv zeta.
  apply Z.eqb_eq in Hs. rewrite Hs.
  exists (dict_get d "quote"
            (dict_get d "content" (PyStr "Inspiration allows us to do great things."))),
         (dict_get d "author" (PyStr "Unknown")).
  split; [by destruct Hj as [-> | ->]|].
  unfold dict_get.
  repeat split.
  - by intros v ->.
  - by intros v -> ->.
  - by intros -> ->.
  - by intros v ->.
  - by intros ->.
Qed.

Lemma fetch_quote_reads_the_record_witness :
  fst (fetch_quote (sample_env 200 (Some (PyList [sample_quote; PyNone]))) empty_world)
  = inr (PyStr "Life is what happens when you are busy making other plans.",
         PyStr "John Lennon").
Proof.
  destruct (fetch_quote_reads_the_record
              (sample_env 200 (Some (PyList [sample_quote; PyNone]))) empty_world
              (Response 200 [] (Some (PyList [sample_quote; PyNone])))
              (<["quote" := PyStr "Life is what happens when you are busy making other plans."]>
                 (<["author" := PyStr "John Lennon"]> (<["id" := PyInt 7]> ∅)))
              [PyNone] eq_refl eq_refl (or_intror eq_refl))
    as (content & author & -> & Hq & _ & _ & Ha & _).
  cbn [fst]. f_equal. f_equal.
  - apply Hq. vm_compute. reflexivity.
  - apply Ha. vm_compute. reflexivity.
Defined.

(** ** The scheduler *)

Lemma schedule_next_update_world (a : DesktopApp) :
  app_world (schedule_next_update a) = app_world a /\
  app_threads (schedule_next_update a) = app_threads a /\
  app_running (schedule_next_update a) = app_running a /\
  app_geometry (schedule_next_update a) = app_geometry a.
Proof.
  unfold schedule_next_update. destruct (app_running a) eqn:E; cbn; rewrite ?E; auto.
Qed.

Lemma tick_spec (a a' : DesktopApp) :
  tick a a' -> app_running a = true -> app_timers a = [UPDATE_INTERVAL_MS] ->
  app_running a' = true /\ app_timers a' = [UPDATE_INTERVAL_MS] /\
  app_threads a' = S (app_threads a) /\ app_world a' = app_world a.
Proof.
  intros Ht Hrun Htm. destruct Ht as [a before after ms Hb].
  rewrite Htm in Hb.
  destruct before as [|x before]; [|by destruct before].
  injection Hb as <- <-.
  unfold trigger_update, schedule_next_update. cbn. rewrite Hrun. done.
Qed.

(** Every step keeps the flag [running] set and one timer pending. *)
Lemma step_keeps_one_timer (a a' : DesktopApp) :
  step a a' ->
  app_running a = true -> app_timers a = [UPDATE_INTERVAL_MS] ->
  app_running a' = true /\ app_timers a' = [UPDATE_INTERVAL_MS].
Proof.
  intros Hstep Hrun Ht. destruct Hstep as [a a' Htick | env a n Hn].
  - destruct (tick_spec a a' Htick Hrun Ht) as (H1 & H2 & _). by split.
  - done.
Qed.

Lemma init_one_timer (env : environment) (screen_width screen_height : Z) :
  app_running (DesktopApp_init env screen_width screen_height) = true /\
  app_timers (DesktopApp_init env screen_width screen_height) = [UPDATE_INTERVAL_MS] /\
  app_threads (DesktopApp_init env screen_width screen_height) = O.
Proof. unfold DesktopApp_init. by destruct (window_origin screen_width screen_height). Qed.

Lemma reachable_one_timer (env : environment) (screen_width screen_height : Z)
    (a : DesktopApp) :
  reachable env screen_width screen_height a ->
  app_running a = true /\ app_timers a = [UPDATE_INTERVAL_MS].
Proof.
  unfold reachable. revert a. apply rtc_ind_r.
  - destruct (init_one_timer env screen_width screen_height) as (H1 & H2 & _). by split.
  - intros b a Hb Hstep [Hrun Ht]. by apply (step_keeps_one_timer b a).
Qed.

(** X15.  The refresh never stops and never piles up.  In every state that
    the application reaches after [__init__], whatever the cycles met and
    did (each worker runs in an environment of its own), [running] is set
    and exactly one timer is pending, of 10000 ms; it can fire, and when it
    does [trigger_update] starts one worker and leaves exactly one timer
    pending again. *)
Theorem one_refresh_timer_is_pending (env : environment) (screen_width screen_height : Z)
    (a : DesktopApp) :
  reachable env screen_width screen_height a ->
  app_running a = true /\
  app_timers a = [UPDATE_INTERVAL_MS] /\
  UPDATE_INTERVAL_MS = 10000 /\
  (exists a', tick a a') /\
  forall a', tick a a' ->
    app_running a' = true /\
    app_timers a' = [UPDATE_INTERVAL_MS] /\
    app_threads a' = S (app_threads a) /\
    app_world a' = app_world a.
Proof.
  intros H. destruct (reachable_one_timer env screen_width screen_height a H) as [Hrun Ht].
  split; [exact Hrun|]. split; [exact Ht|]. split; [reflexivity|]. split.
  - eexists. apply (tick_timer a [] [] UPDATE_INTERVAL_MS). exact Ht.
  - intros a' Htick. by apply tick_spec.
Qed.

Lemma one_refresh_timer_is_pending_witness :
  let a := DesktopApp_init (sample_env 200 (Some sample_quote)) 1920 1080 in
  let a1 := trigger_update (App (app_geometry a) (app_running a) [] (app_threads a)
                                (app_world a)) in
  let a2 := App (app_geometry a1) (app_running a1) (app_timers a1) O
                (snd (load_content offline_env (app_world a1))) in
  app_running a2 = true /\ app_timers a2 = [UPDATE_INTERVAL_MS].
Proof.
  cbv zeta.
  set (a := DesktopApp_init (sample_env 200 (Some sample_quote)) 1920 1080).
  set (a1 := trigger_update (App (app_geometry a) (app_running a) [] (app_threads a)
                                 (app_world a))).
  set (a2 := App (app_geometry a1) (app_running a1) (app_timers a1) O
                 (snd (load_content offline_env (app_world a1)))).
  destruct (one_refresh_timer_is_pending (sample_env 200 (Some sample_quote)) 1920 1080 a2)
    as (Hrun & Ht & _).
  - unfold reachable. apply rtc_l with a1.
    + apply step_tick. apply (tick_timer a [] [] UPDATE_INTERVAL_MS). reflexivity.
    + apply rtc_once. apply (step_worker offline_env a1 O). reflexivity.
  - split; [exact Hrun|exact Ht].
Defined.

Lemma update_ui_display_consistent (photo_image : option frame) (w : world) :
  match photo_image with Some f => window_sized f | None => True end ->
  display_consistent w -> display_consistent (snd (update_ui photo_image w)).
Proof.
  intros Hf [Hc Hall]. destruct photo_image as [f|]; [|done].
  unfold display_consistent. cbn. rewrite last_snoc. split; [done|].
  apply Forall_app. split; [done|]. by constructor.
Qed.

Lemma load_content_display_consistent (env : environment) (w : world) :
  display_consistent w -> display_consistent (snd (load_content env w)).
Proof.
  intros [Hc Hall].
  destruct (load_content_effects env w)
    as (q & w' & records & images & _ & -> & _ & _ & _ & _ & Hd).
  cbn [snd]. unfold display_consistent.
  destruct Hd as [(-> & -> & _) | ((f & (Hfw & Hfh & _) & -> & ->) & _)]; [done|].
  rewrite last_snoc. split; [done|].
  apply Forall_app. split; [done|]. constructor; [by split|constructor].
Qed.

(** X16.  What is on display is the newest item of the canvas, and nothing
    but window-sized frames is ever put on the canvas: this holds after
    [__init__] and in every state the application reaches, however timers
    and workers interleave and whatever each cycle meets (each worker runs
    in an environment of its own).  Items are only ever added to the
    canvas, one at most in a step. *)
Theorem display_is_newest_canvas_item (env : environment) (screen_width screen_height : Z)
    (a : DesktopApp) :
  reachable env screen_width screen_height a ->
  display_consistent (app_world a) /\
  forall a', step a a' ->
    exists new, w_canvas (app_world a') = w_canvas (app_world a) ++ new /\
                (length new <= 1)%nat.
Proof.
  intros H. split.
  - unfold reachable in H. revert a H. apply rtc_ind_r.
    + unfold DesktopApp_init.
      destruct (window_origin screen_width screen_height) as [x_c y_c].
      cbn. apply load_content_display_consistent. split; [done|constructor].
    + intros b a Hb Hstep IH. destruct Hstep as [b a Htick | env' b k Hk].
      * destruct Htick as [b before after ms Ht].
        unfold trigger_update. by rewrite (proj1 (schedule_next_update_world _)).
      * cbn. by apply load_content_display_consistent.
  - intros a' Hstep. destruct Hstep as [a a' Htick | env' a k Hk].
    + destruct Htick as [a before after ms Ht].
      exists []. unfold trigger_update. rewrite (proj1 (schedule_next_update_world _)).
      cbn. rewrite app_nil_r. split; [done|lia].
    + cbn.
      destruct (load_content_effects env' (app_world a))
        as (q & w' & records & images & _ & -> & _ & _ & _ & _ & Hd).
      cbn [snd]. destruct Hd as [(_ & -> & _) | ((f & _ & _ & ->) & _)].
      * exists []. rewrite app_nil_r. split; [done|cbn; lia].
      * exists [f]. split; [done|cbn; lia].
Qed.

Lemma display_is_newest_canvas_item_witness :
  let a := DesktopApp_init (sample_env 200 (Some sample_quote)) 1920 1080 in
  let a1 := trigger_update (App (app_geometry a) (app_running a) [] (app_threads a)
                                (app_world a)) in
  let a2 := App (app_geometry a1) (app_running a1) (app_timers a1) O
                (snd (load_content offline_env (app_world a1))) in
  display_consistent (app_world a2).
Proof.
  cbv zeta.
  set (a := DesktopApp_init (sample_env 200 (Some sample_quote)) 1920 1080).
  set (a1 := trigger_update (App (app_geometry a) (app_running a) [] (app_threads a)
                                 (app_world a))).
  set (a2 := App (app_geometry a1) (app_running a1) (app_timers a1) O
                 (snd (load_content offline_env (app_world a1)))).
  apply (display_is_newest_canvas_item (sample_env 200 (Some sample_quote)) 1920 1080 a2).
  unfold reachable. apply rtc_l with a1.
  - apply step_tick. apply (tick_timer a [] [] UPDATE_INTERVAL_MS). reflexivity.
  - apply rtc_once. apply (step_worker offline_env a1 O). reflexivity.
Defined.

Lemma rtc_tick_step (a a' : DesktopApp) : rtc tick a a' -> rtc step a a'.
Proof.
  induction 1 as [|a b c Hab Hbc IH]; [reflexivity|].
  apply rtc_l with b; [by apply step_tick|exact IH].
Qed.

(** X17.  Cycles are started without regard to the ones still running:
    [trigger_update] starts a worker at every tick, whether or not an earlier
    worker has finished, so any number of workers can be pending at once;
    ticks alone, with no worker having run, lead there. *)
Theorem workers_can_pile_up (env : environment) (screen_width screen_height : Z) (n : nat) :
  exists a,
    rtc tick (DesktopApp_init env screen_width screen_height) a /\
    reachable env screen_width screen_height a /\
    app_threads a = n /\
    app_world a = app_world (DesktopApp_init env screen_width screen_height).
Proof.
  induction n as [|n (a & Hticks & Ha & Hn & Hw)].
  - exists (DesktopApp_init env screen_width screen_height).
    split; [reflexivity|]. split; [unfold reachable; reflexivity|]. split; [|reflexivity].
    by destruct (init_one_timer env screen_width screen_height) as (_ & _ & ->).
  - destruct (reachable_one_timer env screen_width screen_height a Ha) as [Hrun Ht].
    pose proof (tick_timer a [] [] UPDATE_INTERVAL_MS Ht) as Htick.
    destruct (tick_spec a _ Htick Hrun Ht) as (_ & _ & Hth & Hwo).
    eexists. split; [|split; [|split]].
    + eapply rtc_r; [exact Hticks|exact Htick].
    + unfold reachable. apply rtc_tick_step. eapply rtc_r; [exact Hticks|exact Htick].
    + by rewrite Hth, Hn.
    + by rewrite Hwo.
Qed.
